(** * WhatsApp-tool: the archival core and the viewer, embedded in Rocq

    The repository ships three scripts: the terminal viewer (viewer.js), the
    current backup driver and an earlier variant of the same driver.  The
    development below embeds the parts that decide what reaches the disk:
    the Path Resolver ([getChatFilenameBase]), the Duplicate Filter
    ([checkDuplicate]), the Archival Writer ([appendToJson] and the media
    branch of [processMessage]), the Sync Driver ([syncRecentMessages]) and
    the Viewer ([listChats], [displayChat]).

    Conventions.  A JS string is a [string]; each [ascii] stands for one
    UTF-16 code unit below 256.  [undefined] is [None] at an [option] type.
    A rejected promise or a thrown exception is [Throw].  The provider
    (whatsapp-web.js), the mime table and the clock formatting are inputs of
    the model, gathered in [Env]. *)

From Stdlib Require Import String Ascii ZArith NArith List Bool Lia.
From stdpp Require Import base option list strings gmap.

#[local] Set Warnings "-register-all".

Local Open Scope string_scope.
Local Open Scope list_scope.

(** ** JS strings *)

Module JsString.

Definition code (c : ascii) : N := N_of_ascii c.

Definition between (lo hi : N) (c : ascii) : bool :=
  ((lo <=? code c) && (code c <=? hi))%N.

(** The complement of the class [[^a-zA-Z0-9_\- ]]: the code units the
    regular expression leaves alone. *)
Definition safe_char (c : ascii) : bool :=
  between 97 122 c || between 65 90 c || between 48 57 c
  || (code c =? 95)%N || (code c =? 45)%N || (code c =? 32)%N.

(** [s.replace(/[^a-zA-Z0-9_\- ]/g, '_')] *)
Fixpoint replace_unsafe (s : string) : string :=
  match s with
  | EmptyString => EmptyString
  | String c t => String (if safe_char c then c else "_"%char) (replace_unsafe t)
  end.

(** White space and line terminators of ECMAScript among the code units
    below 256: TAB, LF, VT, FF, CR, SP and NBSP. *)
Definition is_space (c : ascii) : bool :=
  between 9 13 c || (code c =? 32)%N || (code c =? 160)%N.

Fixpoint trim_start (s : string) : string :=
  match s with
  | EmptyString => EmptyString
  | String c t => if is_space c then trim_start t else s
  end.

Fixpoint trim_end (s : string) : string :=
  match s with
  | EmptyString => EmptyString
  | String c t =>
      match trim_end t with
      | EmptyString => if is_space c then EmptyString else String c EmptyString
      | t' => String c t'
      end
  end.

(** [s.trim()] *)
Definition trim (s : string) : string := trim_end (trim_start s).

(** [s.split(sep)[0]] for a one-character separator: what stands before
    the first [sep], the whole string when there is none. *)
Fixpoint before (sep : ascii) (s : string) : string :=
  match s with
  | EmptyString => EmptyString
  | String c t => if Ascii.eqb c sep then EmptyString else String c (before sep t)
  end.

(** [s.substring(0, n)] *)
Fixpoint prefix (n : nat) (s : string) : string :=
  match n, s with
  | S k, String c t => String c (prefix k t)
  | _, _ => EmptyString
  end.

Definition is_empty (s : string) : bool :=
  match s with EmptyString => true | _ => false end.

(** Truthiness of a value that is a string or [undefined]. *)
Definition truthy (v : option string) : bool :=
  match v with
  | Some s => negb (is_empty s)
  | None => false
  end.

(** [a || b] on such values. *)
Definition or_else (a b : option string) : option string :=
  if truthy a then a else b.

Fixpoint all_chars (p : ascii -> bool) (s : string) : bool :=
  match s with
  | EmptyString => true
  | String c t => p c && all_chars p t
  end.

Definition first_char (s : string) : option ascii :=
  match s with
  | EmptyString => None
  | String c _ => Some c
  end.

Fixpoint last_char (s : string) : option ascii :=
  match s with
  | EmptyString => None
  | String c EmptyString => Some c
  | String _ t => last_char t
  end.

Definition is_space_opt (c : option ascii) : bool :=
  match c with
  | Some c => is_space c
  | None => false
  end.

(** A string that carries no white space at either end. *)
Definition trimmed (s : string) : bool :=
  negb (is_space_opt (first_char s)) && negb (is_space_opt (last_char s)).

(** The sanitising expression of the Path Resolver,
    [name.replace(/[^a-zA-Z0-9_\- ]/g, '_').trim()]. *)
Definition sanitize (name : string) : string := trim (replace_unsafe name).

End JsString.

Import JsString.

(** ** Exceptions *)

Inductive result (A : Type) : Type :=
| Ok (a : A)
| Throw (message : string).

Arguments Ok {A} a.
Arguments Throw {A} message.

(** ** Path Resolver (backup driver, [getChatFilenameBase]) *)

(** [chat.id._serialized], [chat.id.user], [chat.isGroup], [chat.name]. *)
Record Chat := {
  chat_serialized : string;
  chat_user : option string;
  chat_isGroup : bool;
  chat_name : option string
}.

(** [contact.name], [contact.pushname], [contact.id.user]. *)
Record Contact := {
  contact_name : option string;
  contact_pushname : option string;
  contact_user : option string
}.

(** [contact.name || contact.pushname || contact.id.user] *)
Definition contactName (contact : Contact) : option string :=
  or_else (or_else (contact_name contact) (contact_pushname contact))
          (contact_user contact).

(** The name of a direct conversation whose contact was retrieved. *)
Definition contactBase (chat : Chat) (contact : Contact) : string :=
  match contactName contact with
  | Some n => if is_empty n then chat_serialized chat else sanitize n
  | None => chat_serialized chat
  end.

(** The [catch] branch: the sender address before its [@], else
    [chat.id.user], kept when it is a non-empty string. *)
Definition phoneFallback (chat : Chat) (msgFrom : option string) : string :=
  let phoneNumber :=
    if truthy msgFrom then option_map (before "@"%char) msgFrom else chat_user chat in
  match phoneNumber with
  | Some p => if is_empty p then chat_serialized chat else p
  | None => chat_serialized chat
  end.

(** The group branch:
    [(chat.name && chat.name.trim()) || chat.id._serialized], sanitised. *)
Definition groupBase (chat : Chat) : string :=
  let subject :=
    if truthy (chat_name chat) then option_map trim (chat_name chat) else chat_name chat in
  match or_else subject (Some (chat_serialized chat)) with
  | Some n => sanitize n
  | None => sanitize (chat_serialized chat)
  end.

(** [getChatFilenameBase(chat, msgFrom)], given what
    [client.getContactById(chat.id._serialized)] answers. *)
Definition getChatFilenameBase
    (getContactById : string -> result Contact)
    (chat : Chat) (msgFrom : option string) : string :=
  if chat_isGroup chat then groupBase chat
  else
    match getContactById (chat_serialized chat) with
    | Ok contact => contactBase chat contact
    | Throw _ => phoneFallback chat msgFrom
    end.

(** ** JSON values and files *)

(** [AInf] is what [JSON.parse] makes of a number beyond the range of
    doubles, such as [1e999]: [Infinity], or [-Infinity] when [negative]. *)
Inductive atom : Type :=
| ANull
| ABool (b : bool)
| ANum (n : Z)
| AInf (negative : bool)
| AStr (s : string).

(** A parsed JSON value.  Finite numbers are never computed with by the
    code under study, integers stand for them.  An object is given by the
    list of its members in source order; the last member of a repeated key
    prevails, as in [JSON.parse], and members are only ever read through
    [member]. *)
Inductive json : Type :=
| JAtom (a : atom)
| JArr (items : list json)
| JObj (members : list (string * json)).

Definition JStr (s : string) : json := JAtom (AStr s).
Definition JBool (b : bool) : json := JAtom (ABool b).
Definition JNum (n : Z) : json := JAtom (ANum n).
Definition JNull : json := JAtom ANull.

(** What [fs.readJson] hands back for a readable file: an atom or an array.
    A file holding a JSON object at its top level is outside the model
    (what the guard of [appendToJson] does to one depends on the number
    coercions of its [length] member). *)
Inductive doc : Type :=
| DAtom (a : atom)
| DArr (items : list json).

(** The content of a file as its readers see it: [Raw] is content that
    [JSON.parse] rejects (the empty file, a truncated log) and the content
    of media files, which the driver writes and never reads back. *)
Inductive file : Type :=
| Raw (content : string)
| Json (d : doc).

Definition atom_eqb (x y : atom) : bool :=
  match x, y with
  | ANull, ANull => true
  | ABool a, ABool b => Bool.eqb a b
  | ANum a, ANum b => (a =? b)%Z
  | AInf a, AInf b => Bool.eqb a b
  | AStr a, AStr b => String.eqb a b
  | _, _ => false
  end.

(** [a === b] where [a] is a member of freshly parsed data: atoms compare by
    value, arrays and objects by identity, which a parsed value shares with
    nothing. *)
Definition strict_eq (a b : option json) : bool :=
  match a, b with
  | None, None => true
  | Some (JAtom x), Some (JAtom y) => atom_eqb x y
  | _, _ => false
  end.

Fixpoint member (key : string) (members : list (string * json)) : option json :=
  match members with
  | [] => None
  | (k, v) :: rest =>
      match member key rest with
      | Some later => Some later
      | None => if String.eqb k key then Some v else None
      end
  end.

(** What is read back from a value that [JSON.stringify] wrote: a number
    that is not finite is written as [null], at any depth; every other
    member and element is read back as it was (a member that is no
    function, [toJSON] included, is written like any other). *)
Fixpoint stringified (j : json) : json :=
  match j with
  | JAtom (AInf _) => JNull
  | JAtom a => JAtom a
  | JArr items => JArr (List.map stringified items)
  | JObj members => JObj (List.map (fun '(k, v) => (k, stringified v)) members)
  end.

Definition type_error_null : string := "Cannot read properties of null".
Definition type_error_call : string := "is not a function".
Definition type_error_primitive : string := "Cannot convert object to primitive value".

(** [m.id] *)
Definition get_id (m : json) : result (option json) :=
  match m with
  | JAtom ANull => Throw type_error_null
  | JObj members => Ok (member "id" members)
  | _ => Ok None
  end.

(** [fs.readJson(file)] *)
Definition readJson (f : file) : result doc :=
  match f with
  | Raw _ => Throw "Unexpected token in JSON"
  | Json d => Ok d
  end.

(** [items.some(m => m.id === msgId)]: left to right, up to the first hit;
    the callback throws on a [null] element. *)
Fixpoint some_id (msgId : string) (items : list json) : result bool :=
  match items with
  | [] => Ok false
  | m :: rest =>
      match get_id m with
      | Throw e => Throw e
      | Ok v => if strict_eq v (Some (JStr msgId)) then Ok true else some_id msgId rest
      end
  end.

(** [data.some(m => m.id === msgId)] *)
Definition data_some (msgId : string) (data : doc) : result bool :=
  match data with
  | DArr items => some_id msgId items
  | DAtom ANull => Throw type_error_null
  | DAtom _ => Throw type_error_call
  end.

(** ** The world: files on disk and what the process emitted *)

Record FetchOptions := {
  opt_limit : json;
  opt_fromMe : option bool
}.

Inductive event : Type :=
| SavedLog (bodyStart filenameBase : string)
| ViewOnceDetected (id : string)
| MediaSaved (filename filenameBase : string)
| MediaFailed (id message : string)
| ProcessError (message : string)
| FoundChats (count : nat) (limit : json)
| SyncError (message : string)
| Fetch (chat : string) (options : FetchOptions)
| Pause (ms : Z).

Record World := {
  files : gmap string file;
  trace : list event
}.

Definition emit (e : event) (w : World) : World :=
  {| files := files w; trace := trace w ++ [e] |}.

Definition store (path : string) (f : file) (w : World) : World :=
  {| files := <[path := f]> (files w); trace := trace w |}.

(** ** The monad of async functions: state and exceptions *)

Definition Async (S A : Type) : Type := S -> result A * S.

Definition ret {S A} (a : A) : Async S A := fun w => (Ok a, w).

Definition bind {S A B} (c : Async S A) (k : A -> Async S B) : Async S B :=
  fun w =>
    match c w with
    | (Ok a, w') => k a w'
    | (Throw e, w') => (Throw e, w')
    end.

Definition throw {S A} (e : string) : Async S A := fun w => (Throw e, w).

Definition lift {S A} (r : result A) : Async S A := fun w => (r, w).

(** [try { body } catch (err) { handler(err.message) }] *)
Definition try_catch {S A} (body : Async S A) (handler : string -> Async S A) : Async S A :=
  fun w =>
    match body w with
    | (Ok a, w') => (Ok a, w')
    | (Throw e, w') => handler e w'
    end.

Definition when {S} (b : bool) (c : Async S unit) : Async S unit :=
  if b then c else ret tt.

Abbreviation M := (Async World).

Definition say (e : event) : M unit := fun w => (Ok tt, emit e w).

Declare Scope js_scope.
Delimit Scope js_scope with js.
Notation "'let*' x := c 'in' k" := (bind c (fun x => k))
  (at level 10, x name, c at level 100, k at level 200) : js_scope.
Notation "c ;;; k" := (bind c (fun _ => k))
  (at level 100, k at level 200, right associativity) : js_scope.

(** [for (const x of xs) await body(x)] *)
Fixpoint for_each {S A} (xs : list A) (body : A -> Async S unit) : Async S unit :=
  match xs with
  | [] => ret tt
  | x :: rest => bind (body x) (fun _ => for_each rest body)
  end.

(** ** Duplicate Filter and Archival Writer *)

(** [checkDuplicate(filePath, msgId)]: it only reads. *)
Definition checkDuplicate (fs : gmap string file) (filePath msgId : string) : bool :=
  match fs !! filePath with
  | None => false
  | Some f =>
      match readJson f with
      | Throw _ => false
      | Ok data =>
          match data_some msgId data with
          | Ok b => b
          | Throw _ => false
          end
      end
  end.

(** What [appendToJson] starts from: [[]] unless the file exists and parses. *)
Definition loadData (fs : gmap string file) (filePath : string) : doc :=
  match fs !! filePath with
  | None => DArr []
  | Some f =>
      match readJson f with
      | Ok data => data
      | Throw _ => DArr []
      end
  end.

(** [data.length > 0 && data[data.length - 1].id === newData.id] *)
Definition latest_is (data : doc) (newData : json) : result bool :=
  match data with
  | DArr items =>
      match last items with
      | None => Ok false
      | Some m =>
          match get_id m with
          | Throw e => Throw e
          | Ok v =>
              match get_id newData with
              | Throw e => Throw e
              | Ok v' => Ok (strict_eq v v')
              end
          end
      end
  | DAtom ANull => Throw type_error_null
  | DAtom (AStr s) =>
      if is_empty s then Ok false
      else
        match get_id newData with
        | Throw e => Throw e
        | Ok v' => Ok (strict_eq None v')
        end
  | DAtom _ => Ok false
  end.

(** [data.push(newData); await fs.writeJson(filePath, data, { spaces: 2 })]:
    the file holds what [JSON.stringify] wrote of the array. *)
Definition pushAndWrite (filePath : string) (data : doc) (newData : json) : M unit :=
  match data with
  | DArr items =>
      fun w => (Ok tt, store filePath (Json (DArr (stringified <$> (items ++ [newData])))) w)
  | DAtom _ => throw type_error_call
  end.

(** [appendToJson(filePath, newData)] *)
Definition appendToJson (filePath : string) (newData : json) : M unit :=
  fun w =>
    let data := loadData (files w) filePath in
    match latest_is data newData with
    | Throw e => (Throw e, w)
    | Ok true => (Ok tt, w)
    | Ok false => pushAndWrite filePath data newData w
    end.

(** ** The provider's objects and the configuration *)

Record Media := {
  media_mimetype : string;
  media_data : string
}.

(** A message as the provider delivers it.  [msg_getChat], [msg_getContact]
    and [msg_downloadMedia] are what the methods of that name answer. *)
Record Message := {
  msg_id : string;
  msg_from : string;
  msg_to : string;
  msg_author : option string;
  msg_body : string;
  msg_timestamp : Z;
  msg_hasMedia : bool;
  msg_fromMe : bool;
  msg_isViewOnce : bool;
  msg_getChat : result Chat;
  msg_getContact : result Contact;
  msg_downloadMedia : result (option Media)
}.

(** config.json *)
Record Config := {
  SAVE_GROUPS : bool;
  SAVE_MESSAGES : bool;
  SAVE_MEDIA : bool;
  BACKUP_DIR : string;
  SYNC_LIMIT : option json
}.

(** The collaborators the scripts call: the client, the mime table
    ([mime.extension], [None] for its [false]) and
    [new Date(ms).toISOString()], which throws a RangeError outside the
    range of dates. *)
Record Env := {
  config : Config;
  getContactById : string -> result Contact;
  getChats : result (list Chat);
  fetchMessages : Chat -> FetchOptions -> result (list Message);
  mime_extension : string -> option string;
  toISOString : Z -> result string
}.

(** Truthiness of a configuration value. *)
Definition js_truthy (v : option json) : bool :=
  match v with
  | None => false
  | Some (JAtom ANull) => false
  | Some (JAtom (ABool b)) => b
  | Some (JAtom (ANum n)) => negb (n =? 0)%Z
  | Some (JAtom (AInf _)) => true
  | Some (JAtom (AStr s)) => negb (is_empty s)
  | Some (JArr _) => true
  | Some (JObj _) => true
  end.

(** [v || fallback] *)
Definition js_or (v : option json) (fallback : json) : json :=
  match v with
  | Some j => if js_truthy v then j else fallback
  | None => fallback
  end.

(** [path.join(...)] on segments that need no normalising: the non-empty
    segments, joined by the separator. *)
Fixpoint join_segments (segments : list string) : string :=
  match segments with
  | [] => ""
  | [s] => s
  | s :: rest => s ++ "/" ++ join_segments rest
  end.

Definition path_join (segments : list string) : string :=
  join_segments (List.filter (fun s => negb (is_empty s)) segments).

(** The record [processMessage] hands to [appendToJson]. *)
Definition messageData (msg : Message) (iso : string) : json :=
  JObj [ ("id", JStr (msg_id msg));
         ("from", JStr (msg_from msg));
         ("to", JStr (msg_to msg));
         ("author", JStr (if truthy (msg_author msg)
                          then default (msg_from msg) (msg_author msg)
                          else msg_from msg));
         ("body", JStr (msg_body msg));
         ("timestamp", JStr iso);
         ("hasMedia", JBool (msg_hasMedia msg));
         ("isSentByMe", JBool (msg_fromMe msg));
         ("isViewOnce", JBool (msg_isViewOnce msg)) ].

Definition logPath (backupDir filenameBase : string) : string :=
  path_join [path_join [backupDir; "chats"; filenameBase]; "messages.json"].

Definition mediaDirectory (backupDir dateStr filenameBase : string) : string :=
  path_join [backupDir; "media"; dateStr; filenameBase].

(** [`${prefix}${msg.id.id}.${extension}`] *)
Definition mediaFilename (env : Env) (msg : Message) (media : Media) : string :=
  let extension :=
    match mime_extension env (media_mimetype media) with
    | Some e => if is_empty e then "bin" else e
    | None => "bin"
    end in
  let prefix := if msg_isViewOnce msg then "VIEWONCE_" else "" in
  prefix ++ msg_id msg ++ "." ++ extension.

Definition pathExists (path : string) : M bool :=
  fun w => (Ok (bool_decide (is_Some (files w !! path))), w).

(** [fs.writeFile(filePath, media.data, 'base64')] *)
Definition writeFile (path content : string) : M unit :=
  fun w => (Ok tt, store path (Raw content) w).

Local Open Scope js_scope.

(** Part A of [processMessage]: the log. *)
Definition saveLog (logFile filenameBase iso : string) (msg : Message) : M unit :=
  fun w =>
    if checkDuplicate (files w) logFile (msg_id msg) then (Ok tt, w)
    else
      (appendToJson logFile (messageData msg iso) ;;;
       say (SavedLog (prefix 15 (msg_body msg)) filenameBase)) w.

(** Part B of [processMessage]: the media, under its own [try]. *)
Definition saveMedia (env : Env) (mediaDir filenameBase : string) (msg : Message) : M unit :=
  when (msg_isViewOnce msg) (say (ViewOnceDetected (msg_id msg))) ;;;
  try_catch
    (let* media := lift (msg_downloadMedia msg) in
     match media with
     | None => ret tt
     | Some media =>
         let filename := mediaFilename env msg media in
         let filePath := path_join [mediaDir; filename] in
         let* present := pathExists filePath in
         if present then ret tt
         else
           writeFile filePath (media_data media) ;;;
           say (MediaSaved filename filenameBase)
     end)
    (fun e => say (MediaFailed (msg_id msg) e)).

(** What both variants of [processMessage] do once the folder name is
    known. *)
Definition archive (env : Env) (filenameBase : string) (msg : Message) : M unit :=
  let* iso := lift (toISOString env (msg_timestamp msg * 1000)) in
  let dateStr := before "T"%char iso in
  let backupDir := BACKUP_DIR (config env) in
  let mediaDir := mediaDirectory backupDir dateStr filenameBase in
  when (SAVE_MESSAGES (config env))
       (saveLog (logPath backupDir filenameBase) filenameBase iso msg) ;;;
  when (SAVE_MEDIA (config env) && msg_hasMedia msg)
       (saveMedia env mediaDir filenameBase msg).

(** [chat.isGroup && !config.SAVE_GROUPS] *)
Definition skipped (env : Env) (chat : Chat) : bool :=
  chat_isGroup chat && negb (SAVE_GROUPS (config env)).

(** ** The backup driver *)

(** [processMessage(msg)] *)
Definition processMessage (env : Env) (msg : Message) : M unit :=
  try_catch
    (let* chat := lift (msg_getChat msg) in
     if skipped env chat then ret tt
     else
       let filenameBase :=
         getChatFilenameBase (getContactById env) chat (Some (msg_from msg)) in
       archive env filenameBase msg)
    (fun e => say (ProcessError e)).

(** [config.SYNC_LIMIT || 99999] *)
Definition syncLimit (cfg : Config) : json := js_or (SYNC_LIMIT cfg) (JNum 99999).

(** The body of the loop of [syncRecentMessages] for one conversation. *)
Definition syncChat (env : Env) (limit : json) (chat : Chat) : M unit :=
  if skipped env chat then ret tt
  else
    let options := {| opt_limit := limit; opt_fromMe := Some true |} in
    say (Fetch (chat_serialized chat) options) ;;;
    let* messages := lift (fetchMessages env chat options) in
    for_each (rev messages) (processMessage env) ;;;
    say (Pause 500).

(** [syncRecentMessages()] *)
Definition syncRecentMessages (env : Env) : M unit :=
  try_catch
    (let* chats := lift (getChats env) in
     let limit := syncLimit (config env) in
     say (FoundChats (length chats) limit) ;;;
     for_each chats (syncChat env limit))
    (fun e => say (SyncError e)).

(** ** The earlier variant of the driver *)

Module Earlier.

(** The folder name, computed in line from [msg.getContact()]. *)
Definition filenameBase (chat : Chat) (msg : Message) : result string :=
  if chat_isGroup chat then
    match or_else (chat_name chat) (Some (chat_serialized chat)) with
    | Some n => Ok (sanitize n)
    | None => Ok (sanitize (chat_serialized chat))
    end
  else
    match msg_getContact msg with
    | Ok contact => Ok (contactBase chat contact)
    | Throw e => Throw e
    end.

Definition processMessage (env : Env) (msg : Message) : M unit :=
  try_catch
    (let* chat := lift (msg_getChat msg) in
     if skipped env chat then ret tt
     else
       let* base := lift (filenameBase chat msg) in
       archive env base msg)
    (fun e => say (ProcessError e)).

(** [config.SYNC_LIMIT || 50] *)
Definition syncLimit (cfg : Config) : json := js_or (SYNC_LIMIT cfg) (JNum 50).

Definition syncChat (env : Env) (chat : Chat) : M unit :=
  if skipped env chat then ret tt
  else
    let options := {| opt_limit := syncLimit (config env); opt_fromMe := None |} in
    say (Fetch (chat_serialized chat) options) ;;;
    let* messages := lift (fetchMessages env chat options) in
    for_each messages (processMessage env) ;;;
    say (Pause 500).

Definition syncRecentMessages (env : Env) : M unit :=
  try_catch
    (let* chats := lift (getChats env) in
     say (FoundChats (length chats) (syncLimit (config env))) ;;;
     for_each chats (syncChat env))
    (fun e => say (SyncError e)).

End Earlier.

(** ** The viewer *)

Module Viewer.

(** The second line of an entry: [You], or the author as the record has
    it ([None] for [undefined]). *)
Inductive sender : Type :=
| You
| Them (author : option json).

(** The media label of an entry: the media type it shows in upper case
    ([None] where it shows MEDIA) and whether it shows the view-once
    mark. *)
Record label := {
  label_type : option string;
  label_viewOnce : bool
}.

(** What the viewer does to the terminal: the lines it prints, the
    question it asks and [rl.close()].  The four lines of an entry carry
    the values they are formatted from: the number and the time stamp, the
    sender, the body with the media label, the rule. *)
Inductive output : Type :=
| NoChatsFound
| AvailableChats
| ChatItem (number : nat) (folder : string)
| Question
| InvalidSelection
| ErrorReadingChats (message : string)
| NoMessagesFound
| ChatHeader (chatName : string)
| EntryTime (number : nat) (timestamp : option json)
| EntrySender (who : sender)
| EntryText (body : option json) (mediaLabel : option label)
| EntryRule
| TotalMessages (count : nat)
| ErrorDisplayingChat (message : string)
| Close.

Abbreviation V := (Async (list output)).

Definition print (o : output) : V unit := fun out => (Ok tt, out ++ [o]).

(** What the viewer reads: the directory of the script, the listing
    [fs.readdir(backupDir)] resolves to, the files, and
    [parseInt(answer)] for the line the user types ([None] for NaN). *)
Record Input := {
  dirname : string;
  readdir : result (list string);
  disk : gmap string file;
  answer : option Z
}.

Definition backupDir (i : Input) : string := path_join [dirname i; "backup"; "chats"].

(** [msg.key] for the first member the callback reads: it throws on
    [null]; an atom other than [null] and an array have no member of the
    names read here. *)
Definition get (key : string) (msg : json) : result (option json) :=
  match msg with
  | JAtom ANull => Throw type_error_null
  | JObj members => Ok (member key members)
  | _ => Ok None
  end.

(** [msg.key] once [msg] is known not to be [null]. *)
Definition field (key : string) (msg : json) : option json :=
  match msg with
  | JObj members => member key members
  | _ => None
  end.

(** The conversion of a parsed value to a primitive succeeds.  An object
    converts through [Object.prototype.toString], unless a member named
    [toString] hides it: a member is never callable, and
    [Object.prototype.valueOf] answers the object itself.  An array converts
    through [join], which converts each element other than [null]. *)
Fixpoint coercible (j : json) : bool :=
  match j with
  | JAtom _ => true
  | JArr items => forallb coercible items
  | JObj members =>
      match member "toString" members with
      | Some _ => false
      | None => true
      end
  end.

Definition coerces (v : option json) : bool :=
  match v with
  | Some j => coercible j
  | None => true
  end.

(** What [new Date(v)] and a template literal [`${v}`] do before they
    format [v]. *)
Definition toPrimitive (v : option json) : result unit :=
  if coerces v then Ok tt else Throw type_error_primitive.

(** [v?.toUpperCase() || 'MEDIA']: the string shown in upper case, [None]
    for MEDIA.  The call throws on a value that is neither [undefined],
    [null] nor a string. *)
Definition upperCase (v : option json) : result (option string) :=
  match v with
  | None => Ok None
  | Some (JAtom ANull) => Ok None
  | Some (JAtom (AStr s)) => Ok (if is_empty s then None else Some s)
  | Some _ => Throw type_error_call
  end.

(** The callback of [messages.forEach], for the record [msg] at
    [index + 1 = number]: the time stamp, the sender and the media label
    are computed first, then the four lines are printed, the body being
    converted between the second and the third. *)
Definition printEntry (number : nat) (msg : json) : V unit :=
  let* timestamp := lift (get "timestamp" msg) in
  lift (toPrimitive timestamp) ;;;
  let* who :=
    (if js_truthy (field "isSentByMe" msg) then ret You
     else (lift (toPrimitive (field "author" msg)) ;;; ret (Them (field "author" msg)))) in
  let viewOnce := js_truthy (field "isViewOnce" msg) in
  let* mediaLabel :=
    (if js_truthy (field "hasMedia" msg) then
       let* type := lift (upperCase (field "mediaType" msg)) in
       ret (Some {| label_type := type; label_viewOnce := viewOnce |})
     else ret None) in
  print (EntryTime number timestamp) ;;;
  print (EntrySender who) ;;;
  lift (toPrimitive (field "body" msg)) ;;;
  print (EntryText (field "body" msg) mediaLabel) ;;;
  print EntryRule.

(** [messages.forEach(...)] on an array. *)
Fixpoint printMessages (number : nat) (items : list json) : V unit :=
  match items with
  | [] => ret tt
  | msg :: rest => printEntry number msg ;;; printMessages (S number) rest
  end.

(** [displayChat(chatName)] *)
Definition displayChat (i : Input) (chatName : string) : V unit :=
  try_catch
    (let messagesFile := path_join [backupDir i; chatName; "messages.json"] in
     match disk i !! messagesFile with
     | None => print NoMessagesFound ;;; print Close
     | Some f =>
         let* messages := lift (readJson f) in
         print (ChatHeader chatName) ;;;
         match messages with
         | DArr items =>
             printMessages 1 items ;;;
             print (TotalMessages (length items)) ;;;
             print Close
         | DAtom ANull => throw type_error_null
         | DAtom _ => throw type_error_call
         end
     end)
    (fun e => print (ErrorDisplayingChat e) ;;; print Close).

Fixpoint printFolders (number : nat) (folders : list string) : V unit :=
  match folders with
  | [] => ret tt
  | folder :: rest => print (ChatItem number folder) ;;; printFolders (S number) rest
  end.

(** The callback of [rl.question].  Its guard bounds [num], so that
    [chatFolders[num - 1]] is a folder of the listing. *)
Definition onAnswer (i : Input) (chatFolders : list string) : V unit :=
  match answer i with
  | Some 0%Z => print Close
  | Some num =>
      if ((0 <? num) && (num <=? Z.of_nat (length chatFolders)))%Z then
        match chatFolders !! Z.to_nat (num - 1) with
        | Some selectedChat => displayChat i selectedChat
        | None => ret tt
        end
      else print InvalidSelection ;;; print Close
  | None => print InvalidSelection ;;; print Close
  end.

(** [listChats()]; the question's callback runs once the body has
    returned, outside its [try]. *)
Definition listChats (i : Input) : V unit :=
  let* asked :=
    try_catch
      (let* chatFolders := lift (readdir i) in
       match chatFolders with
       | [] => print NoChatsFound ;;; print Close ;;; ret None
       | _ =>
           print AvailableChats ;;;
           printFolders 1 chatFolders ;;;
           print Question ;;;
           ret (Some chatFolders)
       end)
      (fun e => print (ErrorReadingChats e) ;;; print Close ;;; ret None) in
  match asked with
  | Some chatFolders => onAnswer i chatFolders
  | None => ret tt
  end.

(** The script: [listChats();] on a silent terminal. *)
Definition run (i : Input) : result unit * list output := listChats i [].

(** The exit status Node gives a process whose event loop drained: 0,
    unless a rejection was left unhandled. *)
Definition exit_code (r : result unit) : Z :=
  match r with
  | Ok _ => 0
  | Throw _ => 1
  end.

End Viewer.

(** ** Sample data: one direct conversation and its provider *)

Module Sample.

Definition alice : Chat :=
  {| chat_serialized := "15551234567@c.us"; chat_user := Some "15551234567";
     chat_isGroup := false; chat_name := None |}.

Definition team : Chat :=
  {| chat_serialized := "15550001111-1600000000@g.us"; chat_user := Some "15550001111-1600000000";
     chat_isGroup := true; chat_name := Some "O'Brien/Team #1" |}.

Definition obrien : Contact :=
  {| contact_name := Some "O'Brien/Team #1"; contact_pushname := None;
     contact_user := Some "15551234567" |}.

Definition nobody (id : string) : result Contact := Throw "contact lookup failed".

Definition bob : Chat :=
  {| chat_serialized := "15557654321@c.us"; chat_user := Some "15557654321";
     chat_isGroup := false; chat_name := None |}.

Definition card (id : string) : result Contact :=
  Ok {| contact_name := None; contact_pushname := None;
        contact_user := Some (before "@"%char id) |}.

(** A text message of [chat] with the given id. *)
Definition note (chat : Chat) (id : string) : Message :=
  {| msg_id := id; msg_from := chat_serialized chat; msg_to := "15550009999@c.us";
     msg_author := None; msg_body := "see you at nine"; msg_timestamp := 1700000000;
     msg_hasMedia := false; msg_fromMe := false; msg_isViewOnce := false;
     msg_getChat := Ok chat; msg_getContact := card (chat_serialized chat);
     msg_downloadMedia := Ok None |}.

(** A view-once picture of [chat]. *)
Definition photo (chat : Chat) (id : string) : Message :=
  {| msg_id := id; msg_from := chat_serialized chat; msg_to := "15550009999@c.us";
     msg_author := None; msg_body := ""; msg_timestamp := 1700000000;
     msg_hasMedia := true; msg_fromMe := false; msg_isViewOnce := true;
     msg_getChat := Ok chat; msg_getContact := card (chat_serialized chat);
     msg_downloadMedia := Ok (Some {| media_mimetype := "image/png";
                                      media_data := "iVBORw0KGgo=" |}) |}.

Definition settings (limit : option json) : Config :=
  {| SAVE_GROUPS := false; SAVE_MESSAGES := true; SAVE_MEDIA := true;
     BACKUP_DIR := "backup"; SYNC_LIMIT := limit |}.

(** A provider that knows [chats] and answers [history chat] to a fetch. *)
Definition provider (limit : option json) (chats : list Chat)
    (history : Chat -> result (list Message)) : Env :=
  {| config := settings limit;
     getContactById := card;
     getChats := Ok chats;
     fetchMessages := fun chat _ => history chat;
     mime_extension := fun type => if String.eqb type "image/png" then Some "png" else None;
     toISOString := fun _ => Ok "2023-11-14T22:13:20.000Z" |}.

(** The provider answers newest first. *)
Definition newest_first : Env :=
  provider None [alice] (fun chat => Ok [note chat "3"; note chat "2"; note chat "1"]).

(** The history of the first conversation cannot be fetched. *)
Definition first_fetch_fails : Env :=
  provider None [alice; bob]
    (fun chat =>
       if String.eqb (chat_serialized chat) (chat_serialized alice)
       then Throw "fetch failed"
       else Ok [note chat "7"]).

(** The limit is configured as 0; the provider answers no message to a
    fetch whose limit is 0. *)
Definition limit_zero : Env :=
  {| config := settings (Some (JNum 0));
     getContactById := card;
     getChats := Ok [alice];
     fetchMessages := fun chat options =>
                        match opt_limit options with
                        | JAtom (ANum 0) => Ok []
                        | _ => Ok [note chat "1"]
                        end;
     mime_extension := fun _ => None;
     toISOString := fun _ => Ok "2023-11-14T22:13:20.000Z" |}.

Definition blank : World := {| files := ∅; trace := [] |}.

Definition aliceLog : string := "backup/chats/15551234567/messages.json".

End Sample.

(** ** The vocabulary of the specification *)

(** The [id] of a record of the log; an element that is no object has none. *)
Definition record_id (m : json) : option json :=
  match m with
  | JObj members => member "id" members
  | _ => None
  end.

(** The record [m] has id [msgId]. *)
Definition id_is (msgId : string) (m : json) : bool :=
  strict_eq (record_id m) (Some (JStr msgId)).

(** Two records carry the same id. *)
Definition ids_equal (m record : json) : bool :=
  strict_eq (record_id m) (record_id record).

(** The array a log file holds; an absent or unparsable file counts as the
    empty array. *)
Definition stored_items (fs : gmap string file) (path : string) : list json :=
  match fs !! path with
  | Some (Json (DArr items)) => items
  | _ => []
  end.

(** The file is absent, unparsable or a JSON array. *)
Definition array_or_missing (fs : gmap string file) (path : string) : Prop :=
  forall a, fs !! path <> Some (Json (DAtom a)).

(** The Path Resolver claim as worded: whatever the conversation and the
    outcome of the contact lookup, the name is sanitised and trimmed. *)
Definition always_sanitized : Prop :=
  forall getContactById chat msgFrom,
    let base := getChatFilenameBase getContactById chat msgFrom in
    all_chars safe_char base = true /\ trimmed base = true.

(** [r] is [s] with every code unit outside [[A-Za-z0-9_- ]] replaced by
    an underscore, the others left where they are. *)
Definition replaced (s r : string) : Prop :=
  String.length r = String.length s
  /\ forall i c, String.get i s = Some c ->
                 String.get i r = Some (if safe_char c then c else "_"%char).

(** [t] is [s] without the white space at its two ends. *)
Definition stripped (s t : string) : Prop :=
  exists lead trail,
    s = (lead ++ t ++ trail)%string
    /\ all_chars is_space lead = true /\ all_chars is_space trail = true
    /\ trimmed t = true.

(** [base] is [name] sanitised: every code unit outside the class replaced
    by an underscore, then the white space at the ends taken off. *)
Definition sanitized_from (name base : string) : Prop :=
  exists r, replaced name r /\ stripped r base.

(** The name the Path Resolver sanitises for a group: the subject without
    the white space at its ends, the conversation id when the subject is
    absent or nothing is left of it. *)
Definition subject_or_id (chat : Chat) : string :=
  match chat_name chat with
  | Some subject => if is_empty (trim subject) then chat_serialized chat else trim subject
  | None => chat_serialized chat
  end.

(** The Duplicate Filter claim as worded. *)
Definition duplicate_iff_recorded : Prop :=
  forall (fs : gmap string file) (path msgId : string),
    checkDuplicate fs path msgId = true <->
    exists items, fs !! path = Some (Json (DArr items))
                  /\ exists m, m ∈ items /\ id_is msgId m = true.

(** The Archival Writer claim as worded: unchanged when the latest record
    has the id of the new one, appended otherwise. *)
Definition append_unless_latest : Prop :=
  forall (w : World) (path : string) (members : list (string * json)),
    array_or_missing (files w) path ->
    let record := JObj members in
    let items := stored_items (files w) path in
    files (snd (appendToJson path record w)) =
      match last items with
      | Some m =>
          if ids_equal m record then files w
          else <[path := Json (DArr (items ++ [record]))]> (files w)
      | None => <[path := Json (DArr [record])]> (files w)
      end.

(** The per-message archival path, run over a sequence of messages bound
    for one log: the duplicate check, then the append ([saveLog]). *)
Definition feed (logFile filenameBase : string) (iso : Message -> string)
    (msgs : list Message) : M unit :=
  for_each msgs (fun msg => saveLog logFile filenameBase (iso msg) msg).

(** The messages that open a new id, in the order of the input. *)
Fixpoint first_seen (seen : list string) (msgs : list Message) : list Message :=
  match msgs with
  | [] => []
  | msg :: rest =>
      if bool_decide (msg_id msg ∈ seen) then first_seen seen rest
      else msg :: first_seen (seen ++ [msg_id msg]) rest
  end.

(** The distinct ids of a sequence, each at its first occurrence. *)
Fixpoint nub (ids : list string) : list string :=
  match ids with
  | [] => []
  | x :: rest => x :: filter (fun y => y <> x) (nub rest)
  end.

(** The id of a record when it is a string. *)
Definition record_key (m : json) : option string :=
  match record_id m with
  | Some (JAtom (AStr s)) => Some s
  | _ => None
  end.

(** The ids a log holds, in file order. *)
Definition log_ids (fs : gmap string file) (path : string) : list string :=
  omap record_key (stored_items fs path).

(** The record written for [msg], given the clock formatting. *)
Definition record_of (iso : Message -> string) (msg : Message) : json :=
  messageData msg (iso msg).

(** The log at [logFile] holds the records of the messages [kept], in that
    order. *)
Definition holds (logFile : string) (iso : Message -> string)
    (kept : list Message) (w : World) : Prop :=
  array_or_missing (files w) logFile
  /\ stored_items (files w) logFile = record_of iso <$> kept.

(** The options of a fetch in the two variants of the driver. *)
Definition fetchOptions (cfg : Config) : FetchOptions :=
  {| opt_limit := syncLimit cfg; opt_fromMe := Some true |}.

Definition earlierFetchOptions (cfg : Config) : FetchOptions :=
  {| opt_limit := Earlier.syncLimit cfg; opt_fromMe := None |}.

(** The failure policy of the Sync Driver as worded: the error of a failed
    fetch is logged and every later conversation is still fetched. *)
Definition sync_survives_failed_fetch : Prop :=
  forall env w earlier chat later e,
    getChats env = Ok (earlier ++ chat :: later) ->
    skipped env chat = false ->
    fetchMessages env chat (fetchOptions (config env)) = Throw e ->
    let after := trace (snd (syncRecentMessages env w)) in
    SyncError e ∈ after
    /\ forall c, c ∈ later -> skipped env c = false ->
                 Fetch (chat_serialized c) (fetchOptions (config env)) ∈ after.

(** A conversation whose turn in the loop does not throw: it is skipped or
    its history is fetched. *)
Definition fetchable (env : Env) (options : FetchOptions) (chat : Chat) : Prop :=
  skipped env chat = true \/ exists msgs, fetchMessages env chat options = Ok msgs.

(** The environment with [SYNC_LIMIT] set to [limit]. *)
Definition with_limit (env : Env) (limit : json) : Env :=
  {| config := {| SAVE_GROUPS := SAVE_GROUPS (config env);
                  SAVE_MESSAGES := SAVE_MESSAGES (config env);
                  SAVE_MEDIA := SAVE_MEDIA (config env);
                  BACKUP_DIR := BACKUP_DIR (config env);
                  SYNC_LIMIT := Some limit |};
     getContactById := getContactById env;
     getChats := getChats env;
     fetchMessages := fetchMessages env;
     mime_extension := mime_extension env;
     toISOString := toISOString env |}.

(** The folder name and the time stamp [processMessage] works with, when
    the message gets as far as the archive: its conversation is known and
    not skipped, its date can be formatted. *)
Definition target (env : Env) (msg : Message) : option (string * string) :=
  match msg_getChat msg with
  | Ok chat =>
      if skipped env chat then None
      else
        match toISOString env (msg_timestamp msg * 1000) with
        | Ok iso =>
            Some (getChatFilenameBase (getContactById env) chat (Some (msg_from msg)), iso)
        | Throw _ => None
        end
  | Throw _ => None
  end.

(** The log file of the conversation of [msg]. *)
Definition logTarget (env : Env) (msg : Message) : option string :=
  match target env msg with
  | Some (base, _) => Some (logPath (BACKUP_DIR (config env)) base)
  | None => None
  end.

(** The media path computed for [msg], when its media can be downloaded. *)
Definition mediaTarget (env : Env) (msg : Message) : option string :=
  match target env msg, msg_downloadMedia msg with
  | Some (base, iso), Ok (Some media) =>
      Some (path_join [mediaDirectory (BACKUP_DIR (config env)) (before "T"%char iso) base;
                       mediaFilename env msg media])
  | _, _ => None
  end.

(** A log on which the guard of [appendToJson] does not throw. *)
Definition healthy (fs : gmap string file) (path : string) : Prop :=
  array_or_missing fs path /\ last (stored_items fs path) <> Some JNull.

(** What part A writes to the log: nothing ([None]) or a new array. *)
Definition logWrite (fs : gmap string file) (logFile : string) (msg : Message)
    (iso : string) : result (option (list json)) :=
  if checkDuplicate fs logFile (msg_id msg) then Ok None
  else
    match latest_is (loadData fs logFile) (messageData msg iso) with
    | Throw e => Throw e
    | Ok true => Ok None
    | Ok false =>
        match loadData fs logFile with
        | DArr items => Ok (Some (stringified <$> (items ++ [messageData msg iso])))
        | DAtom _ => Throw type_error_call
        end
    end.

(** What part B writes: nothing, or one file and its content. *)
Definition mediaWrite (env : Env) (fs : gmap string file) (mediaDir : string)
    (msg : Message) : option (string * string) :=
  match msg_downloadMedia msg with
  | Ok (Some media) =>
      let filePath := path_join [mediaDir; mediaFilename env msg media] in
      if bool_decide (is_Some (fs !! filePath)) then None
      else Some (filePath, media_data media)
  | _ => None
  end.

Definition written (fs : gmap string file) (write : option (string * string)) :
    gmap string file :=
  match write with
  | Some (path, content) => <[path := Raw content]> fs
  | None => fs
  end.

(** The disk after [processMessage], as a function of the disk before. *)
Definition diskAfter (env : Env) (msg : Message) (fs : gmap string file) :
    gmap string file :=
  match target env msg with
  | None => fs
  | Some (base, iso) =>
      let backupDir := BACKUP_DIR (config env) in
      let logFile := logPath backupDir base in
      let mediaDir := mediaDirectory backupDir (before "T"%char iso) base in
      let afterLog :=
        if SAVE_MESSAGES (config env) then
          match logWrite fs logFile msg iso with
          | Throw _ => None
          | Ok None => Some fs
          | Ok (Some items) => Some (<[logFile := Json (DArr items)]> fs)
          end
        else Some fs in
      match afterLog with
      | None => fs
      | Some fs1 =>
          if SAVE_MEDIA (config env) && msg_hasMedia msg
          then written fs1 (mediaWrite env fs1 mediaDir msg)
          else fs1
      end
  end.

(** A path below the backup directory. *)
Definition rooted (backupDir rest : string) : string :=
  if is_empty backupDir then rest else backupDir ++ "/" ++ rest.

(** The time stamp written for [msg]. *)
Definition isoOf (env : Env) (msg : Message) : string :=
  match toISOString env (msg_timestamp msg * 1000) with
  | Ok iso => iso
  | Throw _ => ""
  end.

(** The message is archived under the folder [base]. *)
Definition filed_under (env : Env) (base : string) (msg : Message) : Prop :=
  target env msg = Some (base, isoOf env msg).

(** ** The life cycle of the driver: pairing, start, live messages, shutdown *)

Module Lifecycle.

(** The lines the event handlers print themselves, the pause before the
    exit among them; the lines of [processMessage] and
    [syncRecentMessages] are in the trace of the world.  [QrShown] stands
    for [console.clear()], the two lines and the code drawn between them,
    at the time [Date.now()] gave. *)
Inductive notice : Type :=
| QrShown (qr : string) (now : Z)
| ClientReady
| SyncStarting
| SyncComplete
| ClientError (message : string)
| Disconnected (reason : string)
| Destroyed
| DestroyFailed (message : string)
| Waited (ms : Z)
| Restarting
| InitFailed (message : string).

(** The process: the world, the variable [lastQRTime], what the handlers
    printed, and the status of [process.exit] once it was called. *)
Record Process := {
  world : World;
  lastQRTime : Z;
  notices : list notice;
  exited : option Z
}.

(** The script before its first event: [let lastQRTime = 0]. *)
Definition boot (w : World) : Process :=
  {| world := w; lastQRTime := 0; notices := []; exited := None |}.

Definition notify (n : notice) (p : Process) : Process :=
  {| world := world p; lastQRTime := lastQRTime p;
     notices := notices p ++ [n]; exited := exited p |}.

Definition with_world (w : World) (p : Process) : Process :=
  {| world := w; lastQRTime := lastQRTime p; notices := notices p; exited := exited p |}.

Definition exit (status : Z) (p : Process) : Process :=
  {| world := world p; lastQRTime := lastQRTime p; notices := notices p;
     exited := Some status |}.

(** [client.on('qr', ...)], with [now] for [Date.now()]. *)
Definition onQr (qr : string) (now : Z) (p : Process) : Process :=
  if (3000 <? now - lastQRTime p)%Z then
    {| world := world p; lastQRTime := now;
       notices := notices p ++ [QrShown qr now]; exited := exited p |}
  else p.

(** A run of [qr] events, each with the code and the time of its arrival. *)
Fixpoint pairing (codes : list (string * Z)) (p : Process) : Process :=
  match codes with
  | [] => p
  | (qr, now) :: rest => pairing rest (onQr qr now p)
  end.

(** [client.on('ready', ...)] *)
Definition onReady (env : Env) (p : Process) : Process :=
  let p1 := notify SyncStarting (notify ClientReady p) in
  match syncRecentMessages env (world p1) with
  | (Ok _, w) => notify SyncComplete (with_world w p1)
  | (Throw _, w) => with_world w p1
  end.

(** [client.on('message_create', ...)] *)
Definition onMessageCreate (env : Env) (msg : Message) (p : Process) : Process :=
  with_world (snd (processMessage env msg (world p))) p.

(** [client.on('error', ...)] *)
Definition onError (message : string) (p : Process) : Process :=
  notify (ClientError message) p.

(** [client.on('disconnected', ...)], given what [client.destroy()]
    answers. *)
Definition onDisconnected (destroy : result unit) (reason : string) (p : Process) : Process :=
  let p1 := notify (Disconnected reason) p in
  let p2 := match destroy with
            | Ok _ => notify Destroyed p1
            | Throw e => notify (DestroyFailed e) p1
            end in
  exit 0 (notify Restarting (notify (Waited 2000) p2)).

(** [client.initialize().catch(...)], given what [initialize] answers. *)
Definition start (initialize : result unit) (p : Process) : Process :=
  match initialize with
  | Ok _ => p
  | Throw e => exit 1 (notify (InitFailed e) p)
  end.

(** The times at which a code was displayed. *)
Fixpoint shownTimes (ns : list notice) : list Z :=
  match ns with
  | [] => []
  | QrShown _ now :: rest => now :: shownTimes rest
  | _ :: rest => shownTimes rest
  end.

(** Each time is more than 3000 ms after the one before it, [prev] for
    the first. *)
Fixpoint spaced (prev : Z) (times : list Z) : Prop :=
  match times with
  | [] => True
  | t :: rest => (3000 < t - prev)%Z /\ spaced t rest
  end.

End Lifecycle.

(** ** Vocabulary for the further properties *)

(** The code unit is the space. *)
Definition blank (c : ascii) : bool := (code c =? 32)%N.

(** The value holds no number that is not finite, at any depth. *)
Fixpoint finite (j : json) : bool :=
  match j with
  | JAtom (AInf _) => false
  | JAtom _ => true
  | JArr items => forallb finite items
  | JObj members => forallb (fun '(_, v) => finite v) members
  end.

(** The element is [null] once its array was written back: [null] itself
    or a number that is not finite. *)
Definition reads_null (x : json) : bool :=
  match x with
  | JAtom ANull | JAtom (AInf _) => true
  | _ => false
  end.

Definition is_fetch (e : event) : bool :=
  match e with Fetch _ _ => true | _ => false end.

Definition is_pause (e : event) : bool :=
  match e with Pause ms => (ms =? 500)%Z | _ => false end.

(** How many fetches and how many pauses of 500 ms a trace holds. *)
Definition fetches (t : list event) : nat := length (List.filter is_fetch t).
Definition pauses (t : list event) : nat := length (List.filter is_pause t).

(** A step that neither fetches nor pauses. *)
Definition calm {A} (c : M A) : Prop :=
  forall w, fetches (trace (snd (c w))) = fetches (trace w)
            /\ pauses (trace (snd (c w))) = pauses (trace w).

(** The conversations of a listing that the group gate lets through. *)
Definition synced (env : Env) (chats : list Chat) : list Chat :=
  List.filter (fun chat => negb (skipped env chat)) chats.

(** The fetches of a trace, in the order they were issued. *)
Definition fetched (t : list event) : list event := List.filter is_fetch t.

(** A step that issues no fetch. *)
Definition fetchless {A} (c : M A) : Prop :=
  forall w, fetched (trace (snd (c w))) = fetched (trace w).

(** The fetch of the history of [chat] with [options]. *)
Definition fetch_of (options : FetchOptions) (chat : Chat) : event :=
  Fetch (chat_serialized chat) options.

(** The sender the viewer shows for a record: [You] when [isSentByMe] is
    truthy, else the author. *)
Definition sender_of (m : json) : Viewer.sender :=
  if js_truthy (Viewer.field "isSentByMe" m) then Viewer.You
  else Viewer.Them (Viewer.field "author" m).

(** The media label the viewer shows for a record: none unless [hasMedia]
    is truthy; the media type when it is a non-empty string, MEDIA
    otherwise; the view-once mark when [isViewOnce] is truthy. *)
Definition label_of (m : json) : option Viewer.label :=
  if js_truthy (Viewer.field "hasMedia" m) then
    Some {| Viewer.label_type :=
              match Viewer.field "mediaType" m with
              | Some (JAtom (AStr s)) => if is_empty s then None else Some s
              | _ => None
              end;
            Viewer.label_viewOnce := js_truthy (Viewer.field "isViewOnce" m) |}
  else None.

(** The first two lines of the entry of a record: number and time stamp,
    sender. *)
Definition opening (number : nat) (m : json) : list Viewer.output :=
  [Viewer.EntryTime number (Viewer.field "timestamp" m); Viewer.EntrySender (sender_of m)].

(** The four lines of the entry of a record. *)
Definition entry (number : nat) (m : json) : list Viewer.output :=
  opening number m ++ [Viewer.EntryText (Viewer.field "body" m) (label_of m); Viewer.EntryRule].

(** The lines the viewer prints for the records of a log, numbered from
    [number]. *)
Fixpoint entries (number : nat) (items : list json) : list Viewer.output :=
  match items with
  | [] => []
  | m :: rest => entry number m ++ entries (S number) rest
  end.

(** The media type is one [toUpperCase] can be called on, or none. *)
Definition upper_ok (v : option json) : bool :=
  match v with
  | None => true
  | Some (JAtom ANull) => true
  | Some (JAtom (AStr _)) => true
  | Some _ => false
  end.

(** The entry of the record can be begun: the record is not [null], its
    time stamp converts to a primitive, so does its author unless the record
    was sent by the user, and its media type, when it has media, is a string
    or absent. *)
Definition opens (m : json) : bool :=
  match m with
  | JAtom ANull => false
  | _ =>
      Viewer.coerces (Viewer.field "timestamp" m)
      && (js_truthy (Viewer.field "isSentByMe" m) || Viewer.coerces (Viewer.field "author" m))
      && (negb (js_truthy (Viewer.field "hasMedia" m))
          || upper_ok (Viewer.field "mediaType" m))
  end.

(** The entry of the record can be printed whole: it can be begun and the
    body converts to a primitive. *)
Definition sound (m : json) : bool :=
  opens m && Viewer.coerces (Viewer.field "body" m).

(** What the viewer prints of the entry of a record that is not sound:
    its first two lines when it can be begun, nothing otherwise. *)
Definition begun (number : nat) (m : json) : list Viewer.output :=
  if opens m then opening number m else [].

(** The numbered menu of the viewer. *)
Fixpoint menu (number : nat) (folders : list string) : list Viewer.output :=
  match folders with
  | [] => []
  | folder :: rest => Viewer.ChatItem number folder :: menu (S number) rest
  end.

Definition is_close (o : Viewer.output) : bool :=
  match o with Viewer.Close => true | _ => false end.

(** How often [rl.close()] was called. *)
Definition closes (out : list Viewer.output) : nat := length (List.filter is_close out).

(** Every record can be printed by the viewer. *)
Definition all_printable (items : list json) : Prop :=
  Forall (fun m => sound m = true) items.

(** * Properties *)

(** ** Sanitising *)

Section Sanitize.

Lemma underscore_safe : safe_char "_"%char = true.
Proof. reflexivity. Qed.

Lemma space_not_replaced c : is_space c = true -> safe_char c = true -> code c = 32%N.
Proof.
  unfold is_space, safe_char, between. intros Hs Hc.
  destruct (code c =? 32)%N eqn:E32; [ now apply N.eqb_eq |].
  exfalso.
  repeat match goal with
         | H : context [(?a <=? ?b)%N] |- _ =>
             destruct (N.leb_spec a b); simpl in H
         | H : context [(?a =? ?b)%N] |- _ =>
             destruct (N.eqb_spec a b); simpl in H
         end; try discriminate; lia.
Qed.

Lemma replace_unsafe_safe s : all_chars safe_char (replace_unsafe s) = true.
Proof.
  induction s as [| c t IH]; simpl; [ reflexivity |].
  rewrite IH, andb_true_r.
  destruct (safe_char c) eqn:E; [ exact E | exact underscore_safe ].
Qed.

Lemma trim_start_all p s : all_chars p s = true -> all_chars p (trim_start s) = true.
Proof.
  induction s as [| c t IH]; simpl; [ reflexivity |].
  intros H. destruct (is_space c); [| exact H ].
  apply IH. now apply andb_true_iff in H as [_ H].
Qed.

Lemma trim_end_all p s : all_chars p s = true -> all_chars p (trim_end s) = true.
Proof.
  induction s as [| c t IH]; simpl; [ reflexivity |].
  intros H. apply andb_true_iff in H as [Hc Ht].
  specialize (IH Ht).
  destruct (trim_end t) as [| c' t'].
  - destruct (is_space c); simpl; [ reflexivity | now rewrite Hc ].
  - change (p c && all_chars p (String c' t') = true). now rewrite Hc, IH.
Qed.

Lemma trim_start_first s : is_space_opt (first_char (trim_start s)) = false.
Proof.
  induction s as [| c t IH]; simpl; [ reflexivity |].
  destruct (is_space c) eqn:E; [ exact IH | simpl; exact E ].
Qed.

Lemma trim_end_first s :
  is_space_opt (first_char s) = false -> is_space_opt (first_char (trim_end s)) = false.
Proof.
  destruct s as [| c t]; simpl; [ reflexivity |].
  intros H. destruct (trim_end t); [| exact H ].
  now rewrite H.
Qed.

Lemma trim_end_last s : is_space_opt (last_char (trim_end s)) = false.
Proof.
  induction s as [| c t IH]; simpl; [ reflexivity |].
  destruct (trim_end t) as [| c' t'] eqn:E.
  - destruct (is_space c) eqn:Ec; simpl; [ reflexivity | exact Ec ].
  - exact IH.
Qed.

Lemma trim_trimmed s : trimmed (trim s) = true.
Proof.
  unfold trimmed, trim.
  rewrite trim_end_last, trim_end_first; [ reflexivity | apply trim_start_first ].
Qed.

Lemma sanitize_safe name : all_chars safe_char (sanitize name) = true.
Proof. apply trim_end_all, trim_start_all, replace_unsafe_safe. Qed.

Lemma sanitize_trimmed name : trimmed (sanitize name) = true.
Proof. apply trim_trimmed. Qed.

(** Every code unit outside the class becomes an underscore, the others
    stay: the replacement is a letter-to-letter map. *)
Lemma replace_unsafe_length s : String.length (replace_unsafe s) = String.length s.
Proof. induction s as [| c t IH]; simpl; [ reflexivity | now rewrite IH ]. Qed.

Lemma replace_unsafe_get s : forall i c,
  String.get i s = Some c ->
  String.get i (replace_unsafe s) = Some (if safe_char c then c else "_"%char).
Proof.
  induction s as [| x t IH]; intros i c; [ discriminate |].
  destruct i as [| i]; cbn [String.get replace_unsafe].
  - now intros [= ->].
  - apply IH.
Qed.

Lemma replace_unsafe_replaced s : replaced s (replace_unsafe s).
Proof. split; [ apply replace_unsafe_length | apply replace_unsafe_get ]. Qed.

(** What [trim] takes off is white space. *)
Lemma trim_start_split s :
  exists lead, s = (lead ++ trim_start s)%string /\ all_chars is_space lead = true.
Proof.
  induction s as [| c t IH]; [ now exists "" |].
  cbn [trim_start]. destruct (is_space c) eqn:Hc.
  - destruct IH as (lead & Ht & Hlead). exists (String c lead). split.
    + change (String c t = String c (lead ++ trim_start t)%string). now rewrite <- Ht.
    + cbn [all_chars]. now rewrite Hc, Hlead.
  - now exists "".
Qed.

Lemma trim_end_split s :
  exists trail, s = (trim_end s ++ trail)%string /\ all_chars is_space trail = true.
Proof.
  induction s as [| c t IH]; [ now exists "" |].
  destruct IH as (trail & Ht & Htrail).
  change (trim_end (String c t)) with
    (match trim_end t with
     | EmptyString => if is_space c then EmptyString else String c EmptyString
     | t' => String c t'
     end).
  destruct (trim_end t) as [| c' t'] eqn:E.
  - change (t = trail) in Ht. subst trail.
    destruct (is_space c) eqn:Hc.
    + exists (String c t). split; [ reflexivity |]. cbn [all_chars]. now rewrite Hc, Htrail.
    + exists t. now split.
  - exists trail. split; [| exact Htrail ].
    change (String c t = String c (String c' t' ++ trail)%string). now rewrite <- Ht.
Qed.

Lemma trim_stripped s : stripped s (trim s).
Proof.
  destruct (trim_start_split s) as (lead & Hs & Hlead).
  destruct (trim_end_split (trim_start s)) as (trail & Hmid & Htrail).
  exists lead, trail. fold (trim s) in Hmid.
  split; [ now rewrite <- Hmid | split; [ exact Hlead | split; [ exact Htrail |] ] ].
  apply trim_trimmed.
Qed.

Lemma sanitize_sanitized name : sanitized_from name (sanitize name).
Proof.
  exists (replace_unsafe name). split; [ apply replace_unsafe_replaced | apply trim_stripped ].
Qed.

(** The group branch sanitises the subject, or the id in its place. *)
Lemma groupBase_subject chat : groupBase chat = sanitize (subject_or_id chat).
Proof.
  unfold groupBase, subject_or_id, or_else, truthy.
  destruct (chat_name chat) as [subject |]; [| reflexivity ].
  destruct subject as [| c t]; [ reflexivity |].
  cbn [is_empty negb option_map].
  now destruct (trim (String c t)).
Qed.

End Sanitize.

(** C8.  The sanitising expression maps ["O'Brien/Team #1"] to
    ["O_Brien_Team _1"]: the apostrophe, the slash and the [#] become
    underscores, nothing is left to trim; the Path Resolver returns that
    name for a contact and for a group so called. *)
Theorem sanitize_OBrien_Team :
  sanitize "O'Brien/Team #1" = "O_Brien_Team _1"
  /\ getChatFilenameBase (fun _ => Ok Sample.obrien) Sample.alice (Some "15551234567@c.us")
     = "O_Brien_Team _1"
  /\ getChatFilenameBase Sample.nobody Sample.team None = "O_Brien_Team _1".
Proof. repeat split; reflexivity. Qed.

(** The claim of C4 as worded fails on the fallback of a direct
    conversation: the contact lookup throws, the sender address is
    ["15551234567:12@c.us"], and the name returned is ["15551234567:12"],
    colon included. *)
Lemma fallback_name_not_sanitized : ~ always_sanitized.
Proof.
  intros H.
  destruct (H Sample.nobody Sample.alice (Some "15551234567:12@c.us")) as [Hsafe _].
  vm_compute in Hsafe. discriminate.
Qed.

(** C4, amended.  The Path Resolver returns a name in every case.  For a
    group, and for a direct conversation whose contact is retrieved with a
    non-empty name, pushname or user, the name is the one chosen (the
    trimmed subject or the conversation id for a group, the first non-empty
    of name, pushname and user for a contact) with every code unit outside
    [[A-Za-z0-9_- ]] replaced by an underscore and the white space at its
    ends taken off: it holds only code units of that class and no white
    space at either end.  The fallbacks of a direct conversation are
    returned as they are: the raw conversation id when the contact has no
    name, and, when the lookup throws, the sender address before its [@]
    (else [chat.id.user]) or the raw conversation id when that is empty. *)
Theorem base_name_sanitized_or_raw
    (getContactById : string -> result Contact) (chat : Chat) (msgFrom : option string) :
  let base := getChatFilenameBase getContactById chat msgFrom in
  (chat_isGroup chat = true ->
     sanitized_from (subject_or_id chat) base
     /\ all_chars safe_char base = true /\ trimmed base = true)
  /\ (forall contact,
        chat_isGroup chat = false ->
        getContactById (chat_serialized chat) = Ok contact ->
        match contactName contact with
        | Some name =>
            if is_empty name then base = chat_serialized chat
            else sanitized_from name base
                 /\ all_chars safe_char base = true /\ trimmed base = true
        | None => base = chat_serialized chat
        end)
  /\ (forall e,
        chat_isGroup chat = false ->
        getContactById (chat_serialized chat) = Throw e ->
        base = phoneFallback chat msgFrom
        /\ (base = chat_serialized chat
            \/ Some base = option_map (before "@"%char) msgFrom
            \/ Some base = chat_user chat)).
Proof.
  unfold getChatFilenameBase. split; [| split ].
  - intros Hgroup. rewrite Hgroup, groupBase_subject.
    split; [ apply sanitize_sanitized | split; [ apply sanitize_safe | apply sanitize_trimmed ] ].
  - intros contact Hdirect Hcontact. rewrite Hdirect, Hcontact.
    unfold contactBase.
    destruct (contactName contact) as [n |]; [| reflexivity ].
    destruct (is_empty n); [ reflexivity |].
    split; [ apply sanitize_sanitized | split; [ apply sanitize_safe | apply sanitize_trimmed ] ].
  - intros e Hdirect Hthrown. rewrite Hdirect, Hthrown.
    split; [ reflexivity |]. unfold phoneFallback.
    destruct (truthy msgFrom).
    + destruct msgFrom as [from |]; simpl; [| now left ].
      destruct (is_empty (before "@" from)); [ now left | now right; left ].
    + destruct (chat_user chat) as [u |]; [| now left ].
      destruct (is_empty u); [ now left | now right; right ].
Qed.

Lemma base_name_sanitized_or_raw_witness :
  sanitized_from "O'Brien/Team #1" (getChatFilenameBase Sample.nobody Sample.team None)
  /\ getChatFilenameBase Sample.nobody Sample.alice (Some "15551234567:12@c.us")
     = phoneFallback Sample.alice (Some "15551234567:12@c.us").
Proof.
  split.
  - apply (base_name_sanitized_or_raw Sample.nobody Sample.team None). reflexivity.
  - apply (base_name_sanitized_or_raw Sample.nobody Sample.alice
             (Some "15551234567:12@c.us")) with (e := "contact lookup failed");
      reflexivity.
Defined.

(** ** Duplicate Filter *)

Lemma get_id_null : get_id JNull = Throw type_error_null.
Proof. reflexivity. Qed.

Lemma get_id_record m : m <> JNull -> get_id m = Ok (record_id m).
Proof. destruct m as [[] | |]; intros H; try reflexivity. now contradiction H. Qed.

Lemma id_is_not_null msgId m : id_is msgId m = true -> m <> JNull.
Proof. intros H ->. discriminate H. Qed.

Lemma json_null_dec (m : json) : {m = JNull} + {m <> JNull}.
Proof. destruct m as [[] | |]; (now left) || (right; discriminate). Qed.

(** [some] answers [true] exactly when a record has the id and the scan
    reaches it, and the scan stops at a [null]. *)
Lemma some_id_true msgId items :
  some_id msgId items = Ok true <->
  exists before m after,
    items = before ++ m :: after /\ id_is msgId m = true
    /\ Forall (fun x => x <> JNull) before.
Proof.
  induction items as [| x rest IH]; simpl.
  - split; [ discriminate |].
    intros (before & m & after & E & _). now destruct before.
  - destruct (json_null_dec x) as [-> | Hx].
    + simpl. split; [ discriminate |].
      intros (before & m & after & E & Hm & Hb).
      destruct before as [| b before]; injection E as <- E.
      * discriminate Hm.
      * now inversion Hb.
    + rewrite (get_id_record x Hx).
      fold (id_is msgId x).
      destruct (id_is msgId x) eqn:Ex.
      * split; [| reflexivity ]. intros _.
        exists [], x, rest. repeat split; [ exact Ex | constructor ].
      * rewrite IH. split.
        -- intros (before & m & after & -> & Hm & Hb).
           exists (x :: before), m, after. repeat split; [ exact Hm |].
           now constructor.
        -- intros (before & m & after & E & Hm & Hb).
           destruct before as [| b before]; injection E as <- E.
           ++ congruence.
           ++ exists before, m, after. repeat split; [ exact E | exact Hm |].
              now inversion Hb.
Qed.

(** On an array free of [null], [some] is the plain search. *)
Lemma some_id_records msgId items :
  Forall (fun x => x <> JNull) items ->
  some_id msgId items = Ok (existsb (id_is msgId) items).
Proof.
  induction 1 as [| x rest Hx _ IH]; simpl; [ reflexivity |].
  rewrite (get_id_record x Hx). fold (id_is msgId x).
  destruct (id_is msgId x); [ reflexivity | exact IH ].
Qed.

(** C5 as worded fails on a log whose first element is [null]: the record
    after it has the id, yet the scan throws on the [null] and the filter
    answers [false]. *)
Lemma duplicate_behind_null_missed : ~ duplicate_iff_recorded.
Proof.
  intros H.
  pose (log := [JNull; JObj [("id", JStr "A1")]]).
  destruct (H {[ "messages.json" := Json (DArr log) ]} "messages.json" "A1") as [_ Hback].
  assert (Hdup : checkDuplicate {[ "messages.json" := Json (DArr log) ]} "messages.json" "A1" = true).
  { apply Hback. exists log. split; [ apply lookup_singleton_eq |].
    exists (JObj [("id", JStr "A1")]). split; [| reflexivity ].
    right. left. }
  vm_compute in Hdup. discriminate.
Qed.

(** C5, amended.  [checkDuplicate] answers [true] exactly when the file
    exists, parses as a JSON array, and some record of it has the id with no
    [null] element before it; it answers [false] for an absent file, for one
    that does not parse (the empty file among them), and for one that holds
    a JSON value other than an array. *)
Theorem checkDuplicate_spec (fs : gmap string file) (path msgId : string) :
  (checkDuplicate fs path msgId = true <->
   exists items, fs !! path = Some (Json (DArr items))
     /\ exists before m after,
          items = before ++ m :: after /\ id_is msgId m = true
          /\ Forall (fun x => x <> JNull) before)
  /\ checkDuplicate (delete path fs) path msgId = false
  /\ (forall content, checkDuplicate (<[path := Raw content]> fs) path msgId = false)
  /\ (forall a, checkDuplicate (<[path := Json (DAtom a)]> fs) path msgId = false).
Proof.
  repeat split.
  - unfold checkDuplicate.
    destruct (fs !! path) as [[content | [a | items]] |] eqn:E; simpl;
      try discriminate.
    + destruct a; discriminate.
    + intros H. exists items. split; [ reflexivity |].
      apply some_id_true.
      destruct (some_id msgId items) as [[] |]; congruence.
  - intros (items & E & H). unfold checkDuplicate. rewrite E. simpl.
    apply some_id_true in H. now rewrite H.
  - unfold checkDuplicate. now rewrite lookup_delete_eq.
  - intros content. unfold checkDuplicate. now rewrite lookup_insert_eq.
  - intros a. unfold checkDuplicate. rewrite lookup_insert_eq. simpl.
    now destruct a.
Qed.

(** ** Archival Writer *)

Lemma files_emit e w : files (emit e w) = files w.
Proof. reflexivity. Qed.

Lemma files_store path f w : files (store path f w) = <[path := f]> (files w).
Proof. reflexivity. Qed.

Lemma loadData_array fs path :
  array_or_missing fs path -> loadData fs path = DArr (stored_items fs path).
Proof.
  unfold array_or_missing, loadData, stored_items. intros H.
  destruct (fs !! path) as [[content | [a | items]] |]; try reflexivity.
  now contradiction (H a).
Qed.

Lemma stored_items_insert fs path items :
  stored_items (<[path := Json (DArr items)]> fs) path = items.
Proof. unfold stored_items. now rewrite lookup_insert_eq. Qed.

Lemma array_or_missing_insert fs path items :
  array_or_missing (<[path := Json (DArr items)]> fs) path.
Proof. intros a. rewrite lookup_insert_eq. discriminate. Qed.

(** The guard of [appendToJson] on an array and a record that is an object. *)
Lemma latest_is_array items members :
  latest_is (DArr items) (JObj members) =
    match last items with
    | Some (JAtom ANull) => Throw type_error_null
    | Some m => Ok (ids_equal m (JObj members))
    | None => Ok false
    end.
Proof. cbn [latest_is]. destruct (last items) as [[[] | |] |]; reflexivity. Qed.

(** A record whose id the latest element does not have is appended. *)
Lemma appendToJson_appends w path members :
  array_or_missing (files w) path ->
  (forall m, last (stored_items (files w) path) = Some m ->
             m <> JNull /\ ids_equal m (JObj members) = false) ->
  appendToJson path (JObj members) w
  = (Ok tt, store path
              (Json (DArr (stringified <$> (stored_items (files w) path ++ [JObj members])))) w).
Proof.
  intros Hfile Hlatest. unfold appendToJson.
  rewrite (loadData_array _ _ Hfile), latest_is_array.
  destruct (last (stored_items (files w) path)) as [m |]; [| reflexivity ].
  destruct (Hlatest m eq_refl) as [Hm Hid]. rewrite Hid.
  destruct m as [[] | |]; try reflexivity. now contradiction Hm.
Qed.

(** The records the driver writes carry strings and booleans only: they
    are read back as they were written. *)
Lemma stringified_data msg iso : stringified (messageData msg iso) = messageData msg iso.
Proof. reflexivity. Qed.

Lemma stringified_records iso (kept : list Message) :
  stringified <$> (record_of iso <$> kept) = record_of iso <$> kept.
Proof.
  induction kept as [| msg kept IH]; [ reflexivity |].
  rewrite !fmap_cons, IH. reflexivity.
Qed.

(** The cases of [appendToJson] on a file that is absent, unparsable or a
    JSON array, for a record that is an object: a [null] at the end of the
    array makes the guard throw; a last element with the id of the record
    ends the call; otherwise the array is written back, the record at its
    end. *)
Lemma appendToJson_cases (w : World) (path : string) (members : list (string * json)) :
  array_or_missing (files w) path ->
  let record := JObj members in
  let items := stored_items (files w) path in
  appendToJson path record w =
    match last items with
    | Some (JAtom ANull) => (Throw type_error_null, w)
    | Some m =>
        if ids_equal m record then (Ok tt, w)
        else (Ok tt, store path (Json (DArr (stringified <$> (items ++ [record])))) w)
    | None => (Ok tt, store path (Json (DArr [stringified record])) w)
    end.
Proof.
  intros Hfile. cbv zeta. unfold appendToJson.
  rewrite (loadData_array _ _ Hfile), latest_is_array.
  destruct (last (stored_items (files w) path)) as [m |] eqn:Hlast.
  - destruct m as [[] | |]; try reflexivity;
      destruct (ids_equal _ (JObj members)); reflexivity.
  - apply last_None in Hlast. now rewrite Hlast.
Qed.

(** C6.  The claim fails on a log whose last element is [null], where the
    code misses what it sets out to do.  The log of the sample conversation
    holds the record A1 and a [null] after it; [appendToJson], the helper
    that appends safely, reads the [id] of the [null] outside its [try] and
    throws: the record A2 is not appended and nothing is written, where the
    claim has the array written back with the record at its end.
    [checkDuplicate] reads the same file and answers without throwing, and
    [processMessage] drops the message with an error line. *)
Theorem append_after_null_fails :
  let log := [JObj [("id", JStr "A1")]; JNull] in
  let w := {| files := {[ Sample.aliceLog := Json (DArr log) ]}; trace := [] |} in
  let msg := Sample.note Sample.alice "A2" in
  let record := messageData msg "2023-11-14T22:13:20.000Z" in
  appendToJson Sample.aliceLog record w = (Throw type_error_null, w)
  /\ checkDuplicate (files w) Sample.aliceLog "A2" = false
  /\ processMessage (Sample.provider None [Sample.alice] (fun _ => Ok [])) msg w
     = (Ok tt, emit (ProcessError type_error_null) w)
  /\ ~ append_unless_latest.
Proof.
  cbv zeta. split; [ reflexivity | split; [ reflexivity | split; [ reflexivity |] ] ].
  intros H.
  pose (w := {| files := {[ "messages.json" := Json (DArr [JNull]) ]}; trace := [] |}).
  assert (Hfile : array_or_missing (files w) "messages.json").
  { intros a. simpl. rewrite lookup_singleton_eq. discriminate. }
  specialize (H w "messages.json" [("id", JStr "A1")] Hfile).
  apply (f_equal (fun fs => fs !! "messages.json")) in H.
  vm_compute in H. discriminate.
Qed.

(** ** The log under a sequence of messages *)

Section Feed.

Variables (logFile filenameBase : string) (iso : Message -> string).

Local Abbreviation data := (record_of iso).
Local Abbreviation holds := (holds logFile iso).

Lemma record_id_data msg : record_id (data msg) = Some (JStr (msg_id msg)).
Proof. reflexivity. Qed.

Lemma id_is_data msgId msg : id_is msgId (data msg) = String.eqb (msg_id msg) msgId.
Proof. reflexivity. Qed.

Lemma data_not_null kept : Forall (fun x => x <> JNull) (data <$> kept).
Proof.
  induction kept as [| msg kept IH]; [ constructor |].
  rewrite fmap_cons. constructor; [ discriminate | exact IH ].
Qed.

Lemma existsb_id_is msgId kept :
  existsb (id_is msgId) (data <$> kept) = bool_decide (msgId ∈ msg_id <$> kept).
Proof.
  induction kept as [| msg kept IH]; [ reflexivity |].
  rewrite !fmap_cons. cbn [existsb]. rewrite id_is_data, IH.
  destruct (String.eqb_spec (msg_id msg) msgId) as [<- | Hne]; simpl.
  - symmetry. apply bool_decide_eq_true. left.
  - apply bool_decide_ext. rewrite elem_of_cons.
    split; [ now right | intros [E | Hin]; [ congruence | exact Hin ] ].
Qed.

Lemma checkDuplicate_holds kept w msgId :
  holds kept w ->
  checkDuplicate (files w) logFile msgId = bool_decide (msgId ∈ msg_id <$> kept).
Proof.
  intros [Hfile Hitems]. unfold checkDuplicate.
  unfold stored_items in Hitems.
  destruct (files w !! logFile) as [[content | [a | items]] |] eqn:E; simpl.
  - destruct kept; [ reflexivity | discriminate ].
  - now contradiction (Hfile a).
  - subst items. rewrite some_id_records by apply data_not_null.
    apply existsb_id_is.
  - destruct kept; [ reflexivity | discriminate ].
Qed.

Lemma append_holds kept w msg :
  holds kept w -> msg_id msg ∉ msg_id <$> kept ->
  exists w', appendToJson logFile (data msg) w = (Ok tt, w')
             /\ holds (kept ++ [msg]) w' /\ trace w' = trace w.
Proof.
  intros [Hfile Hitems] Hnew.
  eexists. split; [| split ].
  - apply (appendToJson_appends w logFile _ Hfile).
    rewrite Hitems. intros m Hlast.
    apply last_Some in Hlast as [front Hfront].
    destruct (fmap_app_inv _ _ _ _ Hfront) as (kfront & klast & -> & Hlast' & ->).
    destruct klast as [| latest [| ? ?]]; try discriminate Hlast'.
    injection Hlast' as ->. split; [ discriminate |].
    change (String.eqb (msg_id latest) (msg_id msg) = false).
    apply String.eqb_neq. intros Heq. apply Hnew.
    rewrite fmap_app, elem_of_app. right. rewrite <- Heq. left.
  - split; rewrite files_store.
    + apply array_or_missing_insert.
    + rewrite stored_items_insert, Hitems, !fmap_app, stringified_records. reflexivity.
  - reflexivity.
Qed.

Lemma saveLog_holds kept w msg :
  holds kept w ->
  exists w', saveLog logFile filenameBase (iso msg) msg w = (Ok tt, w')
             /\ holds (if bool_decide (msg_id msg ∈ msg_id <$> kept)
                       then kept else kept ++ [msg]) w'.
Proof.
  intros Hw. unfold saveLog. rewrite (checkDuplicate_holds kept w _ Hw).
  destruct (bool_decide_reflect (msg_id msg ∈ msg_id <$> kept)) as [Hin | Hnew].
  - now exists w.
  - destruct (append_holds kept w msg Hw Hnew) as (w' & E & Hw' & _).
    unfold bind. fold (data msg). rewrite E.
    eexists. split; [ reflexivity |]. exact Hw'.
Qed.

Lemma feed_holds msgs : forall kept w,
  holds kept w ->
  exists w', feed logFile filenameBase iso msgs w = (Ok tt, w')
             /\ holds (kept ++ first_seen (msg_id <$> kept) msgs) w'.
Proof.
  induction msgs as [| msg rest IH]; intros kept w Hw.
  - exists w. split; [ reflexivity |]. now rewrite app_nil_r.
  - destruct (saveLog_holds kept w msg Hw) as (w1 & E1 & Hw1).
    unfold feed. cbn [for_each first_seen]. unfold bind at 1. rewrite E1.
    destruct (bool_decide (msg_id msg ∈ msg_id <$> kept)).
    + exact (IH kept w1 Hw1).
    + destruct (IH (kept ++ [msg]) w1 Hw1) as (w' & E & Hw').
      exists w'. split; [ exact E |].
      rewrite fmap_app in Hw'. now rewrite <- app_assoc in Hw'.
Qed.

Lemma log_ids_holds kept w : holds kept w -> log_ids (files w) logFile = msg_id <$> kept.
Proof.
  intros [_ Hitems]. unfold log_ids. rewrite Hitems. clear Hitems.
  induction kept as [| msg kept IH]; [ reflexivity |].
  rewrite !fmap_cons. cbn [omap list_omap]. unfold record_key at 1.
  rewrite record_id_data. cbn. f_equal. exact IH.
Qed.

End Feed.

Lemma first_seen_ids msgs : forall seen,
  msg_id <$> first_seen seen msgs = filter (fun y => y ∉ seen) (nub (msg_id <$> msgs)).
Proof.
  induction msgs as [| msg rest IH]; intros seen; [ reflexivity |].
  cbn [first_seen fmap list_fmap nub].
  destruct (bool_decide_reflect (msg_id msg ∈ seen)) as [Hin | Hnew].
  - rewrite filter_cons_False by tauto.
    rewrite list_filter_filter. rewrite (IH seen).
    apply list_filter_iff. intros y. split; [| tauto ].
    intros Hy. split; [ exact Hy | congruence ].
  - rewrite filter_cons_True by exact Hnew.
    cbn [fmap list_fmap]. f_equal.
    rewrite list_filter_filter. rewrite (IH (seen ++ [msg_id msg])).
    apply list_filter_iff. intros y.
    rewrite not_elem_of_app, list_elem_of_singleton. tauto.
Qed.

Lemma filter_none_seen (ids : list string) : filter (fun y => y ∉ []) ids = ids.
Proof.
  induction ids as [| x rest IH]; [ reflexivity |].
  rewrite filter_cons_True by apply not_elem_of_nil. now f_equal.
Qed.

Lemma nub_NoDup ids : NoDup (nub ids).
Proof.
  induction ids as [| x rest IH]; cbn [nub]; constructor.
  - rewrite list_elem_of_filter. tauto.
  - now apply NoDup_filter.
Qed.

Lemma nub_elem ids x : x ∈ nub ids <-> x ∈ ids.
Proof.
  induction ids as [| y rest IH]; cbn [nub]; [ reflexivity |].
  rewrite !elem_of_cons, list_elem_of_filter, IH.
  destruct (decide (x = y)); tauto.
Qed.

Lemma NoDup_kept_then_new (old new : list string) :
  NoDup old -> NoDup new -> NoDup (old ++ filter (fun y => y ∉ old) new).
Proof.
  intros Hold Hnew. apply NoDup_app. split; [ exact Hold | split ].
  - intros x Hx Hx'. apply list_elem_of_filter in Hx' as [Hfresh _]. now apply Hfresh.
  - now apply NoDup_filter.
Qed.

(** C1.  Every sequence of messages fed through the duplicate check and the
    append leaves a log with one record per distinct id, in the order in
    which the ids were first seen.  From a log that is absent, unparsable
    or the empty array ([kept] empty) the log holds the record of the first
    message of each id of the sequence, in order of first occurrence; from
    a log this path wrote earlier for the messages [kept], those records
    stay in place and the records of the ids not yet there follow. *)
Theorem archive_keeps_first_of_each_id
    (logFile filenameBase : string) (iso : Message -> string)
    (kept msgs : list Message) (w : World) :
  holds logFile iso kept w ->
  NoDup (msg_id <$> kept) ->
  let done := feed logFile filenameBase iso msgs w in
  let ids := log_ids (files (snd done)) logFile in
  fst done = Ok tt
  /\ stored_items (files (snd done)) logFile
     = record_of iso <$> (kept ++ first_seen (msg_id <$> kept) msgs)
  /\ ids = (msg_id <$> kept)
           ++ filter (fun y => y ∉ msg_id <$> kept) (nub (msg_id <$> msgs))
  /\ (kept = [] -> ids = nub (msg_id <$> msgs))
  /\ NoDup ids
  /\ (forall msg, msg ∈ msgs -> msg_id msg ∈ ids).
Proof.
  intros Hw Hkept done ids.
  destruct (feed_holds logFile filenameBase iso msgs kept w Hw) as (w' & E & Hw').
  assert (Hids : ids = (msg_id <$> kept)
                       ++ filter (fun y => y ∉ msg_id <$> kept) (nub (msg_id <$> msgs))).
  { subst ids done. rewrite E. cbn [snd].
    rewrite (log_ids_holds _ _ _ _ Hw'), fmap_app, first_seen_ids. reflexivity. }
  subst done. rewrite E. cbn [fst snd].
  split; [ reflexivity |]. split; [ apply Hw' |]. split; [ exact Hids |].
  rewrite Hids. split; [| split ].
  - intros ->. apply filter_none_seen.
  - apply NoDup_kept_then_new; [ exact Hkept | apply nub_NoDup ].
  - intros msg Hmsg. rewrite elem_of_app, list_elem_of_filter, nub_elem.
    destruct (decide (msg_id msg ∈ msg_id <$> kept)) as [Hin | Hnew]; [ now left |].
    right. split; [ exact Hnew |]. now apply list_elem_of_fmap_2.
Qed.

Lemma archive_first_of_each_id_witness :
  log_ids (files (snd (feed Sample.aliceLog "15551234567" (fun _ => "2023-11-14T22:13:20.000Z")
                         [Sample.note Sample.alice "1"; Sample.note Sample.alice "2";
                          Sample.note Sample.alice "1"] Sample.blank)))
          Sample.aliceLog
  = nub ["1"; "2"; "1"].
Proof.
  refine (proj1 (proj2 (proj2 (proj2
            (archive_keeps_first_of_each_id _ _ _ [] _ Sample.blank _ _)))) eq_refl).
  - split.
    + intros a. simpl. rewrite lookup_empty. discriminate.
    + reflexivity.
  - constructor.
Defined.

(** ** Sync Driver *)

Lemma processMessage_ok env msg w : fst (processMessage env msg w) = Ok tt.
Proof.
  unfold processMessage, try_catch.
  destruct (bind _ _ w) as [[[] | e] w']; reflexivity.
Qed.

Lemma earlier_processMessage_ok env msg w : fst (Earlier.processMessage env msg w) = Ok tt.
Proof.
  unfold Earlier.processMessage, try_catch.
  destruct (bind _ _ w) as [[[] | e] w']; reflexivity.
Qed.

Lemma for_each_ok {S A} (body : A -> Async S unit) (xs : list A) :
  (forall x w, x ∈ xs -> fst (body x w) = Ok tt) ->
  forall w, fst (for_each xs body w) = Ok tt.
Proof.
  induction xs as [| x rest IH]; intros Hbody w; [ reflexivity |].
  cbn [for_each]. unfold bind.
  pose proof (Hbody x w ltac:(left)) as Hx.
  destruct (body x w) as [[[] | e] w1]; [| discriminate Hx ].
  apply IH. intros y w' Hy. apply Hbody. now right.
Qed.

Lemma for_each_app {S A} (body : A -> Async S unit) (xs ys : list A) (w : S) :
  for_each (xs ++ ys) body w =
    match for_each xs body w with
    | (Ok _, w1) => for_each ys body w1
    | (Throw e, w1) => (Throw e, w1)
    end.
Proof.
  revert w. induction xs as [| x rest IH]; intros w; [ reflexivity |].
  cbn [for_each app]. unfold bind.
  destruct (body x w) as [[[] | e] w1]; [ apply IH | reflexivity ].
Qed.

Lemma syncChat_ok env limit chat w :
  fetchable env {| opt_limit := limit; opt_fromMe := Some true |} chat ->
  fst (syncChat env limit chat w) = Ok tt.
Proof.
  unfold syncChat. intros [Hskip | [msgs Hfetch]].
  - now rewrite Hskip.
  - destruct (skipped env chat); [ reflexivity |].
    unfold bind, say, lift. rewrite Hfetch.
    pose proof (for_each_ok (processMessage env) (rev msgs)
                  (fun x w' _ => processMessage_ok env x w')
                  (emit (Fetch (chat_serialized chat)
                               {| opt_limit := limit; opt_fromMe := Some true |}) w)) as Hloop.
    destruct (for_each (rev msgs) (processMessage env) _) as [[[] | e] w1];
      [ reflexivity | discriminate Hloop ].
Qed.

Lemma earlier_syncChat_ok env chat w :
  fetchable env (earlierFetchOptions (config env)) chat ->
  fst (Earlier.syncChat env chat w) = Ok tt.
Proof.
  unfold Earlier.syncChat. intros [Hskip | [msgs Hfetch]].
  - now rewrite Hskip.
  - destruct (skipped env chat); [ reflexivity |].
    unfold bind, say, lift. fold (earlierFetchOptions (config env)). rewrite Hfetch.
    pose proof (for_each_ok (Earlier.processMessage env) msgs
                  (fun x w' _ => earlier_processMessage_ok env x w')
                  (emit (Fetch (chat_serialized chat) (earlierFetchOptions (config env))) w))
      as Hloop.
    destruct (for_each msgs (Earlier.processMessage env) _) as [[[] | e] w1];
      [ reflexivity | discriminate Hloop ].
Qed.

(** A failed fetch ends the turn of its conversation with the exception. *)
Lemma syncChat_throws env limit chat e w :
  skipped env chat = false ->
  fetchMessages env chat {| opt_limit := limit; opt_fromMe := Some true |} = Throw e ->
  syncChat env limit chat w
  = (Throw e, emit (Fetch (chat_serialized chat)
                          {| opt_limit := limit; opt_fromMe := Some true |}) w).
Proof.
  intros Hskip Hfetch. unfold syncChat. rewrite Hskip.
  unfold bind, say, lift. now rewrite Hfetch.
Qed.

Lemma earlier_syncChat_throws env chat e w :
  skipped env chat = false ->
  fetchMessages env chat (earlierFetchOptions (config env)) = Throw e ->
  Earlier.syncChat env chat w
  = (Throw e, emit (Fetch (chat_serialized chat) (earlierFetchOptions (config env))) w).
Proof.
  intros Hskip Hfetch. unfold Earlier.syncChat. rewrite Hskip.
  unfold bind, say, lift. fold (earlierFetchOptions (config env)). now rewrite Hfetch.
Qed.

(** The loop over conversations stops at the first one that throws. *)
Lemma for_each_stops {S A} (body : A -> Async S unit) (xs ys : list A) (x : A) (w : S) e :
  (forall y w', y ∈ xs -> fst (body y w') = Ok tt) ->
  (forall w', body x w' = (Throw e, snd (body x w'))) ->
  for_each (xs ++ x :: ys) body w
  = (Throw e, snd (body x (snd (for_each xs body w)))).
Proof.
  intros Hxs Hx. rewrite for_each_app.
  pose proof (for_each_ok body xs Hxs w) as Hok.
  destruct (for_each xs body w) as [[[] | e'] w1]; [| discriminate Hok ].
  cbn [for_each snd]. unfold bind. rewrite Hx. reflexivity.
Qed.

(** C3 as worded fails: with two conversations of which the first cannot be
    fetched, the run logs the error and ends; the second conversation is
    never fetched. *)
Lemma failed_fetch_ends_sync : ~ sync_survives_failed_fetch.
Proof.
  intros H.
  destruct (H Sample.first_fetch_fails Sample.blank [] Sample.alice [Sample.bob]
              "fetch failed" eq_refl eq_refl eq_refl) as [_ Hlater].
  specialize (Hlater Sample.bob ltac:(left) eq_refl).
  assert (E : trace (snd (syncRecentMessages Sample.first_fetch_fails Sample.blank))
              = [FoundChats 2 (JNum 99999);
                 Fetch "15551234567@c.us" {| opt_limit := JNum 99999; opt_fromMe := Some true |};
                 SyncError "fetch failed"]) by (vm_compute; reflexivity).
  rewrite E in Hlater.
  repeat (apply elem_of_cons in Hlater as [Hlater | Hlater]; [ discriminate Hlater |]).
  now apply elem_of_nil in Hlater.
Qed.

(** C3, amended.  In both variants of the driver, when fetching the history
    of a conversation fails, the error is logged and the sync ends there:
    the world it leaves is the one reached after the conversations before
    it, plus the failed fetch and the logged error; no conversation later in
    the enumeration is fetched or archived. *)
Theorem sync_stops_at_failed_fetch
    (env : Env) (w : World) (earlier later : list Chat) (chat : Chat) (e : string) :
  getChats env = Ok (earlier ++ chat :: later) ->
  skipped env chat = false ->
  (Forall (fetchable env (fetchOptions (config env))) earlier ->
   fetchMessages env chat (fetchOptions (config env)) = Throw e ->
   let limit := syncLimit (config env) in
   let started := emit (FoundChats (length (earlier ++ chat :: later)) limit) w in
   let reached := snd (for_each earlier (syncChat env limit) started) in
   syncRecentMessages env w
   = (Ok tt, emit (SyncError e)
               (emit (Fetch (chat_serialized chat) (fetchOptions (config env))) reached)))
  /\ (Forall (fetchable env (earlierFetchOptions (config env))) earlier ->
      fetchMessages env chat (earlierFetchOptions (config env)) = Throw e ->
      let limit := Earlier.syncLimit (config env) in
      let started := emit (FoundChats (length (earlier ++ chat :: later)) limit) w in
      let reached := snd (for_each earlier (Earlier.syncChat env) started) in
      Earlier.syncRecentMessages env w
      = (Ok tt, emit (SyncError e)
                  (emit (Fetch (chat_serialized chat) (earlierFetchOptions (config env)))
                        reached))).
Proof.
  intros Hchats Hskip. split; intros Hearlier Hfetch limit started reached.
  - unfold syncRecentMessages, try_catch.
    unfold bind at 1. unfold lift. rewrite Hchats.
    unfold bind at 1. unfold say at 1. fold limit. fold started.
    rewrite (for_each_stops (syncChat env limit) earlier later chat started e).
    + rewrite (syncChat_throws env limit chat e _ Hskip Hfetch). reflexivity.
    + intros y w' Hy. apply syncChat_ok.
      rewrite Forall_forall in Hearlier. now apply Hearlier.
    + intros w'. now rewrite (syncChat_throws env limit chat e _ Hskip Hfetch).
  - unfold Earlier.syncRecentMessages, try_catch.
    unfold bind at 1. unfold lift. rewrite Hchats.
    unfold bind at 1. unfold say at 1. fold limit. fold started.
    rewrite (for_each_stops (Earlier.syncChat env) earlier later chat started e).
    + rewrite (earlier_syncChat_throws env chat e _ Hskip Hfetch). reflexivity.
    + intros y w' Hy. apply earlier_syncChat_ok.
      rewrite Forall_forall in Hearlier. now apply Hearlier.
    + intros w'. now rewrite (earlier_syncChat_throws env chat e _ Hskip Hfetch).
Qed.

Lemma sync_stops_at_failed_fetch_witness :
  syncRecentMessages Sample.first_fetch_fails Sample.blank
  = (Ok tt, {| files := ∅;
               trace := [FoundChats 2 (JNum 99999);
                         Fetch "15551234567@c.us"
                               {| opt_limit := JNum 99999; opt_fromMe := Some true |};
                         SyncError "fetch failed"] |}).
Proof.
  refine (proj1 (sync_stops_at_failed_fetch Sample.first_fetch_fails Sample.blank
                   [] [Sample.bob] Sample.alice "fetch failed" _ _) _ _).
  - reflexivity.
  - reflexivity.
  - constructor.
  - reflexivity.
Defined.

(** C2 on the earlier variant of the driver, at a provider that answers
    newest first with ids 3, 2, 1: the messages are replayed as fetched and
    the log reads 3, 2, 1.  The current variant reverses them first and its
    log reads 1, 2, 3. *)
Theorem earlier_sync_keeps_provider_order :
  log_ids (files (snd (Earlier.syncRecentMessages Sample.newest_first Sample.blank)))
          Sample.aliceLog = ["3"; "2"; "1"]
  /\ log_ids (files (snd (syncRecentMessages Sample.newest_first Sample.blank)))
             Sample.aliceLog = ["1"; "2"; "3"].
Proof. split; vm_compute; reflexivity. Qed.

(** *** The fetches of a sync *)

Lemma fetched_emit e w :
  fetched (trace (emit e w)) = fetched (trace w) ++ (if is_fetch e then [e] else []).
Proof. unfold fetched. cbn [emit trace]. rewrite List.filter_app. cbn. now destruct (is_fetch e). Qed.

Lemma fetchless_ret {A} (a : A) : fetchless (ret a).
Proof. intros w. reflexivity. Qed.

Lemma fetchless_lift {A} (r : result A) : fetchless (lift r).
Proof. intros w. reflexivity. Qed.

Lemma fetchless_bind {A B} (c : M A) (k : A -> M B) :
  fetchless c -> (forall a, fetchless (k a)) -> fetchless (bind c k).
Proof.
  intros Hc Hk w. unfold bind. specialize (Hc w).
  destruct (c w) as [[a | e] w1]; cbn [snd] in *; [| exact Hc ].
  now rewrite (Hk a w1).
Qed.

Lemma fetchless_try_catch {A} (body : M A) (handler : string -> M A) :
  fetchless body -> (forall e, fetchless (handler e)) -> fetchless (try_catch body handler).
Proof.
  intros Hb Hh w. unfold try_catch. specialize (Hb w).
  destruct (body w) as [[a | e] w1]; cbn [snd] in *; [ exact Hb |].
  now rewrite (Hh e w1).
Qed.

Lemma fetchless_say e : is_fetch e = false -> fetchless (say e).
Proof.
  intros He w. unfold say. cbn [snd]. rewrite fetched_emit, He. apply app_nil_r.
Qed.

Lemma fetchless_when b (c : M unit) : fetchless c -> fetchless (when b c).
Proof. intros Hc. destruct b; [ exact Hc | apply fetchless_ret ]. Qed.

Lemma fetchless_appendToJson path newData : fetchless (appendToJson path newData).
Proof.
  intros w. unfold appendToJson.
  destruct (latest_is _ _) as [[] | e]; try reflexivity.
  unfold pushAndWrite. now destruct (loadData (files w) path).
Qed.

Lemma fetchless_saveLog logFile base iso msg : fetchless (saveLog logFile base iso msg).
Proof.
  intros w. unfold saveLog.
  destruct (checkDuplicate (files w) logFile (msg_id msg)); [ reflexivity |].
  apply fetchless_bind; [ apply fetchless_appendToJson | intros _; now apply fetchless_say ].
Qed.

Lemma fetchless_saveMedia env mediaDir base msg : fetchless (saveMedia env mediaDir base msg).
Proof.
  unfold saveMedia. apply fetchless_bind.
  - apply fetchless_when. now apply fetchless_say.
  - intros _. apply fetchless_try_catch; [| intros e; now apply fetchless_say ].
    apply fetchless_bind; [ apply fetchless_lift |].
    intros [media |]; [| apply fetchless_ret ].
    apply fetchless_bind; [ intros w; reflexivity |].
    intros [|]; [ apply fetchless_ret |].
    apply fetchless_bind; [ intros w; reflexivity | intros _; now apply fetchless_say ].
Qed.

Lemma fetchless_archive env base msg : fetchless (archive env base msg).
Proof.
  unfold archive. apply fetchless_bind; [ apply fetchless_lift |]. intros iso.
  apply fetchless_bind.
  - apply fetchless_when, fetchless_saveLog.
  - intros _. apply fetchless_when, fetchless_saveMedia.
Qed.

Lemma fetchless_processMessage env msg : fetchless (processMessage env msg).
Proof.
  unfold processMessage. apply fetchless_try_catch; [| intros e; now apply fetchless_say ].
  apply fetchless_bind; [ apply fetchless_lift |]. intros chat.
  destruct (skipped env chat); [ apply fetchless_ret | apply fetchless_archive ].
Qed.

Lemma fetchless_earlier_processMessage env msg : fetchless (Earlier.processMessage env msg).
Proof.
  unfold Earlier.processMessage.
  apply fetchless_try_catch; [| intros e; now apply fetchless_say ].
  apply fetchless_bind; [ apply fetchless_lift |]. intros chat.
  destruct (skipped env chat); [ apply fetchless_ret |].
  apply fetchless_bind; [ apply fetchless_lift | intros base; apply fetchless_archive ].
Qed.

Lemma fetchless_for_each {A} (body : A -> M unit) (xs : list A) :
  (forall x, fetchless (body x)) -> fetchless (for_each xs body).
Proof.
  intros Hbody. induction xs as [| x rest IH]; [ apply fetchless_ret |].
  cbn [for_each]. apply fetchless_bind; [ apply Hbody | intros _; exact IH ].
Qed.

(** One turn of the loop issues the fetch of its conversation, with the
    options of the variant, unless the conversation is skipped. *)
Lemma syncChat_fetches env limit chat w :
  let options := {| opt_limit := limit; opt_fromMe := Some true |} in
  exists r w',
    syncChat env limit chat w = (r, w')
    /\ fetched (trace w')
       = fetched (trace w) ++ (if skipped env chat then [] else [fetch_of options chat])
    /\ (fetchable env options chat -> r = Ok tt).
Proof.
  intros options. unfold syncChat. fold options.
  destruct (skipped env chat) eqn:Hskip.
  - exists (Ok tt), w. now rewrite app_nil_r.
  - unfold bind at 1. unfold say at 1. unfold bind at 1. unfold lift.
    destruct (fetchMessages env chat options) as [msgs | e] eqn:Hfetch.
    + unfold bind. set (w0 := emit _ w).
      pose proof (fetchless_for_each (processMessage env) (rev msgs)
                    (fetchless_processMessage env) w0) as Hquiet.
      pose proof (for_each_ok (processMessage env) (rev msgs)
                    (fun x w1 _ => processMessage_ok env x w1) w0) as Hok.
      destruct (for_each (rev msgs) (processMessage env) w0) as [[[] | e] w1];
        [| discriminate Hok ].
      cbn [snd] in Hquiet. unfold say. eexists _, _. split; [ reflexivity |].
      split; [| reflexivity ].
      rewrite fetched_emit, Hquiet. subst w0. rewrite fetched_emit.
      cbn [is_fetch]. now rewrite app_nil_r.
    + eexists _, _. split; [ reflexivity |]. split.
      * now rewrite fetched_emit.
      * intros [Hskipped | [msgs Hmsgs]]; congruence.
Qed.

Lemma earlier_syncChat_fetches env chat w :
  let options := {| opt_limit := Earlier.syncLimit (config env); opt_fromMe := None |} in
  exists r w',
    Earlier.syncChat env chat w = (r, w')
    /\ fetched (trace w')
       = fetched (trace w) ++ (if skipped env chat then [] else [fetch_of options chat])
    /\ (fetchable env options chat -> r = Ok tt).
Proof.
  intros options. unfold Earlier.syncChat. fold options.
  destruct (skipped env chat) eqn:Hskip.
  - exists (Ok tt), w. now rewrite app_nil_r.
  - unfold bind at 1. unfold say at 1. unfold bind at 1. unfold lift.
    destruct (fetchMessages env chat options) as [msgs | e] eqn:Hfetch.
    + unfold bind. set (w0 := emit _ w).
      pose proof (fetchless_for_each (Earlier.processMessage env) msgs
                    (fetchless_earlier_processMessage env) w0) as Hquiet.
      pose proof (for_each_ok (Earlier.processMessage env) msgs
                    (fun x w1 _ => earlier_processMessage_ok env x w1) w0) as Hok.
      destruct (for_each msgs (Earlier.processMessage env) w0) as [[[] | e] w1];
        [| discriminate Hok ].
      cbn [snd] in Hquiet. unfold say. eexists _, _. split; [ reflexivity |].
      split; [| reflexivity ].
      rewrite fetched_emit, Hquiet. subst w0. rewrite fetched_emit.
      cbn [is_fetch]. now rewrite app_nil_r.
    + eexists _, _. split; [ reflexivity |]. split.
      * now rewrite fetched_emit.
      * intros [Hskipped | [msgs Hmsgs]]; congruence.
Qed.

(** The loop over the conversations issues the fetches of those the group
    gate lets through, in order, up to the first turn that throws. *)
Lemma sync_loop_fetches env options (turn : Chat -> M unit) :
  (forall chat w, exists r w',
      turn chat w = (r, w')
      /\ fetched (trace w')
         = fetched (trace w) ++ (if skipped env chat then [] else [fetch_of options chat])
      /\ (fetchable env options chat -> r = Ok tt)) ->
  forall chats w, exists r w' done,
      for_each chats turn w = (r, w')
      /\ fetched (trace w') = fetched (trace w) ++ (fetch_of options <$> done)
      /\ done `prefix_of` synced env chats
      /\ (Forall (fetchable env options) chats -> done = synced env chats).
Proof.
  intros Hturn. induction chats as [| chat rest IH]; intros w.
  - exists (Ok tt), w, []. split; [ reflexivity |].
    split; [ now rewrite app_nil_r | split; [ reflexivity | reflexivity ] ].
  - destruct (Hturn chat w) as (r & w1 & Hrun & Hfetched & Hok).
    cbn [for_each]. unfold bind. rewrite Hrun.
    assert (Hsynced : synced env (chat :: rest)
                      = (if skipped env chat then [] else [chat]) ++ synced env rest).
    { unfold synced. cbn [List.filter]. now destruct (skipped env chat). }
    destruct r as [[] | e].
    + destruct (IH w1) as (r' & w2 & done & Hrest & Hfetched' & Hprefix & Hall).
      exists r', w2, ((if skipped env chat then [] else [chat]) ++ done).
      split; [ exact Hrest |]. rewrite Hsynced.
      split; [| split ].
      * rewrite Hfetched', Hfetched, fmap_app, <- app_assoc.
        now destruct (skipped env chat).
      * now apply prefix_app.
      * intros Hchats. inversion Hchats as [| ? ? _ Hmore]; subst. now rewrite (Hall Hmore).
    + exists (Throw e), w1, (if skipped env chat then [] else [chat]).
      split; [ reflexivity |]. rewrite Hsynced.
      split; [| split ].
      * rewrite Hfetched. now destruct (skipped env chat).
      * now apply prefix_app_r.
      * intros Hchats. inversion Hchats as [| ? ? Hchat _]; subst.
        discriminate (Hok Hchat).
Qed.

(** C10.  When [config.SYNC_LIMIT] is falsy (unset, [null], 0, [false] or
    the empty string) the Sync Driver fetches with its built-in default.
    Every fetch of the sync is issued with the limit 99999 in the current
    variant and 50 in the earlier one: the fetches go to the conversations
    the group gate lets through, in order, up to the first whose fetch
    fails, and to all of them when none fails.  The whole sync runs as if
    that default had been configured: a limit of 0 does not turn the sync
    off. *)
Theorem falsy_limit_uses_default (env : Env) (chats : list Chat) (w : World) :
  js_truthy (SYNC_LIMIT (config env)) = false ->
  getChats env = Ok chats ->
  let current := {| opt_limit := JNum 99999; opt_fromMe := Some true |} in
  let earlier := {| opt_limit := JNum 50; opt_fromMe := None |} in
  (exists done,
     fetched (trace (snd (syncRecentMessages env w)))
     = fetched (trace w) ++ (fetch_of current <$> done)
     /\ done `prefix_of` synced env chats
     /\ (Forall (fetchable env current) chats -> done = synced env chats))
  /\ (exists done,
        fetched (trace (snd (Earlier.syncRecentMessages env w)))
        = fetched (trace w) ++ (fetch_of earlier <$> done)
        /\ done `prefix_of` synced env chats
        /\ (Forall (fetchable env earlier) chats -> done = synced env chats))
  /\ syncRecentMessages env w = syncRecentMessages (with_limit env (JNum 99999)) w
  /\ Earlier.syncRecentMessages env w = Earlier.syncRecentMessages (with_limit env (JNum 50)) w.
Proof.
  intros Hfalsy Hchats current earlier.
  assert (Hnow : syncLimit (config env) = JNum 99999).
  { unfold syncLimit, js_or. rewrite Hfalsy. now destruct (SYNC_LIMIT (config env)). }
  assert (Hthen : Earlier.syncLimit (config env) = JNum 50).
  { unfold Earlier.syncLimit, js_or. rewrite Hfalsy. now destruct (SYNC_LIMIT (config env)). }
  split; [| split; [| split ] ].
  - unfold syncRecentMessages, try_catch. unfold bind at 1. unfold lift. rewrite Hchats, Hnow.
    unfold bind at 1. unfold say at 1.
    destruct (sync_loop_fetches env current (syncChat env (JNum 99999))
                (syncChat_fetches env (JNum 99999)) chats
                (emit (FoundChats (length chats) (JNum 99999)) w))
      as (r & w1 & done & -> & Hfetched & Hprefix & Hall).
    exists done. split; [| split; [ exact Hprefix | exact Hall ] ].
    rewrite fetched_emit, app_nil_r in Hfetched.
    destruct r as [[] | e]; cbn [snd]; [ exact Hfetched |].
    unfold say. cbn [snd]. rewrite fetched_emit, app_nil_r. exact Hfetched.
  - unfold Earlier.syncRecentMessages, try_catch. unfold bind at 1. unfold lift.
    rewrite Hchats, Hthen. unfold bind at 1. unfold say at 1.
    pose proof (earlier_syncChat_fetches env) as Hturn. rewrite Hthen in Hturn.
    destruct (sync_loop_fetches env earlier (Earlier.syncChat env) Hturn chats
                (emit (FoundChats (length chats) (JNum 50)) w))
      as (r & w1 & done & -> & Hfetched & Hprefix & Hall).
    exists done. split; [| split; [ exact Hprefix | exact Hall ] ].
    rewrite fetched_emit, app_nil_r in Hfetched.
    destruct r as [[] | e]; cbn [snd]; [ exact Hfetched |].
    unfold say. cbn [snd]. rewrite fetched_emit, app_nil_r. exact Hfetched.
  - unfold syncRecentMessages. rewrite Hnow. reflexivity.
  - unfold Earlier.syncRecentMessages, Earlier.syncChat. rewrite Hthen. reflexivity.
Qed.

Lemma falsy_limit_uses_default_witness :
  fetched (trace (snd (syncRecentMessages Sample.limit_zero Sample.blank)))
  = [Fetch "15551234567@c.us" {| opt_limit := JNum 99999; opt_fromMe := Some true |}]
  /\ log_ids (files (snd (syncRecentMessages Sample.limit_zero Sample.blank))) Sample.aliceLog
     = ["1"].
Proof.
  split.
  - destruct (proj1 (falsy_limit_uses_default Sample.limit_zero [Sample.alice] Sample.blank
                       eq_refl eq_refl)) as (done & -> & _ & Hall).
    rewrite Hall; [ reflexivity |].
    constructor; [| constructor ]. right. eexists. reflexivity.
  - vm_compute. reflexivity.
Defined.

(** ** Media *)

Lemma string_app_nil_r (s : string) : (s ++ "")%string = s.
Proof.
  induction s as [| c t IH]; [ reflexivity |].
  change (String c (t ++ "")%string = String c t). now rewrite IH.
Qed.

Lemma string_app_assoc (a b c : string) : (a ++ (b ++ c))%string = ((a ++ b) ++ c)%string.
Proof.
  induction a as [| x t IH]; [ reflexivity |].
  change (String x (t ++ (b ++ c))%string = String x ((t ++ b) ++ c)%string). now rewrite IH.
Qed.

Lemma rooted_nonempty backupDir rest :
  is_empty rest = false -> is_empty (rooted backupDir rest) = false.
Proof.
  unfold rooted. intros H. destruct backupDir as [| c t]; [ exact H | reflexivity ].
Qed.

Lemma path_join_rooted backupDir first rest :
  is_empty first = false ->
  exists tail, path_join (backupDir :: first :: rest) = rooted backupDir (first ++ tail)%string.
Proof.
  intros Hfirst. unfold path_join, rooted. cbn [List.filter]. rewrite Hfirst. cbn [negb].
  destruct (List.filter _ rest) as [| s more] eqn:Hrest.
  - exists "". destruct backupDir as [| c t]; cbn [is_empty negb join_segments].
    + destruct first; [ discriminate | now rewrite string_app_nil_r ].
    + destruct first; [ discriminate | now rewrite string_app_nil_r ].
  - exists ("/" ++ join_segments (s :: more))%string.
    destruct backupDir as [| c t]; cbn [is_empty negb join_segments];
      destruct first; try discriminate; reflexivity.
Qed.

Lemma logPath_rooted backupDir base :
  exists tail, logPath backupDir base = rooted backupDir ("chats" ++ tail)%string.
Proof.
  unfold logPath.
  destruct (path_join_rooted backupDir "chats" [base] eq_refl) as [tail E].
  rewrite E. exists (tail ++ "/messages.json")%string.
  unfold path_join. cbn [List.filter].
  rewrite rooted_nonempty by reflexivity. cbn [negb is_empty join_segments].
  unfold rooted. destruct (is_empty backupDir).
  - now rewrite <- string_app_assoc.
  - now rewrite <- !string_app_assoc.
Qed.

Lemma mediaPath_rooted backupDir dateStr base filename :
  exists tail,
    path_join [mediaDirectory backupDir dateStr base; filename]
    = rooted backupDir ("media" ++ tail)%string.
Proof.
  unfold mediaDirectory.
  destruct (path_join_rooted backupDir "media" [dateStr; base] eq_refl) as [tail E].
  rewrite E. unfold path_join at 1. cbn [List.filter].
  rewrite rooted_nonempty by reflexivity. cbn [negb].
  destruct (is_empty filename); cbn [negb join_segments].
  - now exists tail.
  - exists (tail ++ "/" ++ filename)%string. unfold rooted. destruct (is_empty backupDir).
    + now rewrite <- string_app_assoc.
    + now rewrite <- !string_app_assoc.
Qed.

(** No media path is the path of a conversation log. *)
Lemma media_path_not_log backupDir dateStr base filename base' :
  path_join [mediaDirectory backupDir dateStr base; filename] <> logPath backupDir base'.
Proof.
  destruct (mediaPath_rooted backupDir dateStr base filename) as [t1 ->].
  destruct (logPath_rooted backupDir base') as [t2 ->].
  unfold rooted. destruct (is_empty backupDir).
  - discriminate.
  - intros H. apply (inj (String.app backupDir)) in H. discriminate H.
Qed.

(** *** The effect of [processMessage] on the disk *)

Lemma saveLog_disk logFile filenameBase iso msg w :
  match logWrite (files w) logFile msg iso with
  | Throw e => saveLog logFile filenameBase iso msg w = (Throw e, w)
  | Ok write =>
      exists w1, saveLog logFile filenameBase iso msg w = (Ok tt, w1)
                 /\ files w1 = match write with
                               | Some items => <[logFile := Json (DArr items)]> (files w)
                               | None => files w
                               end
  end.
Proof.
  unfold logWrite, saveLog.
  destruct (checkDuplicate (files w) logFile (msg_id msg)); [ now exists w |].
  unfold bind, appendToJson.
  destruct (latest_is _ _) as [[] | e]; [ | | reflexivity ].
  - eexists. split; reflexivity.
  - unfold pushAndWrite. destruct (loadData (files w) logFile) as [a | items].
    + reflexivity.
    + eexists. split; reflexivity.
Qed.

Lemma saveMedia_disk env mediaDir filenameBase msg w :
  exists w1, saveMedia env mediaDir filenameBase msg w = (Ok tt, w1)
             /\ files w1 = written (files w) (mediaWrite env (files w) mediaDir msg).
Proof.
  unfold saveMedia, mediaWrite, when, bind, try_catch, lift, say, pathExists, writeFile.
  destruct (msg_isViewOnce msg); cbn [ret files emit];
    destruct (msg_downloadMedia msg) as [[media |] | e];
    try (eexists; split; reflexivity);
    destruct (bool_decide _); eexists; split; reflexivity.
Qed.

Lemma processMessage_disk env msg w :
  files (snd (processMessage env msg w)) = diskAfter env msg (files w).
Proof.
  unfold processMessage, diskAfter, target, try_catch.
  unfold bind at 1. unfold lift at 1.
  destruct (msg_getChat msg) as [chat | e]; [| reflexivity ].
  destruct (skipped env chat); [ reflexivity |].
  unfold archive. unfold bind at 1. unfold lift at 1.
  destruct (toISOString env (msg_timestamp msg * 1000)) as [iso | e]; [| reflexivity ].
  set (base := getChatFilenameBase _ _ _).
  set (logFile := logPath _ _). set (mediaDir := mediaDirectory _ _ _).
  cbv zeta. unfold bind, when.
  assert (Hmedia : forall w1,
    files (snd (let (r, w') :=
                  (if SAVE_MEDIA (config env) && msg_hasMedia msg
                   then saveMedia env mediaDir base msg else ret tt) w1 in
                match r with
                | Ok a => (Ok a, w')
                | Throw e => say (ProcessError e) w'
                end))
    = if SAVE_MEDIA (config env) && msg_hasMedia msg
      then written (files w1) (mediaWrite env (files w1) mediaDir msg)
      else files w1).
  { intros w1. destruct (SAVE_MEDIA (config env) && msg_hasMedia msg); [| reflexivity ].
    destruct (saveMedia_disk env mediaDir base msg w1) as (w2 & -> & E). exact E. }
  destruct (SAVE_MESSAGES (config env)).
  - pose proof (saveLog_disk logFile base iso msg w) as Hlog.
    destruct (logWrite (files w) logFile msg iso) as [write | e].
    + destruct Hlog as (w1 & -> & E). rewrite Hmedia, E. now destruct write.
    + rewrite Hlog. reflexivity.
  - apply Hmedia.
Qed.

Lemma logWrite_local fs fs' logFile msg iso :
  fs !! logFile = fs' !! logFile ->
  logWrite fs logFile msg iso = logWrite fs' logFile msg iso.
Proof.
  intros H. unfold logWrite, checkDuplicate, loadData. now rewrite H.
Qed.

(** Once the record is written, the next check finds it: as a duplicate,
    or as the latest record when the scan throws before reaching it. *)
Lemma logWrite_settled fs fs' logFile msg iso items :
  logWrite fs logFile msg iso = Ok (Some items) ->
  fs' !! logFile = Some (Json (DArr items)) ->
  logWrite fs' logFile msg iso = Ok None.
Proof.
  unfold logWrite. intros H Hfile.
  destruct (checkDuplicate fs logFile (msg_id msg)); [ discriminate |].
  destruct (latest_is _ _) as [[] | e]; try discriminate.
  destruct (loadData fs logFile) as [a | old]; [ discriminate |].
  injection H as <-.
  destruct (checkDuplicate fs' logFile (msg_id msg)); [ reflexivity |].
  unfold loadData. rewrite Hfile. cbn [readJson latest_is].
  rewrite fmap_app. cbn [fmap list_fmap]. rewrite last_snoc, stringified_data.
  cbn. now rewrite String.eqb_refl.
Qed.

Lemma mediaWrite_Some env fs mediaDir msg path content :
  mediaWrite env fs mediaDir msg = Some (path, content) ->
  exists media, msg_downloadMedia msg = Ok (Some media)
                /\ path = path_join [mediaDir; mediaFilename env msg media]
                /\ content = media_data media /\ fs !! path = None.
Proof.
  unfold mediaWrite. destruct (msg_downloadMedia msg) as [[media |] | e]; try discriminate.
  destruct (bool_decide_reflect (is_Some (fs !! path_join [mediaDir; mediaFilename env msg media])))
    as [Hsome | Hnone]; [ discriminate |].
  intros [= <- <-]. exists media. repeat split.
  now apply eq_None_not_Some.
Qed.

Lemma mediaWrite_done env fs mediaDir msg :
  mediaWrite env (written fs (mediaWrite env fs mediaDir msg)) mediaDir msg = None.
Proof.
  destruct (mediaWrite env fs mediaDir msg) as [[path content] |] eqn:E; [| exact E ].
  apply mediaWrite_Some in E as (media & Hget & -> & -> & _).
  unfold written, mediaWrite. rewrite Hget. cbv zeta.
  rewrite lookup_insert_eq. now rewrite bool_decide_eq_true_2.
Qed.

Lemma written_frame env fs mediaDir msg path :
  (forall media, path <> path_join [mediaDir; mediaFilename env msg media]) ->
  written fs (mediaWrite env fs mediaDir msg) !! path = fs !! path.
Proof.
  intros Hpath.
  destruct (mediaWrite env fs mediaDir msg) as [[p c] |] eqn:E; [| reflexivity ].
  apply mediaWrite_Some in E as (media & _ & -> & _ & _).
  unfold written. apply lookup_insert_ne. intros H. now apply (Hpath media).
Qed.

Lemma written_log env fs backupDir dateStr base base' msg :
  written fs (mediaWrite env fs (mediaDirectory backupDir dateStr base) msg)
    !! logPath backupDir base'
  = fs !! logPath backupDir base'.
Proof.
  apply written_frame. intros media H. symmetry in H.
  now apply media_path_not_log in H.
Qed.

(** The second pass over the same message leaves the disk as the first one
    left it. *)
Lemma diskAfter_idempotent env msg fs :
  diskAfter env msg (diskAfter env msg fs) = diskAfter env msg fs.
Proof.
  unfold diskAfter. destruct (target env msg) as [[base iso] |]; [| reflexivity ].
  cbv zeta.
  set (logFile := logPath (BACKUP_DIR (config env)) base).
  set (mediaDir := mediaDirectory (BACKUP_DIR (config env)) (before "T" iso) base).
  assert (Hstable : forall fs1,
    (SAVE_MESSAGES (config env) = true -> forall fs2,
       fs2 !! logFile = fs1 !! logFile -> logWrite fs2 logFile msg iso = Ok None) ->
    let fs2 := if SAVE_MEDIA (config env) && msg_hasMedia msg
               then written fs1 (mediaWrite env fs1 mediaDir msg) else fs1 in
    match (if SAVE_MESSAGES (config env)
           then match logWrite fs2 logFile msg iso with
                | Ok (Some items) => Some (<[logFile := Json (DArr items)]> fs2)
                | Ok None => Some fs2
                | Throw _ => None
                end
           else Some fs2) with
    | Some fs3 => if SAVE_MEDIA (config env) && msg_hasMedia msg
                  then written fs3 (mediaWrite env fs3 mediaDir msg) else fs3
    | None => fs2
    end = fs2).
  { intros fs1 Hlog fs2.
    assert (Hfs2 : fs2 !! logFile = fs1 !! logFile).
    { subst fs2. destruct (SAVE_MEDIA (config env) && msg_hasMedia msg); [| reflexivity ].
      apply written_log. }
    assert (Hmedia : (if SAVE_MEDIA (config env) && msg_hasMedia msg
                      then written fs2 (mediaWrite env fs2 mediaDir msg) else fs2) = fs2).
    { subst fs2. destruct (SAVE_MEDIA (config env) && msg_hasMedia msg); [| reflexivity ].
      now rewrite mediaWrite_done. }
    destruct (SAVE_MESSAGES (config env)); [| exact Hmedia ].
    rewrite (Hlog eq_refl fs2 Hfs2). exact Hmedia. }
  destruct (SAVE_MESSAGES (config env)) eqn:Hsave.
  - destruct (logWrite fs logFile msg iso) as [[items |] | e] eqn:Hwrite.
    + apply Hstable. intros _ fs2 Hfs2.
      apply (logWrite_settled fs fs2 logFile msg iso items Hwrite).
      now rewrite Hfs2, lookup_insert_eq.
    + apply Hstable. intros _ fs2 Hfs2.
      now rewrite (logWrite_local fs2 fs logFile msg iso Hfs2).
    + now rewrite Hwrite.
  - apply Hstable. intros H. discriminate H.
Qed.

Lemma logWrite_healthy fs logFile msg iso :
  healthy fs logFile -> exists write, logWrite fs logFile msg iso = Ok write.
Proof.
  intros [Hfile Hlast]. unfold logWrite.
  destruct (checkDuplicate fs logFile (msg_id msg)); [ now eexists |].
  rewrite (loadData_array fs logFile Hfile). cbn [latest_is].
  destruct (last (stored_items fs logFile)) as [m |]; [| now eexists ].
  destruct (json_null_dec m) as [-> | Hm]; [ now contradiction Hlast |].
  rewrite (get_id_record m Hm). cbn [get_id messageData].
  destruct (strict_eq _ _); now eexists.
Qed.

Lemma diskAfter_log_frame env msg fs base iso path :
  target env msg = Some (base, iso) ->
  path <> logPath (BACKUP_DIR (config env)) base ->
  forall fs1,
    (if SAVE_MESSAGES (config env)
     then match logWrite fs (logPath (BACKUP_DIR (config env)) base) msg iso with
          | Ok (Some items) =>
              Some (<[logPath (BACKUP_DIR (config env)) base := Json (DArr items)]> fs)
          | Ok None => Some fs
          | Throw _ => None
          end
     else Some fs) = Some fs1 ->
    fs1 !! path = fs !! path.
Proof.
  intros _ Hpath fs1.
  destruct (SAVE_MESSAGES (config env)); [| now intros [= <-] ].
  destruct (logWrite _ _ _ _) as [[items |] | e]; intros [= <-]; [| reflexivity ].
  now apply lookup_insert_ne.
Qed.

(** C7.  Processing the same message twice leaves the disk as the first
    pass left it.  A file that exists at the computed media path is not
    overwritten.  The only files a pass changes are the log of the
    conversation and the file at the computed media path, and the latter
    only when no file was there.  When media are saved, the message has
    media that can be downloaded and the log is not one on which the append
    throws, the file at the media path exists after the first pass: two
    passes produce that one media file. *)
Theorem media_saved_once (env : Env) (msg : Message) (w : World) :
  let once := snd (processMessage env msg w) in
  let twice := snd (processMessage env msg once) in
  files twice = files once
  /\ (forall path f,
        mediaTarget env msg = Some path ->
        files w !! path = Some f -> files once !! path = Some f)
  /\ (forall path,
        files once !! path <> files w !! path ->
        logTarget env msg = Some path
        \/ (mediaTarget env msg = Some path /\ files w !! path = None))
  /\ (forall path,
        SAVE_MEDIA (config env) = true -> msg_hasMedia msg = true ->
        mediaTarget env msg = Some path ->
        (SAVE_MESSAGES (config env) = true ->
         forall logFile, logTarget env msg = Some logFile -> healthy (files w) logFile) ->
        is_Some (files once !! path) /\ files twice !! path = files once !! path).
Proof.
  intros once twice.
  assert (Hidem : files twice = files once).
  { subst twice once. rewrite !processMessage_disk. apply diskAfter_idempotent. }
  split; [ exact Hidem |].
  subst once. rewrite processMessage_disk.
  unfold mediaTarget, logTarget, diskAfter.
  destruct (target env msg) as [[base iso] |] eqn:Htarget.
  2:{ repeat split; try discriminate. intros path H. now contradiction H. }
  cbv zeta.
  set (logFile := logPath (BACKUP_DIR (config env)) base).
  set (mediaDir := mediaDirectory (BACKUP_DIR (config env)) (before "T" iso) base).
  pose proof (diskAfter_log_frame env msg (files w) base iso) as Hframe.
  fold logFile in Hframe.
  destruct (if SAVE_MESSAGES (config env) then _ else _) as [fs1 |] eqn:Hlog.
  2:{ split; [ now intros path f _ H | split ].
      - intros path H. now contradiction H.
      - intros path Hsave Hhas Hpath Hhealthy. exfalso.
        destruct (SAVE_MESSAGES (config env)); [| discriminate Hlog ].
        destruct (logWrite_healthy (files w) logFile msg iso
                    (Hhealthy eq_refl logFile eq_refl)) as [write E].
        rewrite E in Hlog. now destruct write. }
  split; [| split ].
  - intros path f Hpath Hf.
    destruct (msg_downloadMedia msg) as [[media |] | e] eqn:Hget; try discriminate.
    injection Hpath as <-.
    assert (Hf1 : fs1 !! path_join [mediaDir; mediaFilename env msg media] = Some f).
    { rewrite <- Hf. apply (Hframe _ Htarget); [| reflexivity ].
      apply media_path_not_log. }
    destruct (SAVE_MEDIA (config env) && msg_hasMedia msg); [| exact Hf1 ].
    unfold mediaWrite. rewrite Hget. cbv zeta.
    rewrite bool_decide_eq_true_2 by (rewrite Hf1; eauto). exact Hf1.
  - intros path.
    destruct (decide (path = logFile)) as [-> | Hpath]; [ now left |].
    pose proof (Hframe path Htarget Hpath fs1 eq_refl) as Hsame.
    destruct (SAVE_MEDIA (config env) && msg_hasMedia msg);
      [| intros Hchanged; now contradiction Hchanged ].
    destruct (mediaWrite env fs1 mediaDir msg) as [[p c] |] eqn:Hwrite;
      [| intros Hchanged; now contradiction Hchanged ].
    apply mediaWrite_Some in Hwrite as (media & -> & -> & -> & Hfree).
    cbn [written]. intros Hchanged. right.
    destruct (decide (path = path_join [mediaDir; mediaFilename env msg media]))
      as [-> | Hother].
    + split; [ reflexivity |]. now rewrite <- Hsame.
    + rewrite lookup_insert_ne, Hsame in Hchanged by congruence. now contradiction Hchanged.
  - intros path Hsave Hhas Hpath _. rewrite Hsave, Hhas. cbn [andb].
    destruct (msg_downloadMedia msg) as [[media |] | e] eqn:Hget; try discriminate.
    injection Hpath as <-.
    split.
    + unfold mediaWrite. rewrite Hget. cbv zeta.
      destruct (bool_decide_reflect
                  (is_Some (fs1 !! path_join [mediaDir; mediaFilename env msg media])))
        as [Hsome | Hnone]; [ exact Hsome |].
      cbn [written]. rewrite lookup_insert_eq. eauto.
    + rewrite Hidem. rewrite processMessage_disk. unfold diskAfter.
      rewrite Htarget. cbv zeta. fold logFile. fold mediaDir.
      rewrite Hlog, Hsave, Hhas. reflexivity.
Qed.

Lemma media_saved_once_witness :
  let env := Sample.provider None [Sample.alice] (fun _ => Ok []) in
  let picture := "backup/media/2023-11-14/15551234567/VIEWONCE_9.png" in
  let once := snd (processMessage env (Sample.photo Sample.alice "9") Sample.blank) in
  is_Some (files once !! picture)
  /\ files (snd (processMessage env (Sample.photo Sample.alice "9") once)) !! picture
     = files once !! picture.
Proof.
  intros env picture once.
  destruct (media_saved_once env (Sample.photo Sample.alice "9") Sample.blank)
    as (_ & _ & _ & Hsaved).
  apply (Hsaved picture); try reflexivity.
  intros _ logFile [= <-]. split.
  - intros a. simpl. rewrite lookup_empty. discriminate.
  - unfold stored_items. simpl. rewrite lookup_empty. discriminate.
Defined.

(** ** Viewer *)

Lemma printFolders_ok folders : forall number out,
  fst (Viewer.printFolders number folders out) = Ok tt.
Proof.
  induction folders as [| folder rest IH]; intros number out; [ reflexivity |].
  cbn [Viewer.printFolders]. unfold bind, Viewer.print. apply IH.
Qed.

Lemma displayChat_ok i chatName out : fst (Viewer.displayChat i chatName out) = Ok tt.
Proof.
  unfold Viewer.displayChat, try_catch.
  destruct (_ out) as [[[] | e] out']; reflexivity.
Qed.

(** Whatever the listing, the files and the answer, no exception leaves the
    viewer: its exit status is 0. *)
Lemma viewer_exit_status (i : Viewer.Input) : Viewer.exit_code (fst (Viewer.run i)) = 0%Z.
Proof.
  assert (Hanswer : forall folders out, fst (Viewer.onAnswer i folders out) = Ok tt).
  { intros folders out. unfold Viewer.onAnswer.
    destruct (Viewer.answer i) as [[| num | num] |]; try reflexivity.
    destruct (_ && _)%bool; [| reflexivity ].
    destruct (folders !! _); [ apply displayChat_ok | reflexivity ]. }
  unfold Viewer.run, Viewer.listChats, bind at 1, try_catch, lift.
  unfold bind at 1.
  destruct (Viewer.readdir i) as [[| folder rest] | e]; try reflexivity.
  unfold bind at 1. unfold Viewer.print at 1. unfold bind at 1.
  pose proof (printFolders_ok (folder :: rest) 1 ([] ++ [Viewer.AvailableChats])) as Hlist.
  destruct (Viewer.printFolders 1 (folder :: rest) _) as [[[] | e] out];
    [| discriminate Hlist ].
  unfold bind, Viewer.print, ret. now rewrite Hanswer.
Qed.

(** C9.  When the listing of the backup directory is empty, the viewer
    prints that no chats were found, closes its terminal interface and
    returns; nothing is thrown, and the process ends with status 0. *)
Theorem empty_backup_reports_no_chats (i : Viewer.Input) :
  Viewer.readdir i = Ok [] ->
  Viewer.run i = (Ok tt, [Viewer.NoChatsFound; Viewer.Close])
  /\ Viewer.exit_code (fst (Viewer.run i)) = 0%Z.
Proof.
  intros Hempty.
  assert (E : Viewer.run i = (Ok tt, [Viewer.NoChatsFound; Viewer.Close])).
  { unfold Viewer.run, Viewer.listChats, try_catch, bind, lift. now rewrite Hempty. }
  split; [ exact E | now rewrite E ].
Qed.

Lemma empty_backup_reports_no_chats_witness :
  Viewer.run {| Viewer.dirname := "/home/user/WhatsApp-tool"; Viewer.readdir := Ok [];
                Viewer.disk := ∅; Viewer.answer := None |}
  = (Ok tt, [Viewer.NoChatsFound; Viewer.Close]).
Proof.
  apply (empty_backup_reports_no_chats
           {| Viewer.dirname := "/home/user/WhatsApp-tool"; Viewer.readdir := Ok [];
              Viewer.disk := ∅; Viewer.answer := None |}).
  reflexivity.
Defined.


(** ** The log after a sync *)

Lemma holds_local logFile iso kept w w' :
  files w' !! logFile = files w !! logFile ->
  holds logFile iso kept w -> holds logFile iso kept w'.
Proof.
  unfold holds, array_or_missing, stored_items. intros ->. trivial.
Qed.

(** [processMessage] does to the log what [saveLog] does, whatever becomes
    of the media. *)
Lemma processMessage_holds env base kept w msg :
  SAVE_MESSAGES (config env) = true ->
  filed_under env base msg ->
  let logFile := logPath (BACKUP_DIR (config env)) base in
  holds logFile (isoOf env) kept w ->
  holds logFile (isoOf env)
        (if bool_decide (msg_id msg ∈ msg_id <$> kept) then kept else kept ++ [msg])
        (snd (processMessage env msg w)).
Proof.
  intros Hsave Hfiled logFile Hw.
  destruct (saveLog_holds logFile base (isoOf env) kept w msg Hw) as (w1 & Hrun & Hw1).
  apply (holds_local logFile (isoOf env) _ w1); [| exact Hw1 ].
  rewrite processMessage_disk. unfold diskAfter. rewrite Hfiled. cbv zeta.
  fold logFile. rewrite Hsave.
  pose proof (saveLog_disk logFile base (isoOf env msg) msg w) as Hdisk.
  destruct (logWrite (files w) logFile msg (isoOf env msg)) as [write | e].
  - destruct Hdisk as (w1' & Hrun' & Hfiles). rewrite Hrun in Hrun'.
    injection Hrun' as <-.
    assert (E : match write with
                | Some items => Some (<[logFile := Json (DArr items)]> (files w))
                | None => Some (files w)
                end = Some (files w1)) by (rewrite Hfiles; now destruct write).
    rewrite E.
    destruct (SAVE_MEDIA (config env) && msg_hasMedia msg); [| reflexivity ].
    apply written_log.
  - rewrite Hrun in Hdisk. discriminate Hdisk.
Qed.

Lemma replay_holds env base msgs : forall kept w,
  SAVE_MESSAGES (config env) = true ->
  Forall (filed_under env base) msgs ->
  let logFile := logPath (BACKUP_DIR (config env)) base in
  holds logFile (isoOf env) kept w ->
  holds logFile (isoOf env) (kept ++ first_seen (msg_id <$> kept) msgs)
        (snd (for_each msgs (processMessage env) w)).
Proof.
  induction msgs as [| msg rest IH]; intros kept w Hsave Hfiled logFile Hw.
  - cbn. now rewrite app_nil_r.
  - inversion Hfiled as [| ? ? Hmsg Hrest]; subst.
    pose proof (processMessage_holds env base kept w msg Hsave Hmsg Hw) as Hstep.
    pose proof (processMessage_ok env msg w) as Hok.
    cbn [for_each first_seen]. unfold bind.
    destruct (processMessage env msg w) as [[[] | e] w1]; [| discriminate Hok ].
    cbn [snd] in Hstep.
    destruct (bool_decide (msg_id msg ∈ msg_id <$> kept)).
    + exact (IH kept w1 Hsave Hrest Hstep).
    + pose proof (IH (kept ++ [msg]) w1 Hsave Hrest Hstep) as H.
      rewrite fmap_app in H. now rewrite <- app_assoc in H.
Qed.

(** The current variant of the driver replays a conversation oldest first:
    when the provider answers [msgs] newest first, all filed under the same
    folder, and the log of that folder is absent, unparsable or empty, the
    log after the turn of the conversation lists the ids of [msgs] in
    reverse, each at its first occurrence. *)
Lemma sync_archives_oldest_first env limit chat msgs base w :
  SAVE_MESSAGES (config env) = true ->
  skipped env chat = false ->
  fetchMessages env chat {| opt_limit := limit; opt_fromMe := Some true |} = Ok msgs ->
  Forall (filed_under env base) msgs ->
  let logFile := logPath (BACKUP_DIR (config env)) base in
  array_or_missing (files w) logFile ->
  stored_items (files w) logFile = [] ->
  log_ids (files (snd (syncChat env limit chat w))) logFile = nub (msg_id <$> rev msgs).
Proof.
  intros Hsave Hskip Hfetch Hfiled logFile Hfile Hempty.
  unfold syncChat. rewrite Hskip. unfold bind at 1. unfold say at 1.
  unfold bind at 1. unfold lift. rewrite Hfetch. unfold bind.
  set (w0 := emit _ w).
  assert (Hw0 : holds logFile (isoOf env) [] w0) by (split; assumption).
  assert (Hrev : Forall (filed_under env base) (rev msgs)).
  { rewrite Forall_forall in *. intros m Hm. apply Hfiled.
    rewrite list_elem_of_In in *. now apply in_rev. }
  pose proof (replay_holds env base (rev msgs) [] w0 Hsave Hrev Hw0) as Hlog.
  pose proof (for_each_ok (processMessage env) (rev msgs)
                (fun x w' _ => processMessage_ok env x w') w0) as Hok.
  destruct (for_each (rev msgs) (processMessage env) w0) as [[[] | e] w1];
    [| discriminate Hok ].
  cbn [snd app fmap list_fmap] in Hlog. unfold say. cbn [snd]. rewrite files_emit.
  rewrite (log_ids_holds logFile (isoOf env) _ _ Hlog), first_seen_ids.
  apply filter_none_seen.
Qed.


(** * Further properties of the code *)

(** ** The sanitising expression *)

Lemma replace_unsafe_fixed s : all_chars safe_char s = true -> replace_unsafe s = s.
Proof.
  induction s as [| c t IH]; simpl; [ reflexivity |].
  intros H. apply andb_true_iff in H as [Hc Ht]. now rewrite Hc, IH.
Qed.

Lemma trim_start_fixed s : is_space_opt (first_char s) = false -> trim_start s = s.
Proof. destruct s as [| c t]; simpl; [ reflexivity |]. now intros ->. Qed.

Lemma trim_end_fixed s : is_space_opt (last_char s) = false -> trim_end s = s.
Proof.
  induction s as [| c t IH]; [ reflexivity |].
  destruct t as [| c' t'].
  - simpl. now intros ->.
  - intros H. change (last_char (String c (String c' t'))) with (last_char (String c' t')) in H.
    change (trim_end (String c (String c' t'))) with
      (match trim_end (String c' t') with
       | EmptyString => if is_space c then EmptyString else String c EmptyString
       | String a b => String c (String a b)
       end).
    now rewrite (IH H).
Qed.

Lemma trim_fixed s : trimmed s = true -> trim s = s.
Proof.
  unfold trimmed, trim. intros H. apply andb_true_iff in H as [Hfirst Hlast].
  apply negb_true_iff in Hfirst, Hlast.
  rewrite (trim_start_fixed s Hfirst). now apply trim_end_fixed.
Qed.

(** X1.  Sanitising is idempotent: a folder name that went through the
    sanitising expression comes out of it unchanged. *)
Theorem sanitize_idempotent (name : string) : sanitize (sanitize name) = sanitize name.
Proof.
  unfold sanitize at 1.
  rewrite (replace_unsafe_fixed _ (sanitize_safe name)).
  apply trim_fixed, sanitize_trimmed.
Qed.

Lemma trim_start_empty s : trim_start s = "" <-> all_chars is_space s = true.
Proof.
  induction s as [| c t IH]; simpl; [ tauto |].
  destruct (is_space c); simpl; [ exact IH |].
  split; discriminate.
Qed.

Lemma trim_end_empty s : trim_end s = "" <-> all_chars is_space s = true.
Proof.
  induction s as [| c t IH]; simpl; [ tauto |].
  destruct (trim_end t) as [| c' t'] eqn:E.
  - rewrite (proj1 IH eq_refl). destruct (is_space c); simpl; [ tauto |].
    split; discriminate.
  - split; [ discriminate |]. intros H. apply andb_true_iff in H as [_ Ht].
    now apply IH in Ht.
Qed.

Lemma trim_empty s : trim s = "" <-> all_chars is_space s = true.
Proof.
  unfold trim. rewrite <- trim_start_empty. split.
  - intros H. apply trim_end_empty in H.
    pose proof (trim_start_first s) as Hfirst.
    destruct (trim_start s) as [| c t]; [ reflexivity |].
    simpl in H, Hfirst. now rewrite Hfirst in H.
  - now intros ->.
Qed.

Lemma blank_safe c : blank c = true -> safe_char c = true.
Proof.
  unfold blank, safe_char. intros ->. now rewrite !orb_true_r.
Qed.

Lemma blank_space c : blank c = true -> is_space c = true.
Proof.
  unfold blank, is_space. intros ->. now rewrite orb_true_r.
Qed.

Lemma replaced_space c : is_space (if safe_char c then c else "_"%char) = blank c.
Proof.
  destruct (safe_char c) eqn:Hsafe.
  - destruct (is_space c) eqn:Hspace.
    + symmetry. unfold blank. apply N.eqb_eq. now apply space_not_replaced.
    + destruct (blank c) eqn:Hblank; [| reflexivity ].
      apply blank_space in Hblank. congruence.
  - destruct (blank c) eqn:Hblank; [| reflexivity ].
    apply blank_safe in Hblank. congruence.
Qed.

Lemma replace_unsafe_spaces s :
  all_chars is_space (replace_unsafe s) = all_chars blank s.
Proof.
  induction s as [| c t IH]; simpl; [ reflexivity |].
  now rewrite replaced_space, IH.
Qed.

(** X2.  The sanitised name is empty exactly when the name consists of
    spaces only (the empty name among them): every other white space
    becomes an underscore and stays. *)
Theorem sanitize_empty_iff_blank (name : string) :
  sanitize name = "" <-> all_chars blank name = true.
Proof.
  unfold sanitize. rewrite trim_empty, replace_unsafe_spaces. reflexivity.
Qed.

Lemma trim_not_blank s : trim s <> "" -> all_chars blank (trim s) = false.
Proof.
  intros Hne.
  pose proof (trim_end_first _ (trim_start_first s)) as Hfirst. fold (trim s) in Hfirst.
  destruct (trim s) as [| c t]; [ now contradiction Hne |].
  simpl in *. destruct (blank c) eqn:Hblank; [| reflexivity ].
  apply blank_space in Hblank. congruence.
Qed.

(** X3.  For a group the current driver never yields an empty folder name,
    unless the conversation id itself is made of spaces: a subject that is
    absent, empty or white space gives way to the id. *)
Theorem group_name_not_empty (getContactById : string -> result Contact)
    (chat : Chat) (msgFrom : option string) :
  chat_isGroup chat = true ->
  all_chars blank (chat_serialized chat) = false ->
  getChatFilenameBase getContactById chat msgFrom <> "".
Proof.
  intros Hgroup Hid. unfold getChatFilenameBase. rewrite Hgroup. unfold groupBase.
  assert (Hfallback : sanitize (chat_serialized chat) <> "").
  { intros H. unfold sanitize in H. rewrite trim_empty, replace_unsafe_spaces in H. congruence. }
  unfold or_else.
  destruct (truthy (chat_name chat)) eqn:Hname.
  - destruct (chat_name chat) as [name |]; [| discriminate Hname ].
    cbn [option_map truthy].
    destruct (is_empty (trim name)) eqn:Hsubject; cbn [negb]; [ exact Hfallback |].
    intros H. unfold sanitize in H. rewrite trim_empty, replace_unsafe_spaces in H.
    rewrite trim_not_blank in H; [ discriminate |].
    intros E. now rewrite E in Hsubject.
  - rewrite Hname. exact Hfallback.
Qed.

Lemma group_name_not_empty_witness :
  getChatFilenameBase Sample.nobody Sample.team None <> "".
Proof.
  apply (group_name_not_empty Sample.nobody Sample.team None); reflexivity.
Defined.

(** ** The log file *)

Lemma loadData_stored fs path items :
  loadData fs path = DArr items -> stored_items fs path = items.
Proof.
  unfold loadData, stored_items.
  destruct (fs !! path) as [[content | [a | items']] |]; simpl; congruence.
Qed.

Lemma json_nested_ind (P : json -> Prop) :
  (forall a, P (JAtom a)) ->
  (forall items, Forall P items -> P (JArr items)) ->
  (forall members, Forall (fun kv => P (snd kv)) members -> P (JObj members)) ->
  forall j, P j.
Proof.
  intros Hatom Harr Hobj. fix IH 1. intros [a | items | members].
  - apply Hatom.
  - apply Harr. induction items as [| x rest IHrest]; constructor; [ apply IH | exact IHrest ].
  - apply Hobj. induction members as [| [k v] rest IHrest]; constructor;
      [ apply IH | exact IHrest ].
Qed.

(** A value free of such numbers is read back as it was written. *)
Lemma stringified_finite (j : json) : finite j = true -> stringified j = j.
Proof.
  induction j as [a | items IH | members IH] using json_nested_ind.
  - destruct a; [ reflexivity | reflexivity | reflexivity | discriminate | reflexivity ].
  - cbn [finite stringified]. intros Hall. f_equal.
    induction IH as [| x rest Hx _ IHrest]; [ reflexivity |].
    cbn [forallb] in Hall. apply andb_true_iff in Hall as [H1 H2].
    cbn [List.map]. now rewrite (Hx H1), (IHrest H2).
  - cbn [finite stringified]. intros Hall. f_equal.
    induction IH as [| [k v] rest Hv _ IHrest]; [ reflexivity |].
    cbn [forallb] in Hall. apply andb_true_iff in Hall as [H1 H2].
    cbn [List.map]. cbn [snd] in Hv. now rewrite (Hv H1), (IHrest H2).
Qed.

Lemma stringified_all_finite (items : list json) :
  Forall (fun x => finite x = true) items -> stringified <$> items = items.
Proof.
  induction 1 as [| x rest Hx _ IH]; [ reflexivity |].
  now rewrite fmap_cons, (stringified_finite x Hx), IH.
Qed.

Lemma member_stringified key members :
  member key (List.map (fun '(k, v) => (k, stringified v)) members)
  = stringified <$> member key members.
Proof.
  induction members as [| [k v] rest IH]; [ reflexivity |].
  cbn [List.map member]. rewrite IH.
  destruct (member key rest); [ reflexivity |].
  cbn [fmap option_fmap option_map]. now destruct (String.eqb k key).
Qed.

Lemma stringified_not_null x : reads_null x = false -> stringified x <> JNull.
Proof. destruct x as [[] | |]; cbn; intros H; discriminate. Qed.

(** X4.  [appendToJson] is append-only and local: whatever the file holds
    and whatever the record, the array of the log afterwards is the array
    before, or the array before with the record added at its end, as
    [JSON.stringify] writes them: a number that is not finite is read back
    as [null], and an array and a record free of such numbers are kept as
    they were.  No other file and no console line changes, and a call that
    throws leaves the world as it was. *)
Theorem appendToJson_append_only (path : string) (newData : json) (w : World) :
  let w' := snd (appendToJson path newData w) in
  let items := stored_items (files w) path in
  trace w' = trace w
  /\ (forall other, other <> path -> files w' !! other = files w !! other)
  /\ (files w' = files w
      \/ stored_items (files w') path = stringified <$> (items ++ [newData]))
  /\ (Forall (fun x => finite x = true) (items ++ [newData]) ->
      stored_items (files w') path = items
      \/ stored_items (files w') path = items ++ [newData])
  /\ (forall e, fst (appendToJson path newData w) = Throw e -> w' = w).
Proof.
  cbv zeta.
  assert (Hsame : trace w = trace w
    /\ (forall other, other <> path -> files w !! other = files w !! other)
    /\ (files w = files w
        \/ stored_items (files w) path
           = stringified <$> (stored_items (files w) path ++ [newData]))
    /\ (Forall (fun x => finite x = true) (stored_items (files w) path ++ [newData]) ->
        stored_items (files w) path = stored_items (files w) path
        \/ stored_items (files w) path = stored_items (files w) path ++ [newData])).
  { split; [ reflexivity | split; [ reflexivity | split; [ now left | now left ] ] ]. }
  unfold appendToJson. cbv zeta.
  destruct (latest_is (loadData (files w) path) newData) as [[] | e]; cbn [fst snd].
  - destruct Hsame as (H1 & H2 & H3 & H4). repeat (split; [ assumption |]). discriminate.
  - unfold pushAndWrite.
    destruct (loadData (files w) path) as [a | items] eqn:Hload.
    + destruct Hsame as (H1 & H2 & H3 & H4). repeat (split; [ assumption |]). reflexivity.
    + apply loadData_stored in Hload. cbn [fst snd store files trace].
      split; [ reflexivity | split; [| split; [| split ] ] ].
      * intros other Hother. now apply lookup_insert_ne.
      * right. now rewrite stored_items_insert, Hload.
      * intros Hfinite. right.
        rewrite Hload in Hfinite |- *. rewrite stored_items_insert.
        now apply stringified_all_finite.
      * discriminate.
  - destruct Hsame as (H1 & H2 & H3 & H4). repeat (split; [ assumption |]). reflexivity.
Qed.

Lemma appendToJson_append_only_witness :
  let w := {| files := {[ "messages.json" := Json (DArr [JAtom (AInf false)]) ]};
              trace := [] |} in
  stored_items (files (snd (appendToJson "messages.json" (JObj [("id", JStr "A1")]) w)))
               "messages.json"
  = [JNull; JObj [("id", JStr "A1")]]
  /\ stored_items (files (snd (appendToJson "messages.json" (JObj [("id", JStr "A1")])
                                Sample.blank))) "messages.json"
     = [JObj [("id", JStr "A1")]].
Proof.
  intros w. split.
  - reflexivity.
  - destruct (appendToJson_append_only "messages.json" (JObj [("id", JStr "A1")]) Sample.blank)
      as (_ & _ & _ & Hkept & _).
    destruct Hkept as [Hsame | Hadded].
    + repeat constructor.
    + exfalso. vm_compute in Hsame. discriminate Hsame.
    + exact Hadded.
Defined.

Lemma checkDuplicate_array fs path items msgId :
  fs !! path = Some (Json (DArr items)) ->
  Forall (fun x => x <> JNull) items ->
  checkDuplicate fs path msgId = existsb (id_is msgId) items.
Proof.
  intros Hfile Hitems. unfold checkDuplicate. rewrite Hfile. cbn [readJson data_some].
  now rewrite (some_id_records msgId items Hitems).
Qed.

(** X5.  Append, then look up: on a log that is absent, unparsable or an
    array in which no element is [null] or a number that is not finite,
    [appendToJson] succeeds for a record with a string id, and
    [checkDuplicate] finds that id afterwards, whether the record was
    written or skipped as the latest one. *)
Theorem append_then_duplicate (w : World) (path msgId : string)
    (members : list (string * json)) :
  array_or_missing (files w) path ->
  Forall (fun x => reads_null x = false) (stored_items (files w) path) ->
  record_id (JObj members) = Some (JStr msgId) ->
  fst (appendToJson path (JObj members) w) = Ok tt
  /\ checkDuplicate (files (snd (appendToJson path (JObj members) w))) path msgId = true.
Proof.
  intros Hfile Hread Hid. unfold appendToJson.
  rewrite (loadData_array _ _ Hfile), latest_is_array.
  assert (Hitems : Forall (fun x => x <> JNull) (stored_items (files w) path)).
  { eapply Forall_impl; [ exact Hread |]. intros x Hx ->. discriminate Hx. }
  assert (Hrecord : id_is msgId (JObj members) = true).
  { unfold id_is. rewrite Hid. cbn. apply String.eqb_refl. }
  assert (Hwritten : id_is msgId (stringified (JObj members)) = true).
  { unfold id_is. cbn [stringified record_id]. rewrite member_stringified.
    cbn [record_id] in Hid. rewrite Hid. cbn. apply String.eqb_refl. }
  assert (Hadded :
    checkDuplicate
      (files (store path
                (Json (DArr (stringified <$> (stored_items (files w) path ++ [JObj members]))))
                w)) path msgId
    = true).
  { rewrite (checkDuplicate_array _ path
               (stringified <$> (stored_items (files w) path ++ [JObj members])) msgId).
    - rewrite fmap_app, existsb_app. cbn [fmap list_fmap existsb].
      now rewrite Hwritten, orb_true_r.
    - rewrite files_store. apply lookup_insert_eq.
    - rewrite fmap_app. apply Forall_app. split.
      + apply Forall_fmap. eapply Forall_impl; [ exact Hread |].
        intros x Hx. now apply stringified_not_null.
      + constructor; [ discriminate | constructor ]. }
  destruct (last (stored_items (files w) path)) as [m |] eqn:Hlast.
  - assert (Hin : m ∈ stored_items (files w) path) by now apply last_Some_elem_of.
    assert (Hm : m <> JNull) by (rewrite Forall_forall in Hitems; now apply Hitems).
    assert (Harray : files w !! path = Some (Json (DArr (stored_items (files w) path)))).
    { unfold stored_items in Hin |- *.
      destruct (files w !! path) as [[content | [a | items]] |]; try reflexivity;
        now apply elem_of_nil in Hin. }
    destruct m as [[] | |]; try (now contradiction Hm);
      (destruct (ids_equal _ (JObj members)) eqn:Hsame; cbn [fst snd];
       [ split; [ reflexivity |];
         rewrite (checkDuplicate_array _ path _ msgId Harray Hitems);
         apply existsb_exists; eexists; split;
           [ apply list_elem_of_In; exact Hin
           | unfold id_is; rewrite <- Hid; exact Hsame ]
       | split; [ reflexivity | exact Hadded ] ]).
  - apply last_None in Hlast. rewrite Hlast in Hadded |- *.
    cbn [pushAndWrite fst snd]. split; [ reflexivity | exact Hadded ].
Qed.

Lemma append_then_duplicate_witness :
  checkDuplicate
    (files (snd (appendToJson "messages.json" (JObj [("id", JStr "A1")]) Sample.blank)))
    "messages.json" "A1" = true.
Proof.
  refine (proj2 (append_then_duplicate Sample.blank "messages.json" "A1"
                   [("id", JStr "A1")] _ _ _)).
  - intros a. simpl. rewrite lookup_empty. discriminate.
  - unfold stored_items. simpl. rewrite lookup_empty. constructor.
  - reflexivity.
Defined.

(** X6.  Replaying messages whose ids the log already holds changes
    nothing, neither the disk nor the console; in particular a sequence fed
    a second time, from a log that started absent, unparsable or empty, is
    skipped whole. *)
Theorem replay_changes_nothing
    (logFile filenameBase : string) (iso : Message -> string)
    (kept msgs : list Message) (w : World) :
  holds logFile iso kept w ->
  (Forall (fun msg => msg_id msg ∈ msg_id <$> kept) msgs ->
   feed logFile filenameBase iso msgs w = (Ok tt, w))
  /\ (kept = [] ->
      let once := snd (feed logFile filenameBase iso msgs w) in
      feed logFile filenameBase iso msgs once = (Ok tt, once)).
Proof.
  intros Hw.
  assert (Hskip : forall ms kept' w',
    holds logFile iso kept' w' ->
    Forall (fun msg => msg_id msg ∈ msg_id <$> kept') ms ->
    feed logFile filenameBase iso ms w' = (Ok tt, w')).
  { induction ms as [| msg rest IH]; intros kept' w' Hw' Hall; [ reflexivity |].
    inversion Hall as [| ? ? Hmsg Hrest]; subst.
    unfold feed. cbn [for_each]. unfold bind, saveLog.
    rewrite (checkDuplicate_holds logFile iso kept' w' _ Hw').
    rewrite bool_decide_eq_true_2 by exact Hmsg.
    exact (IH kept' w' Hw' Hrest). }
  split; [ exact (Hskip msgs kept w Hw) |].
  intros -> once.
  destruct (feed_holds logFile filenameBase iso msgs [] w Hw) as (w1 & E & Hw1).
  subst once. rewrite E. cbn [snd].
  apply (Hskip msgs _ w1 Hw1).
  cbn [app fmap list_fmap]. rewrite first_seen_ids, filter_none_seen.
  apply Forall_forall. intros msg Hmsg. apply nub_elem. now apply list_elem_of_fmap_2.
Qed.

Lemma replay_changes_nothing_witness :
  let msgs := [Sample.note Sample.alice "1"; Sample.note Sample.alice "2"] in
  let feed_once := feed Sample.aliceLog "15551234567" (fun _ => "2023-11-14T22:13:20.000Z") msgs in
  feed_once (snd (feed_once Sample.blank)) = (Ok tt, snd (feed_once Sample.blank)).
Proof.
  intros msgs feed_once.
  refine (proj2 (replay_changes_nothing Sample.aliceLog "15551234567" _ [] msgs
                   Sample.blank _) eq_refl).
  split.
  - intros a. simpl. rewrite lookup_empty. discriminate.
  - reflexivity.
Defined.

(** ** The message processor *)

Lemma target_inv env msg base iso :
  target env msg = Some (base, iso) ->
  exists chat,
    msg_getChat msg = Ok chat /\ skipped env chat = false
    /\ toISOString env (msg_timestamp msg * 1000) = Ok iso
    /\ base = getChatFilenameBase (getContactById env) chat (Some (msg_from msg)).
Proof.
  unfold target. destruct (msg_getChat msg) as [chat | e]; [| discriminate ].
  destruct (skipped env chat) eqn:Hskip; [ discriminate |].
  destruct (toISOString env _) as [iso' | e]; [| discriminate ].
  intros [= <- <-]. now exists chat.
Qed.

(** Past the folder name and the date, [processMessage] is its two parts
    under the outer [try]. *)
Lemma processMessage_target env msg base iso w :
  target env msg = Some (base, iso) ->
  processMessage env msg w =
    try_catch
      (bind (when (SAVE_MESSAGES (config env))
                  (saveLog (logPath (BACKUP_DIR (config env)) base) base iso msg))
            (fun _ => when (SAVE_MEDIA (config env) && msg_hasMedia msg)
                           (saveMedia env
                              (mediaDirectory (BACKUP_DIR (config env)) (before "T" iso) base)
                              base msg)))
      (fun e => say (ProcessError e)) w.
Proof.
  intros Htarget. destruct (target_inv env msg base iso Htarget) as (chat & Hchat & Hskip & Hiso & ->).
  unfold processMessage, try_catch. unfold bind at 1. unfold lift at 1. rewrite Hchat, Hskip.
  unfold archive. unfold bind at 1. unfold lift at 1. rewrite Hiso. reflexivity.
Qed.

(** X7.  A log file that holds a JSON atom ([null], a boolean, a number or
    a string) blocks its conversation: the append throws, the message is
    neither logged nor are its media saved, and the only effect of
    [processMessage] is the error line. *)
Theorem atom_log_blocks_archiving (env : Env) (msg : Message) (w : World)
    (base iso : string) (a : atom) :
  target env msg = Some (base, iso) ->
  SAVE_MESSAGES (config env) = true ->
  files w !! logPath (BACKUP_DIR (config env)) base = Some (Json (DAtom a)) ->
  exists e, processMessage env msg w = (Ok tt, emit (ProcessError e) w).
Proof.
  intros Htarget Hsave Hfile.
  rewrite (processMessage_target env msg base iso w Htarget).
  unfold try_catch, bind, when. rewrite Hsave.
  unfold saveLog, checkDuplicate. rewrite Hfile. cbn [readJson data_some].
  assert (Hdup : match data_some (msg_id msg) (DAtom a) with
                 | Ok b => b
                 | Throw _ => false
                 end = false) by now destruct a.
  cbn [data_some] in Hdup. rewrite Hdup.
  unfold bind, appendToJson, loadData. rewrite Hfile. cbn [readJson].
  destruct a as [| b | n | negative | s]; cbn; try (eexists; reflexivity).
  destruct (is_empty s); cbn; eexists; reflexivity.
Qed.

Lemma atom_log_blocks_archiving_witness :
  let env := Sample.provider None [Sample.alice] (fun _ => Ok []) in
  let w := {| files := {[ Sample.aliceLog := Json (DAtom ANull) ]}; trace := [] |} in
  exists e, processMessage env (Sample.photo Sample.alice "9") w
            = (Ok tt, emit (ProcessError e) w).
Proof.
  intros env w.
  apply (atom_log_blocks_archiving env (Sample.photo Sample.alice "9") w
           "15551234567" "2023-11-14T22:13:20.000Z" ANull); reflexivity.
Defined.

(** X8.  No exception leaves the message processor or the sync, in either
    variant of the driver: whatever the provider, the disk and the
    configuration, each ends normally, its failures turned into console
    lines. *)
Theorem driver_never_throws (env : Env) (msg : Message) (w : World) :
  fst (processMessage env msg w) = Ok tt
  /\ fst (Earlier.processMessage env msg w) = Ok tt
  /\ fst (syncRecentMessages env w) = Ok tt
  /\ fst (Earlier.syncRecentMessages env w) = Ok tt.
Proof.
  split; [ apply processMessage_ok | split; [ apply earlier_processMessage_ok | split ] ].
  - unfold syncRecentMessages, try_catch.
    destruct (bind _ _ w) as [[[] | e] w']; reflexivity.
  - unfold Earlier.syncRecentMessages, try_catch.
    destruct (bind _ _ w) as [[[] | e] w']; reflexivity.
Qed.

(** X9.  The group gate: when groups are not saved, a message of a group
    leaves the world exactly as it was, in both variants, and the sync
    neither fetches nor pauses for a group; over a listing of groups only
    it prints its opening line and ends. *)
Theorem group_gate (env : Env) (w : World) :
  (forall msg chat,
     msg_getChat msg = Ok chat -> skipped env chat = true ->
     processMessage env msg w = (Ok tt, w)
     /\ Earlier.processMessage env msg w = (Ok tt, w))
  /\ (forall chats,
        getChats env = Ok chats ->
        Forall (fun chat => skipped env chat = true) chats ->
        syncRecentMessages env w
        = (Ok tt, emit (FoundChats (length chats) (syncLimit (config env))) w)
        /\ Earlier.syncRecentMessages env w
           = (Ok tt, emit (FoundChats (length chats) (Earlier.syncLimit (config env))) w)).
Proof.
  split.
  - intros msg chat Hchat Hskip.
    unfold processMessage, Earlier.processMessage, try_catch, bind, lift.
    now rewrite Hchat, Hskip.
  - intros chats Hchats Hall.
    assert (Hnow : forall limit w', for_each chats (syncChat env limit) w' = (Ok tt, w')).
    { clear Hchats. intros limit.
      induction Hall as [| chat rest Hskip _ IH]; intros w'; [ reflexivity |].
      cbn [for_each]. unfold bind, syncChat. rewrite Hskip. apply IH. }
    assert (Hthen : forall w', for_each chats (Earlier.syncChat env) w' = (Ok tt, w')).
    { clear Hchats Hnow.
      induction Hall as [| chat rest Hskip _ IH]; intros w'; [ reflexivity |].
      cbn [for_each]. unfold bind, Earlier.syncChat. rewrite Hskip. apply IH. }
    unfold syncRecentMessages, Earlier.syncRecentMessages, try_catch.
    unfold bind at 1 3. unfold lift. rewrite Hchats.
    unfold bind, say. now rewrite Hnow, Hthen.
Qed.

Lemma group_gate_witness :
  let env := Sample.provider None [Sample.team] (fun _ => Ok []) in
  processMessage env (Sample.note Sample.team "5") Sample.blank = (Ok tt, Sample.blank)
  /\ syncRecentMessages env Sample.blank
     = (Ok tt, emit (FoundChats 1 (JNum 99999)) Sample.blank).
Proof.
  intros env. split.
  - apply (proj1 (group_gate env Sample.blank) (Sample.note Sample.team "5") Sample.team);
      reflexivity.
  - apply (proj2 (group_gate env Sample.blank) [Sample.team]); [ reflexivity |].
    constructor; [ reflexivity | constructor ].
Defined.

(** X10.  A message whose time stamp cannot be formatted as a date is
    dropped: [toISOString] throws before anything is written, and the only
    effect is the error line.  The same holds in the earlier variant once
    it has the folder name. *)
Theorem invalid_date_drops_message (env : Env) (msg : Message) (w : World)
    (chat : Chat) (e : string) :
  msg_getChat msg = Ok chat ->
  skipped env chat = false ->
  toISOString env (msg_timestamp msg * 1000) = Throw e ->
  processMessage env msg w = (Ok tt, emit (ProcessError e) w)
  /\ (forall base, Earlier.filenameBase chat msg = Ok base ->
                   Earlier.processMessage env msg w = (Ok tt, emit (ProcessError e) w)).
Proof.
  intros Hchat Hskip Hdate. split.
  - unfold processMessage, try_catch, bind, lift, archive. rewrite Hchat, Hskip.
    unfold bind, lift. now rewrite Hdate.
  - intros base Hbase.
    unfold Earlier.processMessage, try_catch, bind, lift, archive. rewrite Hchat, Hskip, Hbase.
    unfold bind, lift. now rewrite Hdate.
Qed.

Lemma invalid_date_drops_message_witness :
  let env := {| config := Sample.settings None; getContactById := Sample.card;
                getChats := Ok [Sample.alice]; fetchMessages := fun _ _ => Ok [];
                mime_extension := fun _ => None;
                toISOString := fun _ => Throw "Invalid time value" |} in
  processMessage env (Sample.note Sample.alice "1") Sample.blank
  = (Ok tt, emit (ProcessError "Invalid time value") Sample.blank).
Proof.
  intros env.
  apply (invalid_date_drops_message env (Sample.note Sample.alice "1") Sample.blank
           Sample.alice "Invalid time value"); reflexivity.
Defined.

(** X11.  Every message that reaches the archive ends up in the log of its
    conversation, once: after [processMessage] on a log this path wrote,
    the duplicate check finds the id, the ids of the log are still
    distinct, and a message whose id was there already leaves the array as
    it was, whatever the media branch does afterwards. *)
Theorem processed_message_is_logged (env : Env) (base : string)
    (kept : list Message) (w : World) (msg : Message) :
  SAVE_MESSAGES (config env) = true ->
  filed_under env base msg ->
  let logFile := logPath (BACKUP_DIR (config env)) base in
  holds logFile (isoOf env) kept w ->
  NoDup (msg_id <$> kept) ->
  let w' := snd (processMessage env msg w) in
  checkDuplicate (files w') logFile (msg_id msg) = true
  /\ msg_id msg ∈ log_ids (files w') logFile
  /\ NoDup (log_ids (files w') logFile)
  /\ (msg_id msg ∈ msg_id <$> kept ->
      stored_items (files w') logFile = stored_items (files w) logFile).
Proof.
  intros Hsave Hfiled logFile Hw Hkept w'.
  pose proof (processMessage_holds env base kept w msg Hsave Hfiled Hw) as Hw'.
  fold logFile in Hw'. fold w' in Hw'.
  rewrite (checkDuplicate_holds logFile (isoOf env) _ w' _ Hw').
  rewrite (log_ids_holds logFile (isoOf env) _ w' Hw').
  destruct (bool_decide_reflect (msg_id msg ∈ msg_id <$> kept)) as [Hin | Hnew].
  - split; [ now apply bool_decide_eq_true_2 |]. split; [ exact Hin |].
    split; [ exact Hkept |]. intros _.
    destruct Hw as [_ ->]. now destruct Hw' as [_ ->].
  - assert (Hnow : msg_id msg ∈ msg_id <$> kept ++ [msg]).
    { rewrite fmap_app, elem_of_app. right. left. }
    split; [ now apply bool_decide_eq_true_2 |]. split; [ exact Hnow |].
    split; [| now intros Hin ].
    rewrite fmap_app. apply NoDup_app. split; [ exact Hkept | split ].
    + intros x Hx Hx'. apply list_elem_of_singleton in Hx'. now subst x.
    + apply NoDup_singleton.
Qed.

Lemma processed_message_is_logged_witness :
  let env := Sample.provider None [Sample.alice] (fun _ => Ok []) in
  checkDuplicate
    (files (snd (processMessage env (Sample.photo Sample.alice "9") Sample.blank)))
    Sample.aliceLog "9" = true.
Proof.
  intros env.
  refine (proj1 (processed_message_is_logged env "15551234567" []
                   Sample.blank (Sample.photo Sample.alice "9") _ _ _ _)).
  - reflexivity.
  - reflexivity.
  - split.
    + intros a. simpl. rewrite lookup_empty. discriminate.
    + reflexivity.
  - constructor.
Defined.

(** X12.  When the contact of a direct conversation cannot be retrieved the
    two variants part: the current driver files the message under the
    fallback of the sender's address and logs it there; the earlier driver
    drops the message with an error line. *)
Theorem contact_failure_current_logs_earlier_drops
    (env : Env) (msg : Message) (chat : Chat) (e : string) (w : World) :
  msg_getChat msg = Ok chat ->
  chat_isGroup chat = false ->
  (forall iso kept,
     getContactById env (chat_serialized chat) = Throw e ->
     toISOString env (msg_timestamp msg * 1000) = Ok iso ->
     SAVE_MESSAGES (config env) = true ->
     let logFile := logPath (BACKUP_DIR (config env))
                            (phoneFallback chat (Some (msg_from msg))) in
     holds logFile (isoOf env) kept w ->
     msg_id msg ∈ log_ids (files (snd (processMessage env msg w))) logFile)
  /\ (msg_getContact msg = Throw e ->
      Earlier.processMessage env msg w = (Ok tt, emit (ProcessError e) w)).
Proof.
  intros Hchat Hdirect.
  assert (Hskip : skipped env chat = false) by (unfold skipped; now rewrite Hdirect).
  split.
  - intros iso kept Hlookup Hiso Hsave logFile Hw.
    assert (Hfiled : filed_under env (phoneFallback chat (Some (msg_from msg))) msg).
    { unfold filed_under, target, isoOf. rewrite Hchat, Hskip, Hiso.
      unfold getChatFilenameBase. now rewrite Hdirect, Hlookup. }
    pose proof (processMessage_holds env _ kept w msg Hsave Hfiled Hw) as Hw'.
    fold logFile in Hw'.
    rewrite (log_ids_holds logFile (isoOf env) _ _ Hw').
    destruct (bool_decide_reflect (msg_id msg ∈ msg_id <$> kept)) as [Hin | Hnew];
      [ exact Hin |].
    rewrite fmap_app, elem_of_app. right. left.
  - intros Hcontact.
    unfold Earlier.processMessage, try_catch, bind, lift. rewrite Hchat, Hskip.
    unfold Earlier.filenameBase. now rewrite Hdirect, Hcontact.
Qed.

Lemma contact_failure_witness :
  let env := {| config := Sample.settings None; getContactById := Sample.nobody;
                getChats := Ok [Sample.alice]; fetchMessages := fun _ _ => Ok [];
                mime_extension := fun _ => None;
                toISOString := fun _ => Ok "2023-11-14T22:13:20.000Z" |} in
  "1" ∈ log_ids (files (snd (processMessage env (Sample.note Sample.alice "1") Sample.blank)))
                "backup/chats/15551234567/messages.json".
Proof.
  intros env.
  refine (proj1 (contact_failure_current_logs_earlier_drops env
                   (Sample.note Sample.alice "1") Sample.alice "contact lookup failed"
                   Sample.blank eq_refl eq_refl)
                "2023-11-14T22:13:20.000Z" [] eq_refl eq_refl eq_refl _).
  split.
  - intros a. simpl. rewrite lookup_empty. discriminate.
  - reflexivity.
Defined.

Lemma try_bind_ok {S A B} (c : Async S A) (k : A -> Async S B)
    (handler : string -> Async S B) (w w1 : S) (a : A) :
  c w = (Ok a, w1) -> try_catch (bind c k) handler w = try_catch (k a) handler w1.
Proof. intros H. unfold try_catch, bind. now rewrite H. Qed.

(** X13.  A failed media download costs the media only: the failure is the
    last line printed, the log is what part A made of it, and no other
    file changes. *)
Theorem failed_download_keeps_log (env : Env) (msg : Message) (w : World)
    (base iso e : string) :
  target env msg = Some (base, iso) ->
  SAVE_MEDIA (config env) = true ->
  msg_hasMedia msg = true ->
  msg_downloadMedia msg = Throw e ->
  let logFile := logPath (BACKUP_DIR (config env)) base in
  (SAVE_MESSAGES (config env) = true -> healthy (files w) logFile) ->
  let w' := snd (processMessage env msg w) in
  last (trace w') = Some (MediaFailed (msg_id msg) e)
  /\ files w'
     = files (snd (when (SAVE_MESSAGES (config env)) (saveLog logFile base iso msg) w)).
Proof.
  intros Htarget Hmedia Hhas Hget logFile Hhealthy w'. subst w'.
  rewrite (processMessage_target env msg base iso w Htarget). fold logFile.
  rewrite Hmedia, Hhas. cbn [andb when].
  assert (Hlog : exists w1,
    when (SAVE_MESSAGES (config env)) (saveLog logFile base iso msg) w = (Ok tt, w1)).
  { destruct (SAVE_MESSAGES (config env)); [| now exists w ].
    cbn [when]. pose proof (saveLog_disk logFile base iso msg w) as Hdisk.
    destruct (logWrite_healthy (files w) logFile msg iso (Hhealthy eq_refl)) as [write E].
    rewrite E in Hdisk. destruct Hdisk as (w1 & Hrun & _). now exists w1. }
  destruct Hlog as (w1 & Hlog).
  rewrite (try_bind_ok _ _ _ w w1 tt Hlog), Hlog. cbn [snd].
  unfold saveMedia, when, bind, try_catch, lift, say. rewrite Hget.
  destruct (msg_isViewOnce msg); cbn [ret emit trace files fst snd];
    (split; [ apply last_snoc | reflexivity ]).
Qed.

Lemma failed_download_keeps_log_witness :
  let env := Sample.provider None [Sample.alice] (fun _ => Ok []) in
  let msg :=
    {| msg_id := "9"; msg_from := "15551234567@c.us"; msg_to := "15550009999@c.us";
       msg_author := None; msg_body := ""; msg_timestamp := 1700000000;
       msg_hasMedia := true; msg_fromMe := false; msg_isViewOnce := false;
       msg_getChat := Ok Sample.alice; msg_getContact := Sample.card "15551234567@c.us";
       msg_downloadMedia := Throw "download failed" |} in
  last (trace (snd (processMessage env msg Sample.blank)))
  = Some (MediaFailed "9" "download failed").
Proof.
  intros env msg.
  refine (proj1 (failed_download_keeps_log env msg Sample.blank "15551234567"
                   "2023-11-14T22:13:20.000Z" "download failed" _ _ _ _ _)); try reflexivity.
  intros _. split.
  - intros a. simpl. rewrite lookup_empty. discriminate.
  - unfold stored_items. simpl. rewrite lookup_empty. discriminate.
Defined.

(** ** Pacing of the sync *)

Lemma fetches_emit e w :
  fetches (trace (emit e w)) = fetches (trace w) + (if is_fetch e then 1 else 0).
Proof.
  unfold fetches. cbn [emit trace]. rewrite List.filter_app, length_app. cbn [List.filter].
  now destruct (is_fetch e).
Qed.

Lemma pauses_emit e w :
  pauses (trace (emit e w)) = pauses (trace w) + (if is_pause e then 1 else 0).
Proof.
  unfold pauses. cbn [emit trace]. rewrite List.filter_app, length_app. cbn [List.filter].
  now destruct (is_pause e).
Qed.

Lemma calm_ret {A} (a : A) : calm (ret a).
Proof. intros w. now split. Qed.

Lemma calm_lift {A} (r : result A) : calm (lift r).
Proof. intros w. now split. Qed.

Lemma calm_bind {A B} (c : M A) (k : A -> M B) :
  calm c -> (forall a, calm (k a)) -> calm (bind c k).
Proof.
  intros Hc Hk w. unfold bind. specialize (Hc w).
  destruct (c w) as [[a | e] w1]; cbn [snd] in *; [| exact Hc ].
  destruct (Hk a w1) as [Hf Hp]. destruct Hc as [Hf1 Hp1]. split; congruence.
Qed.

Lemma calm_try_catch {A} (body : M A) (handler : string -> M A) :
  calm body -> (forall e, calm (handler e)) -> calm (try_catch body handler).
Proof.
  intros Hb Hh w. unfold try_catch. specialize (Hb w).
  destruct (body w) as [[a | e] w1]; cbn [snd] in *; [ exact Hb |].
  destruct (Hh e w1) as [Hf Hp]. destruct Hb as [Hf1 Hp1]. split; congruence.
Qed.

Lemma calm_say e : is_fetch e = false -> is_pause e = false -> calm (say e).
Proof.
  intros Hf Hp w. unfold say. cbn [snd].
  rewrite fetches_emit, pauses_emit, Hf, Hp. now rewrite !Nat.add_0_r.
Qed.

Lemma calm_when b (c : M unit) : calm c -> calm (when b c).
Proof. intros Hc. destruct b; [ exact Hc | apply calm_ret ]. Qed.

Lemma calm_appendToJson path newData : calm (appendToJson path newData).
Proof.
  intros w. unfold appendToJson.
  destruct (latest_is _ _) as [[] | e]; [ now split | | now split ].
  unfold pushAndWrite. destruct (loadData (files w) path); now split.
Qed.

Lemma calm_saveLog logFile base iso msg : calm (saveLog logFile base iso msg).
Proof.
  intros w. unfold saveLog.
  destruct (checkDuplicate (files w) logFile (msg_id msg)); [ now split |].
  apply calm_bind; [ apply calm_appendToJson | intros _; now apply calm_say ].
Qed.

Lemma calm_saveMedia env mediaDir base msg : calm (saveMedia env mediaDir base msg).
Proof.
  unfold saveMedia. apply calm_bind.
  - apply calm_when. now apply calm_say.
  - intros _. apply calm_try_catch; [| intros e; now apply calm_say ].
    apply calm_bind; [ apply calm_lift |].
    intros [media |]; [| apply calm_ret ].
    apply calm_bind; [ intros w; now split |].
    intros [|]; [ apply calm_ret |].
    apply calm_bind; [ intros w; now split | intros _; now apply calm_say ].
Qed.

Lemma calm_processMessage env msg : calm (processMessage env msg).
Proof.
  unfold processMessage. apply calm_try_catch; [| intros e; now apply calm_say ].
  apply calm_bind; [ apply calm_lift |]. intros chat.
  destruct (skipped env chat); [ apply calm_ret |].
  unfold archive. apply calm_bind; [ apply calm_lift |]. intros iso.
  apply calm_bind.
  - apply calm_when, calm_saveLog.
  - intros _. apply calm_when, calm_saveMedia.
Qed.

Lemma calm_for_each {A} (body : A -> M unit) (xs : list A) :
  (forall x, calm (body x)) -> calm (for_each xs body).
Proof.
  intros Hbody. induction xs as [| x rest IH]; [ apply calm_ret |].
  cbn [for_each]. apply calm_bind; [ apply Hbody | intros _; exact IH ].
Qed.

(** One turn of the loop: a fetch and a pause, unless the conversation is
    skipped. *)
Lemma syncChat_paces env limit chat w :
  fetchable env {| opt_limit := limit; opt_fromMe := Some true |} chat ->
  exists w',
    syncChat env limit chat w = (Ok tt, w')
    /\ fetches (trace w') = fetches (trace w) + (if skipped env chat then 0 else 1)
    /\ pauses (trace w') = pauses (trace w) + (if skipped env chat then 0 else 1).
Proof.
  intros Hchat. unfold syncChat. destruct (skipped env chat) eqn:Hskip.
  - exists w. cbn [ret]. now rewrite !Nat.add_0_r.
  - destruct Hchat as [Hchat | [msgs Hfetch]]; [ congruence |].
    unfold bind at 1. unfold say at 1. unfold bind at 1. unfold lift. rewrite Hfetch.
    unfold bind.
    set (w0 := emit _ w).
    pose proof (calm_for_each (processMessage env) (rev msgs)
                  (calm_processMessage env) w0) as [Hf Hp].
    pose proof (for_each_ok (processMessage env) (rev msgs)
                  (fun x w1 _ => processMessage_ok env x w1) w0) as Hok.
    destruct (for_each (rev msgs) (processMessage env) w0) as [[[] | e] w1];
      [| discriminate Hok ].
    cbn [snd] in Hf, Hp. unfold say. eexists. split; [ reflexivity |].
    rewrite fetches_emit, pauses_emit, Hf, Hp. subst w0.
    rewrite fetches_emit, pauses_emit. cbn [is_fetch is_pause Z.eqb Pos.eqb].
    split; lia.
Qed.

(** X14.  Pacing: in a sync of the current driver whose fetches all
    succeed, the trace gains exactly one fetch and one pause of 500 ms for
    each conversation the group gate lets through, and none for the work
    on the messages. *)
Theorem sync_fetches_and_pauses_once_per_chat (env : Env) (chats : list Chat) (w : World) :
  getChats env = Ok chats ->
  Forall (fetchable env (fetchOptions (config env))) chats ->
  let after := trace (snd (syncRecentMessages env w)) in
  fetches after = fetches (trace w) + length (synced env chats)
  /\ pauses after = pauses (trace w) + length (synced env chats).
Proof.
  intros Hchats Hall after. subst after.
  set (limit := syncLimit (config env)).
  assert (Hloop : forall w0, exists w1,
    for_each chats (syncChat env limit) w0 = (Ok tt, w1)
    /\ fetches (trace w1) = fetches (trace w0) + length (synced env chats)
    /\ pauses (trace w1) = pauses (trace w0) + length (synced env chats)).
  { clear Hchats. induction Hall as [| chat rest Hchat _ IH]; intros w0.
    - exists w0. cbn. repeat split; lia.
    - cbn [for_each]. unfold bind.
      destruct (syncChat_paces env limit chat w0 Hchat) as (w1 & -> & Hf & Hp).
      destruct (IH w1) as (w2 & -> & IHf & IHp).
      exists w2. split; [ reflexivity |].
      rewrite IHf, IHp, Hf, Hp. unfold synced. cbn [List.filter].
      destruct (skipped env chat); cbn [negb length]; split; lia. }
  unfold syncRecentMessages, try_catch, bind, lift, say. rewrite Hchats. fold limit.
  destruct (Hloop (emit (FoundChats (length chats) limit) w)) as (w1 & -> & Hf & Hp).
  cbn [snd]. rewrite Hf, Hp, fetches_emit, pauses_emit. cbn. split; lia.
Qed.

Lemma sync_fetches_and_pauses_witness :
  fetches (trace (snd (syncRecentMessages Sample.newest_first Sample.blank))) = 1
  /\ pauses (trace (snd (syncRecentMessages Sample.newest_first Sample.blank))) = 1.
Proof.
  apply (sync_fetches_and_pauses_once_per_chat Sample.newest_first [Sample.alice]
           Sample.blank eq_refl).
  constructor; [| constructor ]. right. eexists. reflexivity.
Defined.

(** ** The viewer, on every input *)

Lemma closes_app out out' : closes (out ++ out') = closes out + closes out'.
Proof. unfold closes. now rewrite List.filter_app, length_app. Qed.

Lemma closes_cons o out : closes (o :: out) = (if is_close o then 1 else 0) + closes out.
Proof. unfold closes. cbn [List.filter]. now destruct (is_close o). Qed.

Lemma menu_quiet folders : forall number, closes (menu number folders) = 0.
Proof. induction folders as [| f rest IH]; intros number; [ reflexivity | apply IH ]. Qed.

Lemma entries_quiet items : forall number, closes (entries number items) = 0.
Proof.
  induction items as [| m rest IH]; intros number; [ reflexivity |].
  cbn [entries]. rewrite closes_app, IH. reflexivity.
Qed.

Lemma begun_quiet number m : closes (begun number m) = 0.
Proof. unfold begun. now destruct (opens m). Qed.

Lemma printFolders_menu folders : forall number out,
  Viewer.printFolders number folders out = (Ok tt, out ++ menu number folders).
Proof.
  induction folders as [| folder rest IH]; intros number out.
  - cbn. now rewrite app_nil_r.
  - cbn [Viewer.printFolders menu]. unfold bind, Viewer.print.
    rewrite IH. now rewrite <- app_assoc.
Qed.

Lemma get_field key m : m <> JNull -> Viewer.get key m = Ok (Viewer.field key m).
Proof. destruct m as [[] | |]; intros H; try reflexivity. now contradiction H. Qed.

Lemma upperCase_ok v :
  upper_ok v = true ->
  Viewer.upperCase v
  = Ok (match v with
        | Some (JAtom (AStr s)) => if is_empty s then None else Some s
        | _ => None
        end).
Proof. destruct v as [[[] | |] |]; intros H; try reflexivity; discriminate H. Qed.

Lemma upperCase_throws v : upper_ok v = false -> Viewer.upperCase v = Throw type_error_call.
Proof. destruct v as [[[] | |] |]; intros H; try reflexivity; discriminate H. Qed.

(** The callback on a record: the whole entry for a sound record; the
    first two lines and a TypeError when only the body fails to convert;
    a TypeError and no line otherwise. *)
Lemma printEntry_run number m out :
  exists e,
    Viewer.printEntry number m out
    = if opens m then
        if Viewer.coerces (Viewer.field "body" m) then (Ok tt, out ++ entry number m)
        else (Throw type_error_primitive, out ++ opening number m)
      else (Throw e, out).
Proof.
  destruct (json_null_dec m) as [-> | Hm]; [ now eexists |].
  assert (Hopens : opens m
    = Viewer.coerces (Viewer.field "timestamp" m)
      && (js_truthy (Viewer.field "isSentByMe" m) || Viewer.coerces (Viewer.field "author" m))
      && (negb (js_truthy (Viewer.field "hasMedia" m))
          || upper_ok (Viewer.field "mediaType" m))).
  { destruct m as [[] | |]; try reflexivity. now contradiction Hm. }
  rewrite Hopens. clear Hopens.
  unfold entry, opening, sender_of, label_of.
  unfold Viewer.printEntry. unfold bind at 1. unfold lift at 1.
  rewrite (get_field "timestamp" m Hm).
  unfold bind at 1. unfold lift at 1. unfold Viewer.toPrimitive at 1.
  destruct (Viewer.coerces (Viewer.field "timestamp" m)); cbn [andb]; [| now eexists ].
  unfold bind at 1.
  assert (Hrest : forall who label,
    (Viewer.print (Viewer.EntryTime number (Viewer.field "timestamp" m)) ;;;
     Viewer.print (Viewer.EntrySender who) ;;;
     lift (Viewer.toPrimitive (Viewer.field "body" m)) ;;;
     Viewer.print (Viewer.EntryText (Viewer.field "body" m) label) ;;;
     Viewer.print Viewer.EntryRule) out
    = if Viewer.coerces (Viewer.field "body" m)
      then (Ok tt, out ++ [Viewer.EntryTime number (Viewer.field "timestamp" m);
                           Viewer.EntrySender who]
                       ++ [Viewer.EntryText (Viewer.field "body" m) label; Viewer.EntryRule])
      else (Throw type_error_primitive,
            out ++ [Viewer.EntryTime number (Viewer.field "timestamp" m);
                    Viewer.EntrySender who])).
  { intros who label. unfold bind, Viewer.print, lift, Viewer.toPrimitive.
    destruct (Viewer.coerces (Viewer.field "body" m)); now rewrite <- !app_assoc. }
  assert (Hlabel : forall who,
    (let* mediaLabel :=
       (if js_truthy (Viewer.field "hasMedia" m) then
          let* type := lift (Viewer.upperCase (Viewer.field "mediaType" m)) in
          ret (Some {| Viewer.label_type := type;
                       Viewer.label_viewOnce := js_truthy (Viewer.field "isViewOnce" m) |})
        else ret None) in
     Viewer.print (Viewer.EntryTime number (Viewer.field "timestamp" m)) ;;;
     Viewer.print (Viewer.EntrySender who) ;;;
     lift (Viewer.toPrimitive (Viewer.field "body" m)) ;;;
     Viewer.print (Viewer.EntryText (Viewer.field "body" m) mediaLabel) ;;;
     Viewer.print Viewer.EntryRule) out
    = if negb (js_truthy (Viewer.field "hasMedia" m)) || upper_ok (Viewer.field "mediaType" m)
      then
        if Viewer.coerces (Viewer.field "body" m)
        then (Ok tt, out ++ [Viewer.EntryTime number (Viewer.field "timestamp" m);
                             Viewer.EntrySender who]
                         ++ [Viewer.EntryText (Viewer.field "body" m) (label_of m);
                             Viewer.EntryRule])
        else (Throw type_error_primitive,
              out ++ [Viewer.EntryTime number (Viewer.field "timestamp" m);
                      Viewer.EntrySender who])
      else (Throw type_error_call, out)).
  { intros who. unfold bind at 1. unfold label_of.
    destruct (js_truthy (Viewer.field "hasMedia" m)); cbn [negb orb].
    - unfold bind at 1. unfold lift at 1.
      destruct (upper_ok (Viewer.field "mediaType" m)) eqn:Hupper.
      + rewrite (upperCase_ok _ Hupper). unfold ret at 1. apply Hrest.
      + now rewrite (upperCase_throws _ Hupper).
    - unfold ret at 1. apply Hrest. }
  destruct (js_truthy (Viewer.field "isSentByMe" m)); cbn [orb andb].
  - unfold ret at 1. rewrite Hlabel.
    destruct (_ || _); [ now exists "" | now eexists ].
  - unfold bind at 1. unfold lift at 1. unfold Viewer.toPrimitive at 1.
    destruct (Viewer.coerces (Viewer.field "author" m)); cbn [andb]; [| now eexists ].
    unfold ret at 1. rewrite Hlabel.
    destruct (_ || _); [ now exists "" | now eexists ].
Qed.

Lemma printEntry_cases number m out :
  (sound m = true -> Viewer.printEntry number m out = (Ok tt, out ++ entry number m))
  /\ (opens m = true -> sound m = false ->
      Viewer.printEntry number m out = (Throw type_error_primitive, out ++ opening number m))
  /\ (opens m = false -> exists e, Viewer.printEntry number m out = (Throw e, out)).
Proof.
  destruct (printEntry_run number m out) as [e ->]. unfold sound.
  destruct (opens m); cbn [andb].
  - destruct (Viewer.coerces (Viewer.field "body" m)).
    + split; [ reflexivity | split; discriminate ].
    + split; [ discriminate | split; [ reflexivity | discriminate ] ].
  - split; [ discriminate | split; [ discriminate |] ]. intros _. now exists e.
Qed.

(** The loop over the records prints them in order and stops at the first
    one whose callback throws. *)
Lemma printMessages_entries items : forall number out,
  all_printable items ->
  Viewer.printMessages number items out = (Ok tt, out ++ entries number items).
Proof.
  induction items as [| m rest IH]; intros number out Hall.
  - cbn. now rewrite app_nil_r.
  - inversion Hall as [| ? ? Hm Hrest]; subst.
    cbn [Viewer.printMessages entries]. unfold bind.
    rewrite (proj1 (printEntry_cases number m out) Hm), (IH _ _ Hrest).
    now rewrite <- app_assoc.
Qed.

Lemma printMessages_stops good bad rest : forall number out,
  all_printable good ->
  sound bad = false ->
  exists e,
    Viewer.printMessages number (good ++ bad :: rest) out
    = (Throw e, out ++ entries number good ++ begun (number + length good) bad)
    /\ (opens bad = true -> e = type_error_primitive).
Proof.
  induction good as [| m good' IH]; intros number out Hall Hbad.
  - cbn [app Viewer.printMessages entries length]. rewrite Nat.add_0_r.
    unfold bind, begun.
    destruct (printEntry_cases number bad out) as (_ & Hlate & Hearly).
    destruct (opens bad).
    + exists type_error_primitive. now rewrite (Hlate eq_refl Hbad).
    + destruct (Hearly eq_refl) as [e ->]. exists e.
      split; [ now rewrite app_nil_r | discriminate ].
  - inversion Hall as [| ? ? Hm Hrest]; subst.
    cbn [app Viewer.printMessages entries length]. unfold bind.
    rewrite (proj1 (printEntry_cases number m out) Hm).
    destruct (IH (S number) (out ++ entry number m) Hrest Hbad) as (e & -> & He).
    exists e. split; [| exact He ].
    rewrite Nat.add_succ_r, <- !app_assoc. reflexivity.
Qed.

(** A list of records is printable throughout, or it splits at its first
    record that is not. *)
Lemma first_unprintable items :
  all_printable items
  \/ exists good bad rest,
       items = good ++ bad :: rest /\ all_printable good /\ sound bad = false.
Proof.
  induction items as [| m rest IH]; [ left; constructor |].
  destruct (sound m) eqn:Hm.
  - destruct IH as [Hall | (good & bad & rest' & -> & Hgood & Hbad)].
    + left. now constructor.
    + right. exists (m :: good), bad, rest'. repeat split; [| exact Hbad ].
      now constructor.
  - right. exists [], m, rest. repeat split; [ constructor | exact Hm ].
Qed.

(** The split at the first record that is not sound is unique. *)
Lemma first_unprintable_unique good bad rest good' bad' rest' :
  good ++ bad :: rest = good' ++ bad' :: rest' ->
  all_printable good -> sound bad = false ->
  all_printable good' -> sound bad' = false ->
  good' = good /\ bad' = bad.
Proof.
  revert good'. induction good as [| m good IH]; intros good' Hsplit Hgood Hbad Hgood' Hbad'.
  - destruct good' as [| m' good'].
    + cbn in Hsplit. injection Hsplit as <- _. now split.
    + cbn in Hsplit. injection Hsplit as -> _.
      inversion Hgood' as [| ? ? Hm _]; subst. congruence.
  - inversion Hgood as [| ? ? Hm Hrest]; subst.
    destruct good' as [| m' good'].
    + cbn in Hsplit. injection Hsplit as <- _. congruence.
    + cbn in Hsplit. injection Hsplit as <- Hsplit.
      inversion Hgood' as [| ? ? _ Hrest']; subst.
      destruct (IH good' Hsplit Hrest Hbad Hrest' Hbad') as [-> ->]. now split.
Qed.

(** What [displayChat] prints, case by case. *)
Lemma displayChat_cases i chatName out :
  let messagesFile := path_join [Viewer.backupDir i; chatName; "messages.json"] in
  exists shown,
    Viewer.displayChat i chatName out = (Ok tt, out ++ shown ++ [Viewer.Close])
    /\ closes shown = 0
    /\ match Viewer.disk i !! messagesFile with
       | None => shown = [Viewer.NoMessagesFound]
       | Some (Raw _) => exists e, shown = [Viewer.ErrorDisplayingChat e]
       | Some (Json (DAtom _)) =>
           exists e, shown = [Viewer.ChatHeader chatName; Viewer.ErrorDisplayingChat e]
       | Some (Json (DArr items)) =>
           (all_printable items ->
            shown = Viewer.ChatHeader chatName :: entries 1 items
                    ++ [Viewer.TotalMessages (length items)])
           /\ (forall good bad rest,
                 items = good ++ bad :: rest -> all_printable good ->
                 sound bad = false ->
                 exists e,
                   shown = Viewer.ChatHeader chatName :: entries 1 good
                           ++ begun (S (length good)) bad
                           ++ [Viewer.ErrorDisplayingChat e]
                   /\ (opens bad = true -> e = type_error_primitive))
       end.
Proof.
  intros messagesFile. unfold Viewer.displayChat, try_catch. cbv zeta. fold messagesFile.
  destruct (Viewer.disk i !! messagesFile) as [[content | [a | items]] |].
  - exists [Viewer.ErrorDisplayingChat "Unexpected token in JSON"].
    split; [ unfold bind, lift, Viewer.print; cbn; now rewrite <- app_assoc |].
    split; [ reflexivity | now eexists ].
  - exists [Viewer.ChatHeader chatName;
            Viewer.ErrorDisplayingChat (match a with ANull => type_error_null
                                                    | _ => type_error_call end)].
    split; [| split; [ reflexivity | now eexists ] ].
    unfold bind, lift, Viewer.print, throw. cbn [readJson].
    destruct a; cbn; now rewrite <- !app_assoc.
  - destruct (first_unprintable items) as [Hall | (good & bad & rest & -> & Hgood & Hbad)].
    + exists (Viewer.ChatHeader chatName :: entries 1 items
              ++ [Viewer.TotalMessages (length items)]).
      split; [| split; [| split ] ].
      * unfold bind at 1. unfold lift. cbn [readJson].
        unfold bind at 1. unfold Viewer.print at 1. unfold bind at 1.
        rewrite (printMessages_entries items 1 _ Hall).
        unfold bind, Viewer.print. cbn [app]. now rewrite <- !app_assoc.
      * rewrite closes_cons, closes_app, entries_quiet. reflexivity.
      * reflexivity.
      * intros good bad rest -> Hgood Hbad. exfalso.
        unfold all_printable in Hall. rewrite Forall_app in Hall.
        destruct Hall as [_ Hall]. inversion Hall as [| ? ? Hb _]; subst. congruence.
    + destruct (printMessages_stops good bad rest 1 (out ++ [Viewer.ChatHeader chatName])
                  Hgood Hbad) as (e & Hstop & He).
      exists (Viewer.ChatHeader chatName :: entries 1 good
              ++ begun (S (length good)) bad ++ [Viewer.ErrorDisplayingChat e]).
      split; [| split; [| split ] ].
      * unfold bind at 1. unfold lift. cbn [readJson].
        unfold bind at 1. unfold Viewer.print at 1. unfold bind at 1.
        rewrite Hstop.
        unfold bind, Viewer.print. cbn [app Nat.add]. now rewrite <- !app_assoc.
      * rewrite closes_cons, !closes_app, entries_quiet, begun_quiet. reflexivity.
      * intros Hall. exfalso.
        unfold all_printable in Hall. rewrite Forall_app in Hall.
        destruct Hall as [_ Hall]. inversion Hall as [| ? ? Hb _]; subst. congruence.
      * intros good' bad' rest' Hsplit Hgood' Hbad'.
        destruct (first_unprintable_unique good bad rest good' bad' rest'
                    Hsplit Hgood Hbad Hgood' Hbad') as [-> ->].
        exists e. now split.
  - exists [Viewer.NoMessagesFound].
    split; [ unfold bind, Viewer.print; now rewrite <- app_assoc |].
    split; reflexivity.
Qed.

Lemma run_menu i folder rest :
  Viewer.readdir i = Ok (folder :: rest) ->
  Viewer.run i
  = Viewer.onAnswer i (folder :: rest)
      (Viewer.AvailableChats :: menu 1 (folder :: rest) ++ [Viewer.Question]).
Proof.
  intros Hdir. unfold Viewer.run, Viewer.listChats.
  unfold bind at 1. unfold try_catch. unfold bind at 1. unfold lift. rewrite Hdir.
  unfold bind at 1. unfold Viewer.print at 1. unfold bind at 1.
  rewrite printFolders_menu. unfold bind, Viewer.print, ret. reflexivity.
Qed.

Lemma selection_in_range (folders : list string) num :
  ((0 <? num) && (num <=? Z.of_nat (length folders)))%Z = true ->
  is_Some (folders !! Z.to_nat (num - 1)).
Proof.
  intros H. apply andb_true_iff in H as [Hlo Hhi].
  apply Z.ltb_lt in Hlo. apply Z.leb_le in Hhi.
  apply lookup_lt_is_Some. lia.
Qed.

Lemma onAnswer_cases i folders out :
  exists shown,
    Viewer.onAnswer i folders out = (Ok tt, out ++ shown ++ [Viewer.Close])
    /\ closes shown = 0.
Proof.
  assert (Hinvalid :
    (bind (Viewer.print Viewer.InvalidSelection) (fun _ => Viewer.print Viewer.Close)) out
    = (Ok tt, out ++ [Viewer.InvalidSelection] ++ [Viewer.Close])).
  { unfold bind, Viewer.print. now rewrite <- app_assoc. }
  unfold Viewer.onAnswer.
  destruct (Viewer.answer i) as [[| num | num] |].
  - exists []. split; reflexivity.
  - destruct (_ && _)%bool eqn:Hguard.
    + destruct (selection_in_range folders _ Hguard) as [chat ->].
      destruct (displayChat_cases i chat out) as (shown & E & Hquiet & _).
      now exists shown.
    + now exists [Viewer.InvalidSelection].
  - destruct (_ && _)%bool eqn:Hguard; [ discriminate Hguard |].
    now exists [Viewer.InvalidSelection].
  - now exists [Viewer.InvalidSelection].
Qed.

(** X15.  Whatever the directory, the files and the answer, the viewer
    ends normally: it throws nothing, it calls [rl.close()] exactly once,
    and that call is the last thing it does. *)
Theorem viewer_always_closes_once (i : Viewer.Input) :
  fst (Viewer.run i) = Ok tt
  /\ last (snd (Viewer.run i)) = Some Viewer.Close
  /\ closes (snd (Viewer.run i)) = 1.
Proof.
  assert (Hshape : exists shown,
    Viewer.run i = (Ok tt, shown ++ [Viewer.Close]) /\ closes shown = 0).
  { destruct (Viewer.readdir i) as [[| folder rest] | e] eqn:Hdir.
    - exists [Viewer.NoChatsFound]. split; [| reflexivity ].
      unfold Viewer.run, Viewer.listChats, try_catch, bind, lift. now rewrite Hdir.
    - rewrite (run_menu i folder rest Hdir).
      destruct (onAnswer_cases i (folder :: rest)
                  (Viewer.AvailableChats :: menu 1 (folder :: rest) ++ [Viewer.Question]))
        as (shown & -> & Hquiet).
      eexists. split; [ now rewrite app_assoc |].
      rewrite closes_app, closes_cons, closes_app, menu_quiet, Hquiet. reflexivity.
    - exists [Viewer.ErrorReadingChats e]. split; [| reflexivity ].
      unfold Viewer.run, Viewer.listChats, try_catch, bind, lift. now rewrite Hdir. }
  destruct Hshape as (shown & -> & Hquiet). cbn [fst snd].
  split; [ reflexivity |]. split; [ apply last_snoc |].
  rewrite closes_app, Hquiet. reflexivity.
Qed.

(** The records the driver writes are sound: their members are strings
    and booleans, and they carry no media type. *)
Lemma records_printable iso kept : all_printable (record_of iso <$> kept).
Proof.
  induction kept as [| msg kept IH]; [ constructor |].
  rewrite fmap_cons. constructor; [| exact IH ].
  unfold record_of, messageData, sound, opens. cbn.
  destruct (msg_fromMe msg), (msg_hasMedia msg); reflexivity.
Qed.

(** X16.  What the driver archives, the viewer displays: on a log that
    holds the records the archival path wrote for the messages [kept], the
    viewer prints the header, every record in file order numbered from 1,
    the total, which is the number of messages kept, and closes. *)
Theorem viewer_displays_driver_log (i : Viewer.Input) (chatName : string)
    (iso : Message -> string) (kept : list Message) (w : World)
    (out : list Viewer.output) :
  let messagesFile := path_join [Viewer.backupDir i; chatName; "messages.json"] in
  holds messagesFile iso kept w ->
  kept <> [] ->
  Viewer.disk i = files w ->
  Viewer.displayChat i chatName out
  = (Ok tt, out ++ Viewer.ChatHeader chatName :: entries 1 (record_of iso <$> kept)
                ++ [Viewer.TotalMessages (length kept); Viewer.Close]).
Proof.
  intros messagesFile [_ Hitems] Hkept Hdisk.
  destruct (displayChat_cases i chatName out) as (shown & -> & _ & Hshown).
  cbv zeta in Hshown. fold messagesFile in Hshown. rewrite Hdisk in Hshown.
  unfold stored_items in Hitems.
  destruct (files w !! messagesFile) as [[content | [a | items]] |];
    try (destruct kept; [ now contradiction Hkept | discriminate Hitems ]).
  subst items. destruct Hshown as [Hall _].
  rewrite (Hall (records_printable iso kept)), length_fmap.
  cbn [app]. now rewrite <- app_assoc.
Qed.

Lemma viewer_displays_driver_log_witness :
  let i := {| Viewer.dirname := ""; Viewer.readdir := Ok ["15551234567"];
              Viewer.disk :=
                files (snd (feed Sample.aliceLog "15551234567"
                                 (fun _ => "2023-11-14T22:13:20.000Z")
                                 [Sample.note Sample.alice "1"] Sample.blank));
              Viewer.answer := Some 1%Z |} in
  closes (snd (Viewer.displayChat i "15551234567" [])) = 1.
Proof.
  intros i.
  rewrite (viewer_displays_driver_log i "15551234567" (fun _ => "2023-11-14T22:13:20.000Z")
             [Sample.note Sample.alice "1"]
             (snd (feed Sample.aliceLog "15551234567" (fun _ => "2023-11-14T22:13:20.000Z")
                        [Sample.note Sample.alice "1"] Sample.blank)) []).
  - reflexivity.
  - split.
    + intros a. vm_compute. discriminate.
    + vm_compute. reflexivity.
  - discriminate.
  - reflexivity.
Defined.

(** X17.  On a damaged log the viewer reports and closes, and prints no
    total.  A file that does not parse gives the error line alone.  A log
    whose first record that cannot be printed stands after the records
    [good] shows the header and the entries of [good]; then, when the
    entry of that record cannot be begun (the record is [null], its time
    stamp or its author does not convert to a primitive, or its media type
    is neither a string nor absent) the error line follows at once; when
    only its body does not convert, the first two lines of its entry are
    printed before the error line. *)
Theorem viewer_stops_at_damage (i : Viewer.Input) (chatName : string)
    (out : list Viewer.output) :
  let messagesFile := path_join [Viewer.backupDir i; chatName; "messages.json"] in
  (forall content,
     Viewer.disk i !! messagesFile = Some (Raw content) ->
     exists e, Viewer.displayChat i chatName out
               = (Ok tt, out ++ [Viewer.ErrorDisplayingChat e; Viewer.Close]))
  /\ (forall good bad rest,
        Viewer.disk i !! messagesFile = Some (Json (DArr (good ++ bad :: rest))) ->
        all_printable good ->
        opens bad = false ->
        exists e,
          Viewer.displayChat i chatName out
          = (Ok tt, out ++ Viewer.ChatHeader chatName :: entries 1 good
                        ++ [Viewer.ErrorDisplayingChat e; Viewer.Close]))
  /\ (forall good bad rest,
        Viewer.disk i !! messagesFile = Some (Json (DArr (good ++ bad :: rest))) ->
        all_printable good ->
        opens bad = true ->
        Viewer.coerces (Viewer.field "body" bad) = false ->
        Viewer.displayChat i chatName out
        = (Ok tt, out ++ Viewer.ChatHeader chatName :: entries 1 good
                      ++ opening (S (length good)) bad
                      ++ [Viewer.ErrorDisplayingChat type_error_primitive; Viewer.Close])).
Proof.
  intros messagesFile.
  destruct (displayChat_cases i chatName out) as (shown & -> & _ & Hshown).
  cbv zeta in Hshown. fold messagesFile in Hshown.
  split; [| split ].
  - intros content Hfile. rewrite Hfile in Hshown. destruct Hshown as [e ->].
    now exists e.
  - intros good bad rest Hfile Hgood Hbad. rewrite Hfile in Hshown.
    destruct Hshown as [_ Hstop].
    assert (Hsound : sound bad = false) by (unfold sound; now rewrite Hbad).
    destruct (Hstop good bad rest eq_refl Hgood Hsound) as (e & -> & _).
    exists e. unfold begun. rewrite Hbad. cbn [app]. now rewrite <- app_assoc.
  - intros good bad rest Hfile Hgood Hopens Hbody. rewrite Hfile in Hshown.
    destruct Hshown as [_ Hstop].
    assert (Hsound : sound bad = false) by (unfold sound; now rewrite Hopens, Hbody).
    destruct (Hstop good bad rest eq_refl Hgood Hsound) as (e & -> & He).
    rewrite (He Hopens). unfold begun. rewrite Hopens.
    cbn [app]. now rewrite <- !app_assoc.
Qed.

Lemma viewer_stops_at_damage_witness :
  let first := JObj [("id", JStr "1"); ("body", JStr "hello")] in
  let second := JObj [("id", JStr "2"); ("body", JObj [("toString", JNum 1)])] in
  let i := {| Viewer.dirname := ""; Viewer.readdir := Ok ["a"];
              Viewer.disk := {[ "backup/chats/a/messages.json"
                                := Json (DArr [first; second; first]) ]};
              Viewer.answer := Some 1%Z |} in
  Viewer.displayChat i "a" []
  = (Ok tt, [Viewer.ChatHeader "a";
             Viewer.EntryTime 1 None; Viewer.EntrySender (Viewer.Them None);
             Viewer.EntryText (Some (JStr "hello")) None; Viewer.EntryRule;
             Viewer.EntryTime 2 None; Viewer.EntrySender (Viewer.Them None);
             Viewer.ErrorDisplayingChat type_error_primitive; Viewer.Close]).
Proof.
  intros first second i.
  apply (proj2 (proj2 (viewer_stops_at_damage i "a" [])) [first] second [first]).
  - reflexivity.
  - constructor; [ reflexivity | constructor ].
  - reflexivity.
  - reflexivity.
Defined.

(** X18.  The menu and the answers it turns down.  A listing that is not
    empty is printed folder by folder, numbered from 1 in the order of the
    listing, before the question.  The answer 0 closes the viewer; an
    answer that is no number, is negative or exceeds the number of folders
    is reported as invalid, and what is printed does not depend on the
    files. *)
Theorem viewer_menu_and_rejections (i : Viewer.Input) (folders : list string) :
  Viewer.readdir i = Ok folders ->
  folders <> [] ->
  let asked := Viewer.AvailableChats :: menu 1 folders ++ [Viewer.Question] in
  (Viewer.answer i = Some 0%Z -> Viewer.run i = (Ok tt, asked ++ [Viewer.Close]))
  /\ (Viewer.answer i = None
      \/ (exists num, Viewer.answer i = Some num
                      /\ (num < 0 \/ Z.of_nat (length folders) < num)%Z) ->
      Viewer.run i = (Ok tt, asked ++ [Viewer.InvalidSelection; Viewer.Close])).
Proof.
  intros Hdir Hne asked.
  destruct folders as [| folder rest]; [ now contradiction Hne |].
  rewrite (run_menu i folder rest Hdir). fold asked.
  assert (Hinvalid :
    (bind (Viewer.print Viewer.InvalidSelection) (fun _ => Viewer.print Viewer.Close)) asked
    = (Ok tt, asked ++ [Viewer.InvalidSelection; Viewer.Close])).
  { unfold bind, Viewer.print. now rewrite <- app_assoc. }
  unfold Viewer.onAnswer. split.
  - now intros ->.
  - intros [-> | (num & -> & Hrange)]; [ exact Hinvalid |].
    destruct num as [| num | num]; [ lia | | ].
    + assert (Hguard : ((0 <? Z.pos num) && (Z.pos num <=? Z.of_nat (length (folder :: rest))))%Z
                       = false).
      { apply andb_false_iff. right. apply Z.leb_gt. lia. }
      now rewrite Hguard.
    + assert (Hguard : ((0 <? Z.neg num) && (Z.neg num <=? Z.of_nat (length (folder :: rest))))%Z
                       = false) by reflexivity.
      now rewrite Hguard.
Qed.

Lemma viewer_menu_and_rejections_witness :
  Viewer.run {| Viewer.dirname := ""; Viewer.readdir := Ok ["a"; "b"];
                Viewer.disk := ∅; Viewer.answer := Some 7%Z |}
  = (Ok tt, [Viewer.AvailableChats; Viewer.ChatItem 1 "a"; Viewer.ChatItem 2 "b";
             Viewer.Question; Viewer.InvalidSelection; Viewer.Close]).
Proof.
  apply (proj2 (viewer_menu_and_rejections
                  {| Viewer.dirname := ""; Viewer.readdir := Ok ["a"; "b"];
                     Viewer.disk := ∅; Viewer.answer := Some 7%Z |} ["a"; "b"]
                  eq_refl ltac:(discriminate))).
  right. exists 7%Z. split; [ reflexivity |]. right. simpl. lia.
Defined.

(** X19.  A number between 1 and the number of folders selects the folder
    at that place of the listing, and that folder is displayed; when it has
    no [messages.json] the viewer says so and closes. *)
Theorem viewer_selects_listed_folder (i : Viewer.Input) (folders : list string) (num : Z) :
  Viewer.readdir i = Ok folders ->
  Viewer.answer i = Some num ->
  (1 <= num <= Z.of_nat (length folders))%Z ->
  let asked := Viewer.AvailableChats :: menu 1 folders ++ [Viewer.Question] in
  exists chatName,
    folders !! Z.to_nat (num - 1) = Some chatName
    /\ Viewer.run i = Viewer.displayChat i chatName asked
    /\ (Viewer.disk i !! path_join [Viewer.backupDir i; chatName; "messages.json"] = None ->
        Viewer.run i = (Ok tt, asked ++ [Viewer.NoMessagesFound; Viewer.Close])).
Proof.
  intros Hdir Hanswer Hrange asked.
  destruct folders as [| folder rest]; [ cbn in Hrange; lia |].
  assert (Hguard : ((0 <? num) && (num <=? Z.of_nat (length (folder :: rest))))%Z = true).
  { apply andb_true_iff. split; [ apply Z.ltb_lt | apply Z.leb_le ]; lia. }
  destruct (selection_in_range _ _ Hguard) as [chatName Hchat].
  exists chatName. split; [ exact Hchat |].
  assert (Hrun : Viewer.run i = Viewer.displayChat i chatName asked).
  { rewrite (run_menu i folder rest Hdir). fold asked.
    unfold Viewer.onAnswer. rewrite Hanswer.
    destruct num as [| num | num]; [ lia | | lia ].
    now rewrite Hguard, Hchat. }
  split; [ exact Hrun |].
  intros Hmissing. rewrite Hrun.
  destruct (displayChat_cases i chatName asked) as (shown & -> & _ & Hshown).
  cbv zeta in Hshown. rewrite Hmissing in Hshown. now subst shown.
Qed.

Lemma viewer_selects_listed_folder_witness :
  Viewer.run {| Viewer.dirname := ""; Viewer.readdir := Ok ["a"; "b"];
                Viewer.disk := ∅; Viewer.answer := Some 2%Z |}
  = (Ok tt, [Viewer.AvailableChats; Viewer.ChatItem 1 "a"; Viewer.ChatItem 2 "b";
             Viewer.Question; Viewer.NoMessagesFound; Viewer.Close]).
Proof.
  destruct (viewer_selects_listed_folder
              {| Viewer.dirname := ""; Viewer.readdir := Ok ["a"; "b"];
                 Viewer.disk := ∅; Viewer.answer := Some 2%Z |} ["a"; "b"] 2%Z
              eq_refl eq_refl ltac:(simpl; lia)) as (chatName & Hchat & _ & Hmissing).
  injection Hchat as <-. apply Hmissing. reflexivity.
Defined.

(** ** Folder names and log paths *)

(** X20.  A direct conversation gets the empty folder name in one case
    only, unless its id is empty: its contact was retrieved and the name
    chosen for it ([name], else [pushname], else [id.user]) is made of
    spaces.  The fallbacks after a failed lookup are never empty. *)
Theorem direct_name_empty_only_if_blank (getContactById : string -> result Contact)
    (chat : Chat) (msgFrom : option string) :
  chat_isGroup chat = false ->
  chat_serialized chat <> "" ->
  getChatFilenameBase getContactById chat msgFrom = "" ->
  exists contact n,
    getContactById (chat_serialized chat) = Ok contact
    /\ contactName contact = Some n /\ n <> "" /\ all_chars blank n = true.
Proof.
  intros Hdirect Hid. unfold getChatFilenameBase. rewrite Hdirect.
  destruct (getContactById (chat_serialized chat)) as [contact | e] eqn:Hlookup.
  - unfold contactBase.
    destruct (contactName contact) as [n |] eqn:Hname; [| now intros H ].
    destruct (is_empty n) eqn:Hn; [ now intros H |].
    intros H. exists contact, n.
    split; [ reflexivity |]. split; [ exact Hname |]. split.
    + intros E. rewrite E in Hn. discriminate Hn.
    + unfold sanitize in H. now rewrite trim_empty, replace_unsafe_spaces in H.
  - unfold phoneFallback.
    destruct (if truthy msgFrom then _ else _) as [p |]; [| now intros H ].
    destruct (is_empty p) eqn:Hp; [ now intros H |].
    intros ->. discriminate Hp.
Qed.

Lemma direct_name_empty_only_if_blank_witness :
  exists contact n,
    (fun _ : string => Ok {| contact_name := Some "  "; contact_pushname := None;
                             contact_user := Some "15551234567" |})
      (chat_serialized Sample.alice) = Ok contact
    /\ contactName contact = Some n /\ n <> "" /\ all_chars blank n = true.
Proof.
  apply (direct_name_empty_only_if_blank
           (fun _ => Ok {| contact_name := Some "  "; contact_pushname := None;
                           contact_user := Some "15551234567" |})
           Sample.alice None); [ reflexivity | discriminate | reflexivity ].
Defined.

(** X21.  The two variants part on a group whose subject is made of
    spaces: the earlier driver sanitises the subject as it is and files the
    group under the empty name, the current driver trims first and falls
    back to the conversation id. *)
Theorem blank_subject_variants (getContactById : string -> result Contact)
    (chat : Chat) (msg : Message) (subject : string) :
  chat_isGroup chat = true ->
  chat_name chat = Some subject ->
  subject <> "" ->
  all_chars blank subject = true ->
  Earlier.filenameBase chat msg = Ok ""
  /\ getChatFilenameBase getContactById chat (Some (msg_from msg))
     = sanitize (chat_serialized chat).
Proof.
  intros Hgroup Hname Hne Hblank.
  assert (Htruthy : truthy (Some subject) = true).
  { destruct subject; [ now contradiction Hne | reflexivity ]. }
  assert (Hspaces : all_chars is_space subject = true).
  { clear - Hblank. induction subject as [| c t IH]; [ reflexivity |].
    simpl in *. apply andb_true_iff in Hblank as [Hc Ht].
    now rewrite (blank_space c Hc), IH. }
  split.
  - unfold Earlier.filenameBase, or_else. rewrite Hgroup, Hname, Htruthy.
    f_equal. unfold sanitize. apply trim_empty. now rewrite replace_unsafe_spaces.
  - unfold getChatFilenameBase, groupBase, or_else. rewrite Hgroup, Hname, Htruthy.
    cbn [option_map truthy]. now rewrite (proj2 (trim_empty subject) Hspaces).
Qed.

Lemma blank_subject_variants_witness :
  let chat := {| chat_serialized := "15550001111-1600000000@g.us"; chat_user := None;
                 chat_isGroup := true; chat_name := Some "   " |} in
  Earlier.filenameBase chat (Sample.note chat "1") = Ok "".
Proof.
  intros chat.
  apply (blank_subject_variants Sample.nobody chat (Sample.note chat "1") "   ");
    [ reflexivity | reflexivity | discriminate | reflexivity ].
Defined.

Lemma string_length_app (a b : string) :
  String.length (a ++ b)%string = String.length a + String.length b.
Proof.
  induction a as [| c t IH]; [ reflexivity |].
  change (S (String.length (t ++ b)%string) = S (String.length t + String.length b)).
  now rewrite IH.
Qed.

Lemma string_app_inv_tail (a b c : string) : (a ++ c)%string = (b ++ c)%string -> a = b.
Proof.
  revert b. induction a as [| x t IH]; intros b H.
  - destruct b as [| y b']; [ reflexivity |].
    apply (f_equal String.length) in H. rewrite !string_length_app in H.
    cbn [String.length] in H. lia.
  - destruct b as [| y b'].
    + apply (f_equal String.length) in H. rewrite !string_length_app in H.
      cbn [String.length] in H. lia.
    + change (String x (t ++ c)%string = String y (b' ++ c)%string) in H.
      injection H as -> H. now rewrite (IH b' H).
Qed.

Lemma logPath_shape backupDir base :
  logPath backupDir base
  = rooted backupDir
      ("chats" ++ (if is_empty base then "" else "/" ++ base) ++ "/messages.json")%string.
Proof.
  assert (Hfull : forall a b : string, is_empty a = false -> is_empty (a ++ b) = false)
    by (intros [| x a] b H; [ discriminate H | reflexivity ]).
  unfold logPath, path_join, rooted. cbn [List.filter].
  destruct backupDir as [| c t]; destruct base as [| c' t'];
    cbn [is_empty negb List.filter join_segments];
    rewrite ?Hfull by reflexivity; cbn [negb join_segments];
    rewrite <- ?string_app_assoc; reflexivity.
Qed.

(** X22.  Two conversations with different folder names never share a
    log file: for names made of the characters the sanitiser leaves, which
    [path.join] does not normalise, the log paths below one backup directory
    differ when the names differ, the empty name included. *)
Theorem logPath_determines_folder (backupDir base base' : string) :
  all_chars safe_char base = true ->
  all_chars safe_char base' = true ->
  base <> base' ->
  logPath backupDir base <> logPath backupDir base'.
Proof.
  intros _ _ Hdiff H. apply Hdiff. clear Hdiff.
  rewrite !logPath_shape in H. unfold rooted in H.
  assert (Htail : ((if is_empty base then "" else "/" ++ base) ++ "/messages.json")%string
                  = ((if is_empty base' then "" else "/" ++ base') ++ "/messages.json")%string).
  { destruct (is_empty backupDir).
    - now apply (inj (String.app "chats")) in H.
    - apply (inj (String.app backupDir)) in H.
      apply (inj (String.app "/")) in H.
      now apply (inj (String.app "chats")) in H. }
  apply string_app_inv_tail in Htail.
  destruct base as [| c t]; destruct base' as [| c' t']; cbn [is_empty] in Htail;
    try reflexivity; try discriminate Htail.
  now apply (inj (String.app "/")) in Htail.
Qed.

Lemma logPath_determines_folder_witness :
  logPath "backup" "15551234567" <> logPath "backup" "Alice"
  /\ logPath "backup" "" <> logPath "backup" "chats".
Proof.
  split; apply logPath_determines_folder; solve [ reflexivity | discriminate ].
Defined.

(** ** The event handlers *)

Lemma shownTimes_app ns ns' :
  Lifecycle.shownTimes (ns ++ ns') = Lifecycle.shownTimes ns ++ Lifecycle.shownTimes ns'.
Proof.
  induction ns as [| n rest IH]; [ reflexivity |].
  destruct n; cbn [app Lifecycle.shownTimes]; rewrite IH; reflexivity.
Qed.

Lemma last_cons_default (x : Z) (rest : list Z) (prev : Z) :
  default prev (last (x :: rest)) = default x (last rest).
Proof.
  revert x prev. induction rest as [| y rest IH]; intros x prev; [ reflexivity |].
  rewrite last_cons_cons, (IH y prev), (IH y x). reflexivity.
Qed.

Lemma spaced_snoc times : forall prev t,
  Lifecycle.spaced prev times ->
  (3000 < t - default prev (last times))%Z ->
  Lifecycle.spaced prev (times ++ [t]).
Proof.
  induction times as [| x rest IH]; intros prev t Hspaced Ht.
  - cbn in *. now split.
  - destruct Hspaced as [Hx Hrest]. cbn [app Lifecycle.spaced]. split; [ exact Hx |].
    apply IH; [ exact Hrest |].
    now rewrite last_cons_default in Ht.
Qed.

(** What the [qr] handler keeps true. *)
Lemma onQr_keeps_spacing qr now p :
  Lifecycle.spaced 0 (Lifecycle.shownTimes (Lifecycle.notices p)) ->
  Lifecycle.lastQRTime p = default 0%Z (last (Lifecycle.shownTimes (Lifecycle.notices p))) ->
  let p' := Lifecycle.onQr qr now p in
  Lifecycle.spaced 0 (Lifecycle.shownTimes (Lifecycle.notices p'))
  /\ Lifecycle.lastQRTime p'
     = default 0%Z (last (Lifecycle.shownTimes (Lifecycle.notices p')))
  /\ Lifecycle.world p' = Lifecycle.world p
  /\ Lifecycle.exited p' = Lifecycle.exited p.
Proof.
  intros Hspaced Hlast. unfold Lifecycle.onQr.
  destruct (3000 <? now - Lifecycle.lastQRTime p)%Z eqn:Hdue; cbv zeta.
  - apply Z.ltb_lt in Hdue. cbn [Lifecycle.notices Lifecycle.lastQRTime Lifecycle.world
                                 Lifecycle.exited].
    rewrite shownTimes_app. cbn [Lifecycle.shownTimes]. rewrite last_snoc.
    repeat split. apply spaced_snoc; [ exact Hspaced | now rewrite <- Hlast ].
  - now repeat split.
Qed.

(** X23.  The QR codes displayed are more than three seconds apart: over
    any run of [qr] events, each display comes more than 3000 ms after the
    one before it (after time 0 for the first), whatever the times of the
    events in between; the handler touches neither the archive nor the exit
    status. *)
Theorem qr_displays_are_spaced (codes : list (string * Z)) (w : World) :
  let p := Lifecycle.pairing codes (Lifecycle.boot w) in
  Lifecycle.spaced 0 (Lifecycle.shownTimes (Lifecycle.notices p))
  /\ Lifecycle.lastQRTime p = default 0%Z (last (Lifecycle.shownTimes (Lifecycle.notices p)))
  /\ Lifecycle.world p = w
  /\ Lifecycle.exited p = None.
Proof.
  cbv zeta.
  assert (Hrun : forall p0,
    Lifecycle.spaced 0 (Lifecycle.shownTimes (Lifecycle.notices p0)) ->
    Lifecycle.lastQRTime p0
    = default 0%Z (last (Lifecycle.shownTimes (Lifecycle.notices p0))) ->
    let p := Lifecycle.pairing codes p0 in
    Lifecycle.spaced 0 (Lifecycle.shownTimes (Lifecycle.notices p))
    /\ Lifecycle.lastQRTime p
       = default 0%Z (last (Lifecycle.shownTimes (Lifecycle.notices p)))
    /\ Lifecycle.world p = Lifecycle.world p0
    /\ Lifecycle.exited p = Lifecycle.exited p0).
  { induction codes as [| [qr now] rest IH]; intros p0 Hspaced Hlast; [ now repeat split |].
    cbn [Lifecycle.pairing].
    destruct (onQr_keeps_spacing qr now p0 Hspaced Hlast) as (H1 & H2 & H3 & H4).
    destruct (IH _ H1 H2) as (I1 & I2 & I3 & I4).
    cbv zeta. rewrite <- H3, <- H4. now repeat split. }
  apply (Hrun (Lifecycle.boot w)); [ exact I | reflexivity ].
Qed.

(** X24.  The [ready] handler always announces the end of the sync: since
    no exception leaves [syncRecentMessages], the three lines of the
    handler are printed in every case, also when the sync itself failed
    and only logged a Sync Error; the world left is that of the sync. *)
Theorem ready_always_completes (env : Env) (p : Lifecycle.Process) :
  let p' := Lifecycle.onReady env p in
  Lifecycle.notices p'
  = Lifecycle.notices p
    ++ [Lifecycle.ClientReady; Lifecycle.SyncStarting; Lifecycle.SyncComplete]
  /\ Lifecycle.world p' = snd (syncRecentMessages env (Lifecycle.world p))
  /\ Lifecycle.exited p' = Lifecycle.exited p
  /\ (forall e, getChats env = Throw e ->
                Lifecycle.world p' = emit (SyncError e) (Lifecycle.world p)).
Proof.
  cbv zeta. unfold Lifecycle.onReady.
  cbn [Lifecycle.world Lifecycle.notify].
  assert (Hok : fst (syncRecentMessages env (Lifecycle.world p)) = Ok tt).
  { unfold syncRecentMessages, try_catch.
    destruct (bind _ _ (Lifecycle.world p)) as [[[] | e] w']; reflexivity. }
  assert (Hfailed : forall e, getChats env = Throw e ->
            snd (syncRecentMessages env (Lifecycle.world p))
            = emit (SyncError e) (Lifecycle.world p)).
  { intros e Hchats. unfold syncRecentMessages, try_catch, bind, lift. now rewrite Hchats. }
  destruct (syncRecentMessages env (Lifecycle.world p)) as [[[] | e] w1];
    [| discriminate Hok ].
  cbn [snd] in Hfailed.
  cbn [Lifecycle.notices Lifecycle.world Lifecycle.exited Lifecycle.notify
       Lifecycle.with_world].
  split; [ now rewrite <- !app_assoc | now repeat split ].
Qed.
